(** * futbol-base: reconciliation store, projections, client state and
      offline cache

    A shallow embedding of the parts of the repository that the
    specification talks about:

    - [Store]: the SQLite helpers of [scripts/db.py] and the import
      loops of [scripts/import_existing.py] (tables as lists of rows in
      rowid order, constraint violations as an error result);
    - [Generator]: the ORDER BY keys of [scripts/generate_js.py];
    - [Client]: the selection state and the derived views of [app.js];
    - [Worker]: the fetch handlers of the two service workers. *)

From Stdlib Require Import ZArith String Ascii List Lia Bool.
From Stdlib Require Import Sorting.Sorted Sorting.Permutation.
From stdpp Require Import base option list strings gmap.

Local Open Scope string_scope.
Local Open Scope Z_scope.

(** ** Helpers shared by every module *)

(** [Array.prototype.sort(cmp)] and SQL [ORDER BY]: a stable sort driven
  by a numeric comparator (negative: first argument first).  The
  insertion keeps an element in front of the ones it compares equal
  to, and the list is folded from the right, so equal elements keep
  their input order. *)
Section StableSort.
Context {A : Type} (cmp : A → A → Z).

Fixpoint insert_sorted (x : A) (l : list A) : list A :=
  match l with
  | [] => [x]
  | y :: t => if cmp x y <=? 0 then x :: y :: t else y :: insert_sorted x t
  end.

Definition stable_sort (l : list A) : list A :=
  foldr insert_sorted [] l.

Definition cmp_le (a b : A) : Prop := cmp a b <= 0.
End StableSort.

(** JS [x || y] on numbers: [x] unless it is 0. *)
Definition js_or (x y : Z) : Z := if x =? 0 then y else x.

(** Largest element of a list of row ids (0 for the empty table). *)
Definition max_rowid (ids : list Z) : Z := foldr Z.max 0 ids.

(** ** The reconciliation store ([scripts/db.py], [scripts/import_existing.py]) *)
Module Store.

(** A statement either completes or raises [sqlite3.IntegrityError]. *)
Inductive result (A : Type) : Type :=
| Ok (a : A)
| IntegrityError.
Arguments Ok {A} a.
Arguments IntegrityError {A}.

#[export] Instance result_ret : MRet result := @Ok.
#[export] Instance result_bind : MBind result := λ A B f r,
  match r with Ok a => f a | IntegrityError => IntegrityError end.

(** Rows, column for column as in [SCHEMA]. *)
Record season := Season {
  season_id : Z; season_name : string;
  start_year : Z; end_year : Z; is_current : Z }.

Record category := Category { category_id : Z; category_name : string }.

Record group := Group {
  group_id : Z; g_season_id : Z; g_category_id : Z; code : string;
  name : option string; full_name : option string; phase : option string;
  island : option string; url : option string;
  current_jornada : option string }.

Record team := Team {
  team_id : Z; team_name : string; shield_filename : option string }.

Record standing := Standing {
  standing_id : Z; s_group_id : Z; s_team_id : Z; position : Z;
  points : Z; played : Z; won : Z; drawn : Z; lost : Z;
  gf : Z; gc : Z; gd : Z }.

Record match_row := Match {
  match_id : Z; m_group_id : Z; jornada : string;
  date : option string; time : option string;
  home_team_id : Z; away_team_id : Z;
  home_score : option Z; away_score : option Z; venue : option string }.

(** The database: every table in rowid order, with its
    [sqlite_sequence] entry (the largest rowid ever handed out). *)
Record db := Db {
  seasons : list season;       seq_seasons : Z;
  categories : list category;  seq_categories : Z;
  groups : list group;         seq_groups : Z;
  teams : list team;           seq_teams : Z;
  standings : list standing;   seq_standings : Z;
  matches : list match_row;    seq_matches : Z }.

(** The store proper: the rows of the six tables, without the
    counters. *)
Definition tables (d : db)
    : list season * list category * list group * list team
      * list standing * list match_row :=
  (seasons d, categories d, groups d, teams d, standings d, matches d).

(** [INTEGER PRIMARY KEY AUTOINCREMENT]: one more than the largest
    rowid the table has or ever had. *)
Definition next_rowid (seq : Z) (ids : list Z) : Z :=
  Z.max seq (max_rowid ids) + 1.

Definition set_teams (d : db) (ts : list team) (sq : Z) : db :=
  Db (seasons d) (seq_seasons d) (categories d) (seq_categories d)
     (groups d) (seq_groups d) ts sq
     (standings d) (seq_standings d) (matches d) (seq_matches d).

Definition set_groups (d : db) (gs : list group) (sq : Z) : db :=
  Db (seasons d) (seq_seasons d) (categories d) (seq_categories d)
     gs sq (teams d) (seq_teams d)
     (standings d) (seq_standings d) (matches d) (seq_matches d).

Definition set_standings (d : db) (ss : list standing) (sq : Z) : db :=
  Db (seasons d) (seq_seasons d) (categories d) (seq_categories d)
     (groups d) (seq_groups d) (teams d) (seq_teams d)
     ss sq (matches d) (seq_matches d).

Definition set_matches (d : db) (ms : list match_row) (sq : Z) : db :=
  Db (seasons d) (seq_seasons d) (categories d) (seq_categories d)
     (groups d) (seq_groups d) (teams d) (seq_teams d)
     (standings d) (seq_standings d) ms sq.

Definition set_seasons (d : db) (ss : list season) (sq : Z) : db :=
  Db ss sq (categories d) (seq_categories d)
     (groups d) (seq_groups d) (teams d) (seq_teams d)
     (standings d) (seq_standings d) (matches d) (seq_matches d).

Definition set_categories (d : db) (cs : list category) (sq : Z) : db :=
  Db (seasons d) (seq_seasons d) cs sq
     (groups d) (seq_groups d) (teams d) (seq_teams d)
     (standings d) (seq_standings d) (matches d) (seq_matches d).

(** Python truthiness of an optional text argument: [None] and the
    empty string are false. *)
Definition truthy (s : option string) : bool :=
  match s with
  | Some (String _ _) => true
  | _ => false
  end.

(** *** get_or_create_season, get_or_create_category *)

Definition get_or_create_season (d : db) (nm : string) (sy ey : Z)
    (cur : bool) : Z * db :=
  match List.find (λ r, String.eqb (season_name r) nm) (seasons d) with
  | Some row => (season_id row, d)
  | None =>
      let id := next_rowid (seq_seasons d) (season_id <$> seasons d) in
      (id, set_seasons d
             (seasons d ++ [Season id nm sy ey (if cur then 1 else 0)]) id)
  end.

Definition get_or_create_category (d : db) (nm : string) : Z * db :=
  match List.find (λ r, String.eqb (category_name r) nm) (categories d) with
  | Some row => (category_id row, d)
  | None =>
      let id := next_rowid (seq_categories d) (category_id <$> categories d) in
      (id, set_categories d (categories d ++ [Category id nm]) id)
  end.

(** *** get_or_create_team *)

(** [SELECT id FROM teams WHERE name=?] then [fetchone()]. *)
Definition select_team (d : db) (nm : string) : option team :=
  List.find (λ t, String.eqb (team_name t) nm) (teams d).

(** [UPDATE teams SET shield_filename=? WHERE id=?]. *)
Definition update_shield (id : Z) (sh : option string) (t : team) : team :=
  if team_id t =? id then Team (team_id t) (team_name t) sh else t.

Definition get_or_create_team (d : db) (nm : string)
    (shield : option string) : Z * db :=
  match select_team d nm with
  | Some row =>
      (team_id row,
       if truthy shield
       then set_teams d (update_shield (team_id row) shield <$> teams d)
                      (seq_teams d)
       else d)
  | None =>
      let id := next_rowid (seq_teams d) (team_id <$> teams d) in
      (id, set_teams d (teams d ++ [Team id nm shield]) id)
  end.

(** *** The match upsert of import_category and import_history *)

(** [UNIQUE(group_id, jornada, home_team_id, away_team_id)]. *)
Definition same_match_key (gid : Z) (jor : string) (hid aid : Z)
    (m : match_row) : bool :=
  (m_group_id m =? gid) && String.eqb (jornada m) jor
  && (home_team_id m =? hid) && (away_team_id m =? aid).

Definition group_exists (d : db) (gid : Z) : bool :=
  existsb (λ g, group_id g =? gid) (groups d).

Definition team_exists (d : db) (tid : Z) : bool :=
  existsb (λ t, team_id t =? tid) (teams d).

(** [INSERT OR IGNORE INTO matches (...) VALUES (...)]: a row that
    breaks NOT NULL or UNIQUE is skipped; a missing parent row is
    still an error (foreign_keys=ON).  SQLite draws the rowid before it
    checks the constraints, so a skipped row leaves every table as it
    was but still uses up its rowid: the AUTOINCREMENT counter of
    [matches] advances ("the ROWID of the failed insertion attempt
    might not be reused", as the SQLite documentation puts it). *)
Definition insert_or_ignore_match (d : db) (gid : Z) (jor : option string)
    (dt tm : option string) (hid aid : Z) (hs as_ : option Z)
    (vn : option string) : result db :=
  let id := next_rowid (seq_matches d) (match_id <$> matches d) in
  match jor with
  | None => Ok (set_matches d (matches d) id)
  | Some j =>
      if existsb (same_match_key gid j hid aid) (matches d)
      then Ok (set_matches d (matches d) id)
      else if group_exists d gid && team_exists d hid && team_exists d aid
      then
        Ok (set_matches d
              (matches d ++ [Match id gid j dt tm hid aid hs as_ vn]) id)
      else IntegrityError
  end.

(** One iteration of the [for m in g.get("matches", [])] loop of
    import_category; [jor] is [g.get("jornada", "")]. *)
Definition upsert_match (d : db) (gid : Z) (jor : option string)
    (dt tm : option string) (home away : string) (hs as_ : option Z)
    (vn : option string) : result db :=
  let '(home_id, d1) := get_or_create_team d home None in
  let '(away_id, d2) := get_or_create_team d1 away None in
  insert_or_ignore_match d2 gid jor dt tm home_id away_id hs as_ vn.

(** One iteration of the inner loop of import_history: no time and no
    venue column in the statement, so both are stored as NULL. *)
Definition upsert_history_match (d : db) (gid : Z) (jor_name : string)
    (dt : option string) (home away : string) (hs as_ : option Z)
    : result db :=
  let '(home_id, d1) := get_or_create_team d home None in
  let '(away_id, d2) := get_or_create_team d1 away None in
  insert_or_ignore_match d2 gid (Some jor_name) dt None home_id away_id
                         hs as_ None.

(** *** get_or_create_group *)

(** The keyword arguments of get_or_create_group: a dict from the
    optional columns of [groups] to values, [None] included, in call
    order. *)
Inductive column : Type :=
| col_name | col_full_name | col_phase | col_island | col_url
| col_current_jornada.

#[export] Instance column_eq_dec : EqDecision column.
Proof. solve_decision. Defined.

Definition get_col (k : column) (g : group) : option string :=
  match k with
  | col_name => name g
  | col_full_name => full_name g
  | col_phase => phase g
  | col_island => island g
  | col_url => url g
  | col_current_jornada => current_jornada g
  end.

Definition set_col (k : column) (v : option string) (g : group) : group :=
  match k with
  | col_name =>
      Group (group_id g) (g_season_id g) (g_category_id g) (code g)
            v (full_name g) (phase g) (island g) (url g) (current_jornada g)
  | col_full_name =>
      Group (group_id g) (g_season_id g) (g_category_id g) (code g)
            (name g) v (phase g) (island g) (url g) (current_jornada g)
  | col_phase =>
      Group (group_id g) (g_season_id g) (g_category_id g) (code g)
            (name g) (full_name g) v (island g) (url g) (current_jornada g)
  | col_island =>
      Group (group_id g) (g_season_id g) (g_category_id g) (code g)
            (name g) (full_name g) (phase g) v (url g) (current_jornada g)
  | col_url =>
      Group (group_id g) (g_season_id g) (g_category_id g) (code g)
            (name g) (full_name g) (phase g) (island g) v (current_jornada g)
  | col_current_jornada =>
      Group (group_id g) (g_season_id g) (g_category_id g) (code g)
            (name g) (full_name g) (phase g) (island g) (url g) v
  end.

(** [updates = {k: v for k, v in kwargs.items() if v is not None}]. *)
Fixpoint updates (kwargs : list (column * option string))
    : list (column * string) :=
  match kwargs with
  | [] => []
  | (k, Some v) :: rest => (k, v) :: updates rest
  | (_, None) :: rest => updates rest
  end.

(** [UPDATE groups SET k1=?, k2=?, ... WHERE id=?] on one row. *)
Definition update_group (gid : Z) (ups : list (column * string))
    (g : group) : group :=
  if group_id g =? gid
  then foldl (λ acc kv, set_col kv.1 (Some kv.2) acc) g ups
  else g.

(** [SELECT id FROM groups WHERE season_id=? AND category_id=? AND code=?]. *)
Definition select_group (d : db) (sid cid : Z) (c : string) : option group :=
  List.find (λ g, (g_season_id g =? sid) && (g_category_id g =? cid)
                  && String.eqb (code g) c) (groups d).

Definition season_exists (d : db) (sid : Z) : bool :=
  existsb (λ r, season_id r =? sid) (seasons d).

Definition category_exists (d : db) (cid : Z) : bool :=
  existsb (λ r, category_id r =? cid) (categories d).

Definition get_or_create_group (d : db) (sid cid : Z) (c : string)
    (kwargs : list (column * option string)) : result (Z * db) :=
  match select_group d sid cid c with
  | Some row =>
      let gid := group_id row in
      match updates kwargs with
      | [] => Ok (gid, d)
      | ups => Ok (gid, set_groups d (update_group gid ups <$> groups d)
                                   (seq_groups d))
      end
  | None =>
      if season_exists d sid && category_exists d cid then
        let id := next_rowid (seq_groups d) (group_id <$> groups d) in
        let row := foldl (λ acc kv, set_col kv.1 kv.2 acc)
                     (Group id sid cid c None None None None None None)
                     kwargs in
        Ok (id, set_groups d (groups d ++ [row]) id)
      else IntegrityError
  end.

(** *** The standings replacement of import_category *)

(** A scraped standings row: [[pos, team, pts, J, G, E, P, GF, GC, DF]]. *)
Record standing_row := StandingRow {
  r_pos : Z; r_team : string; r_pts : Z; r_played : Z; r_won : Z;
  r_drawn : Z; r_lost : Z; r_gf : Z; r_gc : Z; r_gd : Z }.

(** [INSERT INTO standings (...) VALUES (...)]: a plain insert, so a
    second row for the same [(group_id, team_id)] raises. *)
Definition insert_standing (d : db) (gid tid : Z) (row : standing_row)
    : result db :=
  if existsb (λ s, (s_group_id s =? gid) && (s_team_id s =? tid))
             (standings d)
  then IntegrityError
  else if group_exists d gid && team_exists d tid then
    let id := next_rowid (seq_standings d) (standing_id <$> standings d) in
    Ok (set_standings d
          (standings d ++
             [Standing id gid tid (r_pos row) (r_pts row) (r_played row)
                       (r_won row) (r_drawn row) (r_lost row)
                       (r_gf row) (r_gc row) (r_gd row)]) id)
  else IntegrityError.

(** The [for row in g.get("standings", [])] loop. *)
Fixpoint insert_standings (d : db) (gid : Z) (rows : list standing_row)
    : result db :=
  match rows with
  | [] => Ok d
  | row :: rest =>
      let '(tid, d1) := get_or_create_team d (r_team row) None in
      d2 ← insert_standing d1 gid tid row;
      insert_standings d2 gid rest
  end.

(** [DELETE FROM standings WHERE group_id=?]. *)
Definition delete_standings (d : db) (gid : Z) : db :=
  set_standings d (List.filter (λ s, negb (s_group_id s =? gid)) (standings d))
                (seq_standings d).

Definition replace_standings (d : db) (gid : Z) (rows : list standing_row)
    : result db :=
  insert_standings (delete_standings d gid) gid rows.

(** One standings row with the name of its team joined in
    ([standings s JOIN teams t ON s.team_id=t.id]). *)
Definition join_team (ts : list team) (s : standing) : list standing_row :=
  t ← List.filter (λ t, team_id t =? s_team_id s) ts;
  [StandingRow (position s) (team_name t) (points s) (played s) (won s)
               (drawn s) (lost s) (gf s) (gc s) (gd s)].

(** The rows stored for a group, read back in rowid order:
    [SELECT s.position, t.name, s.points, ... FROM standings s JOIN
    teams t ON s.team_id=t.id WHERE s.group_id=?], the query of
    generate_category before its ORDER BY. *)
Definition select_standings (d : db) (gid : Z) : list standing_row :=
  s ← standings d;
  if s_group_id s =? gid then join_team (teams d) s else [].

(** The raw rows of every other group. *)
Definition standings_outside (d : db) (gid : Z) : list standing :=
  List.filter (λ s, negb (s_group_id s =? gid)) (standings d).

End Store.

(** ** Text primitives used by the generator and the client *)

Definition is_digit (c : ascii) : bool :=
  let n := nat_of_ascii c in (48 <=? n)%nat && (n <=? 57)%nat.

Definition digit_val (c : ascii) : Z := Z.of_nat (nat_of_ascii c) - 48.

(** The number a run of decimal digits denotes, read left to right from
    the accumulator [acc]. *)
Fixpoint digits_value (acc : Z) (s : string) : Z :=
  match s with
  | EmptyString => acc
  | String c r => digits_value (10 * acc + digit_val c) r
  end.

(** JS [s.replace(/\D/g, '')]: drop every character that is not a
    decimal digit. *)
Fixpoint strip_non_digits (s : string) : string :=
  match s with
  | EmptyString => EmptyString
  | String c r =>
      if is_digit c then String c (strip_non_digits r) else strip_non_digits r
  end.

(** JS [parseInt] on a string made of decimal digits only, which is all
    [strip_non_digits] can return: the whole string is read in base 10,
    and the empty string gives NaN ([None]).  The result is exact for up
    to 15 digits (below 2^53). *)
Definition parseInt_digits (s : string) : option Z :=
  match s with
  | EmptyString => None
  | _ => Some (digits_value 0 s)
  end.

(** JS [a - b] on numbers that may be NaN. *)
Definition num_sub (a b : option Z) : option Z :=
  match a, b with
  | Some x, Some y => Some (x - y)
  | _, _ => None
  end.

(** JS [a.localeCompare(b)] as a sign, taken as the code-unit order; the
    dates it is applied to are made of digits and separators. *)
Definition localeCompare (a b : string) : Z :=
  match String.compare a b with
  | Lt => -1
  | Eq => 0
  | Gt => 1
  end.

(** JS [s.includes(f)]. *)
Fixpoint includes (s f : string) : bool :=
  String.prefix f s ||
  match s with
  | EmptyString => false
  | String _ r => includes r f
  end.

(** JS [xs.slice(start)] for an integer [start]: a negative [start]
    counts from the end. *)
Definition slice_from {A} (start : Z) (xs : list A) : list A :=
  let len := Z.of_nat (length xs) in
  let k := if start <? 0 then Z.max (len + start) 0 else Z.min start len in
  drop (Z.to_nat k) xs.

(** SQLite [REPLACE(s, pat, '')] for a non-empty [pat]: every occurrence
    of [pat], found scanning from the left, is removed.  [skip] counts
    the characters of a found occurrence still to be dropped. *)
Fixpoint sql_remove_go (pat s : string) (skip : nat) : string :=
  match s with
  | EmptyString => EmptyString
  | String c r =>
      match skip with
      | S k => sql_remove_go pat r k
      | O =>
          if String.prefix pat s
          then sql_remove_go pat r (String.length pat - 1)
          else String c (sql_remove_go pat r 0)
      end
  end.

Definition sql_remove (pat s : string) : string :=
  match pat with
  | EmptyString => s
  | _ => sql_remove_go pat s 0
  end.

(** SQLite [CAST(s AS INTEGER)] on text: leading white space is skipped,
    then the longest prefix that reads as an integer is taken (0 when
    there is none), clamped to 64 bits. *)
Definition is_sql_space (c : ascii) : bool :=
  let n := nat_of_ascii c in ((9 <=? n)%nat && (n <=? 13)%nat) || (n =? 32)%nat.

Fixpoint skip_spaces (s : string) : string :=
  match s with
  | EmptyString => EmptyString
  | String c r => if is_sql_space c then skip_spaces r else s
  end.

Fixpoint leading_digits (s : string) : string :=
  match s with
  | EmptyString => EmptyString
  | String c r => if is_digit c then String c (leading_digits r) else EmptyString
  end.

Definition clamp_int64 (v : Z) : Z :=
  Z.max (- 2 ^ 63) (Z.min v (2 ^ 63 - 1)).

Definition cast_integer (s : string) : Z :=
  match skip_spaces s with
  | String "-" r => clamp_int64 (- digits_value 0 (leading_digits r))
  | String "+" r => clamp_int64 (digits_value 0 (leading_digits r))
  | t => clamp_int64 (digits_value 0 (leading_digits t))
  end.

(** ** The projection generator ([scripts/generate_js.py]) *)
Module Generator.
Import Store.

(** The ORDER BY expression of generate_history:
    [CAST(REPLACE(REPLACE(jornada, 'Jornada ', ''), 'JORNADA ', '') AS INTEGER)]. *)
Definition jornada_order_key (jor : string) : Z :=
  cast_integer (sql_remove "JORNADA " (sql_remove "Jornada " jor)).

(** [ORDER BY] on that key, ascending; rows with equal keys stay in the
    order the scan produced them. *)
Definition order_by_jornada_key (labels : list string) : list string :=
  stable_sort (λ a b, jornada_order_key a - jornada_order_key b) labels.

(** [SELECT DISTINCT jornada FROM matches WHERE group_id=? AND home_score
    IS NOT NULL ORDER BY ...]. *)
Definition select_scored_jornadas (d : db) (gid : Z) : list string :=
  order_by_jornada_key
    (remove_dups
       (jornada <$> List.filter
          (λ m, (m_group_id m =? gid) && bool_decide (home_score m ≠ None))
          (matches d))).

(** The standings query of generate_category, [ORDER BY s.position]. *)
Definition generate_standings (d : db) (gid : Z) : list standing_row :=
  stable_sort (λ a b, r_pos a - r_pos b) (select_standings d gid).

End Generator.

(** ** The client ([app.js]) *)
Module Client.

(** *** Static data files *)

(** A HISTORY match: [[date, home, away, hs, as]], scores nullable. *)
Record hmatch := HMatch {
  h_date : string; h_home : string; h_away : string;
  h_hs : option Z; h_as : option Z }.

(** A current-matchday match of a group:
    [[date, time, home, away, hs, as, venue]]. *)
Record cmatch := CMatch {
  c_date : string; c_time : string; c_home : string; c_away : string;
  c_hs : option Z; c_as : option Z; c_venue : option string }.

(** A standings row: [[pos, team, pts, j, g, e, p, gf, gc, df]]. *)
Record srow := SRow {
  row_pos : Z; row_team : string; row_pts : Z; row_j : Z; row_g : Z;
  row_e : Z; row_p : Z; row_gf : Z; row_gc : Z; row_df : Z }.

Record group_data := GroupData {
  id : string; name : string; fullName : string; phase : string;
  g_island : option string; url : option string; jornada : option string;
  standings : list srow; matches : list cmatch }.

(** A scorers row [[player, team, goals, games]] and a per-group entry
    [{g, s}] of GOL_BENJ / GOL_PREBENJ. *)
Record scorer_row := ScorerRow {
  p_player : string; p_team : string; p_goals : Z; p_games : Z }.

Record scorer_group := ScorerGroup { g : string; s : list scorer_row }.

(** The globals the data files declare.  HISTORY may be undefined; a
    group's matchdays are kept in [Object.entries] order. *)
Record data := Data {
  BENJAMIN : list group_data;
  PREBENJAMIN : list group_data;
  HISTORY : option (gmap string (list (string * list hmatch)));
  GOL_BENJ : list scorer_group;
  GOL_PREBENJ : list scorer_group }.

(** *** Selection state [S] *)

Inductive category : Type := benjamin | prebenjamin.
Inductive section_id : Type := clasif | jornadas | goleadores | isla.

Record state := State {
  cat : category;
  section : section_id;
  search : string;
  jorGroup : string;
  jorNum : string;
  golGroup : string;
  island : string }.

Definition initial_state : state :=
  State benjamin clasif "" "A2" "" "__GLOBAL__" "grancanaria".

Definition set_jorGroup (v : string) (S : state) : state :=
  State (cat S) (section S) (search S) v (jorNum S) (golGroup S) (island S).
Definition set_jorNum (v : string) (S : state) : state :=
  State (cat S) (section S) (search S) (jorGroup S) v (golGroup S) (island S).
Definition set_golGroup (v : string) (S : state) : state :=
  State (cat S) (section S) (search S) (jorGroup S) (jorNum S) v (island S).
Definition set_island (v : string) (S : state) : state :=
  State (cat S) (section S) (search S) (jorGroup S) (jorNum S) (golGroup S) v.

(** JS truthiness of a string and of a nullable string. *)
Definition nonempty (v : string) : bool :=
  match v with EmptyString => false | _ => true end.

Definition truthy (v : option string) : bool :=
  match v with Some t => nonempty t | None => false end.

Definition getData (E : data) (S : state) : list group_data :=
  match cat S with benjamin => BENJAMIN E | prebenjamin => PREBENJAMIN E end.

(** *** getTeamForm *)

Inductive outcome : Type := W | L | D.

(** An element of [all]: [{jorNum, date, result}]; [jorNum] may be NaN. *)
Record form_entry := FormEntry {
  fe_jorNum : option Z; fe_date : string; fe_result : outcome }.

(** The body of [matches.forEach] for one matchday. *)
Definition team_entries (teamName jorName : string) (ms : list hmatch)
    : list form_entry :=
  let jn := parseInt_digits (strip_non_digits jorName) in
  m ← ms;
  match h_hs m, h_as m with
  | Some hs, Some as_ =>
      if negb (String.eqb (h_home m) teamName)
         && negb (String.eqb (h_away m) teamName) then []
      else
        let isHome := String.eqb (h_home m) teamName in
        let gf := if isHome then hs else as_ in
        let gc := if isHome then as_ else hs in
        [FormEntry jn (h_date m)
                   (if gc <? gf then W else if gf <? gc then L else D)]
  | _, _ => []
  end.

(** [(a, b) => a.jorNum - b.jorNum || a.date.localeCompare(b.date)]. *)
Definition form_cmp (a b : form_entry) : Z :=
  match num_sub (fe_jorNum a) (fe_jorNum b) with
  | Some v => js_or v (localeCompare (fe_date a) (fe_date b))
  | None => localeCompare (fe_date a) (fe_date b)
  end.

(** Every scored match of the team in the group, sorted: the array
    [all] after [all.sort]. *)
Definition team_history (E : data) (teamName groupId : string)
    : list form_entry :=
  match HISTORY E ≫= (.!! groupId) with
  | None => []
  | Some hist =>
      stable_sort form_cmp
        (jm ← hist; team_entries teamName jm.1 jm.2)
  end.

(** [getTeamForm(teamName, groupId, n)]; [n] is [None] when the caller
    leaves it out. *)
Definition getTeamForm (E : data) (teamName groupId : string)
    (n : option Z) : list form_entry :=
  let n := match n with
           | Some k => if k =? 0 then 5 else k
           | None => 5
           end in
  slice_from (- n) (team_history E teamName groupId).

(** *** The matchday list of renderJornadaContent *)

(** [(a, b) => parseInt(a.replace(/\D/g,'')) - parseInt(b.replace(/\D/g,''))];
    a NaN result counts as 0 for [sort]. *)
Definition jornada_cmp (a b : string) : Z :=
  match num_sub (parseInt_digits (strip_non_digits a))
                (parseInt_digits (strip_non_digits b)) with
  | Some v => v
  | None => 0
  end.

Definition sort_jornadas (labels : list string) : list string :=
  stable_sort jornada_cmp labels.

(** *** The scorers of renderGolTable *)

(** A row of the table: [{name, team, goals, games, group}]. *)
Record scorer := Scorer {
  sc_name : string; sc_team : string; sc_goals : Z; sc_games : Z;
  sc_group : string }.

(** The nested [forEach] that tags every row with its group's [g]. *)
Definition merge_scorers (golData : list scorer_group) : list scorer :=
  gd ← golData;
  (λ r, Scorer (p_player r) (p_team r) (p_goals r) (p_games r) (g gd)) <$> s gd.

(** [(a, b) => b.goals - a.goals || a.games - b.games]. *)
Definition scorer_cmp (a b : scorer) : Z :=
  js_or (sc_goals b - sc_goals a) (sc_games a - sc_games b).

Definition global_scorers (golData : list scorer_group) : list scorer :=
  take 30 (stable_sort scorer_cmp (merge_scorers golData)).

(** The array [scorers] that renderGolTable goes on to print. *)
Definition golTable_scorers (E : data) (S : state) : list scorer :=
  let golData := match cat S with
                 | benjamin => GOL_BENJ E
                 | prebenjamin => GOL_PREBENJ E
                 end in
  if String.eqb (golGroup S) "__GLOBAL__" then global_scorers golData
  else
    match List.find (λ gd, String.eqb (g gd) (golGroup S)) golData with
    | Some gd =>
        (λ r, Scorer (p_player r) (p_team r) (p_goals r) (p_games r) "") <$> s gd
    | None => []
    end.

(** *** What rendering does to [S] *)

(** renderJornadaContent, with the two containers renderJornadas has
    just created present in the document. *)
Definition renderJornadaContent (E : data) (S : state) : state :=
  if negb (nonempty (jorGroup S)) then S else
  match List.find (λ gd, String.eqb (id gd) (jorGroup S)) (getData E S) with
  | None => S
  | Some group =>
      match HISTORY E ≫= (.!! jorGroup S) with
      | Some hist =>
          let jornadas := sort_jornadas (fst <$> hist) in
          match last jornadas with
          | None => S
          | Some latest =>
              let S1 :=
                if negb (nonempty (jorNum S))
                   || negb (bool_decide (jorNum S ∈ jornadas))
                then set_jorNum latest S else S in
              let hasCurrentInHistory :=
                bool_decide (jornada group ∈ (Some <$> jornadas)) in
              if negb hasCurrentInHistory && truthy (jornada group) then
                if negb (bool_decide (jorNum S1 ∈ jornadas))
                then set_jorNum (default "" (jornada group)) S1
                else S1
              else S1
          end
      | None => S
      end
  end.

Definition renderJornadas (E : data) (S : state) : state :=
  let S1 :=
    match getData E S with
    | first :: _ => if negb (nonempty (jorGroup S))
                    then set_jorGroup (id first) S else S
    | [] => S
    end in
  if nonempty (jorGroup S1) then renderJornadaContent E S1 else S1.

Definition renderGoleadores (E : data) (S : state) : state :=
  let golData := match cat S with
                 | benjamin => GOL_BENJ E
                 | prebenjamin => GOL_PREBENJ E
                 end in
  match golData with
  | [] => S
  | _ => if negb (nonempty (golGroup S)) then set_golGroup "__GLOBAL__" S else S
  end.

(** renderIsla: [availableIslands] is the set of [g.island] over the
    data, first seen first. *)
Definition renderIsla (E : data) (S : state) : state :=
  let available := g_island <$> getData E S in
  if bool_decide (Some (island S) ∈ available) then S
  else
    let first := head available ≫= λ v, v in
    set_island (if truthy first then default "" first else "grancanaria") S.

(** renderSection: renderClasif and updateSearchCount only read [S]. *)
Definition renderSection (E : data) (S : state) : state :=
  match section S with
  | clasif => S
  | jornadas => renderJornadas E S
  | goleadores => renderGoleadores E S
  | isla => renderIsla E S
  end.

(** *** Event handlers of bindEvents *)



(** Click on a [.cat-btn] whose [data-cat] is [c]. *)
Definition cat_btn_click (E : data) (c : category) (S : state) : state :=
  renderSection E
    (State c (section S) ""
           (match c with benjamin => "A2" | prebenjamin => "PG2" end)
           "" "__GLOBAL__" "grancanaria").

End Client.

(** ** The service worker (two versions of [sw.js]) *)
Module Worker.

Record Request := Req { req_url : string }.

Record Response := Resp { status : Z; body : string }.

(** How [fetch(e.request)] settles: with a response of any status, or by
    rejecting. *)
Inductive fetch_result : Type :=
| Fulfilled (resp : Response)
| Rejected.

(** [caches]: the named caches in creation order, each a map from
    request URL to the stored response. *)
Definition CacheStorage : Type := list (string * gmap string Response).

(** [caches.match(request)]: the first cache that has an entry for the
    URL answers; [undefined] is [None]. *)
Fixpoint caches_match (cs : CacheStorage) (u : string) : option Response :=
  match cs with
  | [] => None
  | (_, c) :: rest =>
      match c !! u with
      | Some r => Some r
      | None => caches_match rest u
      end
  end.

(** [caches.open(name).then(c => c.put(request, clone))], once the
    detached promise has run: the named cache is created at the end of
    the list when missing, and the entry for the URL is overwritten.
    (The Cache API turns down only what a page does not send for a
    script: a request that is not a GET, a partial response.) *)
Fixpoint caches_put (cs : CacheStorage) (nm u : string) (r : Response)
    : CacheStorage :=
  match cs with
  | [] => [(nm, {[ u := r ]})]
  | (n, c) :: rest =>
      if String.eqb n nm then (n, <[ u := r ]> c) :: rest
      else (n, c) :: caches_put rest nm u r
  end.


(** Where the worker runs: [self.location.origin], and the URL that
    ['./index.html'] resolves to. *)
Record location := Location { origin : string; index_html : string }.

Definition DATA_FILES : list string :=
  ["data-benjamin"; "data-prebenjamin"; "data-history"; "data-goleadores";
   "data-matchdetail"; "data-shields"].

(** [DATA_FILES.some(f => e.request.url.includes(f))]. *)
Definition isDataFile (req : Request) : bool :=
  existsb (λ f, includes (req_url req) f) DATA_FILES.

(** What [e.respondWith] is given, after every promise has settled: the
    response handed to the page ([None]: the promise resolved with
    [undefined]) and the caches left behind.  [net] is what
    [fetch(e.request)] does if the handler calls it. *)
Definition outcome : Type := option Response * CacheStorage.

(** The cache-first chain: [caches.match(e.request).then(cached => ...)
    .catch(() => caches.match('./index.html'))]. *)
Definition cache_first (CACHE_NAME : string) (loc : location)
    (cs : CacheStorage) (req : Request) (net : fetch_result) : outcome :=
  match caches_match cs (req_url req) with
  | Some cached => (Some cached, cs)
  | None =>
      match net with
      | Fulfilled resp =>
          if negb (String.prefix (origin loc) (req_url req))
          then (Some resp, cs)
          else (Some resp, caches_put cs CACHE_NAME (req_url req) resp)
      | Rejected => (caches_match cs (index_html loc), cs)
      end
  end.

(** The network-first chain: [fetch(e.request).then(resp => ...)
    .catch(() => caches.match(e.request))]. *)
Definition network_first (CACHE_NAME : string)
    (cs : CacheStorage) (req : Request) (net : fetch_result) : outcome :=
  match net with
  | Fulfilled resp =>
      (Some resp, caches_put cs CACHE_NAME (req_url req) resp)
  | Rejected => (caches_match cs (req_url req), cs)
  end.

(** The fetch listener of [src/sw.js] (cache ['futbolbase-v20260301']):
    one chain for every request. *)
Definition sw_fetch (loc : location) (cs : CacheStorage) (req : Request)
    (net : fetch_result) : outcome :=
  cache_first "futbolbase-v20260301" loc cs req net.

(** The fetch listener of the worker with the [DATA_FILES] list (cache
    ['futbolbase-v20260302c']). *)
Definition sw_fetch_data_aware (loc : location) (cs : CacheStorage)
    (req : Request) (net : fetch_result) : outcome :=
  if isDataFile req
  then network_first "futbolbase-v20260302c" cs req net
  else cache_first "futbolbase-v20260302c" loc cs req net.

End Worker.

(** ** Vocabulary of the specification *)

(** "Goals descending, then games ascending": [a] may stand before [b]. *)
Definition ranks_before (a b : Client.scorer) : Prop :=
  Client.sc_goals b < Client.sc_goals a
  ∨ (Client.sc_goals a = Client.sc_goals b
     ∧ Client.sc_games a <= Client.sc_games b).

Fixpoint all_digits (s : string) : bool :=
  match s with
  | EmptyString => true
  | String c r => is_digit c && all_digits r
  end.

(** Modelled on the specification's words, "the numeric suffix of the
    matchday label": the number written by the run of decimal digits
    the label ends with (0 when it ends with none). *)
Fixpoint digit_suffix (s : string) : string :=
  match s with
  | EmptyString => EmptyString
  | String c r => if is_digit c && all_digits r then s else digit_suffix r
  end.

Definition numeric_suffix (label : string) : Z :=
  digits_value 0 (digit_suffix label).

Definition by_numeric_suffix (a b : string) : Prop :=
  numeric_suffix a <= numeric_suffix b.

(** The labels the ORDER BY expression of generate_history provides
    for: ["Jornada "] or ["JORNADA "] followed by one to fifteen
    decimal digits. *)
Fixpoint strip_prefix (p s : string) : option string :=
  match p, s with
  | EmptyString, _ => Some s
  | String a p', String b s' => if Ascii.eqb a b then strip_prefix p' s' else None
  | String _ _, EmptyString => None
  end.

Definition is_matchday_number (ds : string) : bool :=
  Client.nonempty ds && all_digits ds && (String.length ds <=? 15)%nat.

Definition is_jornada_label (label : string) : bool :=
  match strip_prefix "Jornada " label, strip_prefix "JORNADA " label with
  | Some ds, _ => is_matchday_number ds
  | None, Some ds => is_matchday_number ds
  | None, None => false
  end.

(** The rows of a teams table that carry a given name. *)
Definition teams_named (nm : string) (ts : list Store.team) : list Store.team :=
  List.filter (λ t, String.eqb (Store.team_name t) nm) ts.

(** What identifies a team row: its id and its name. *)
Definition team_identity (t : Store.team) : Z * string :=
  (Store.team_id t, Store.team_name t).

(** What a group upsert may do to a stored group row [g], giving [g']:
    the key columns stay; a column the call leaves unset or passes as
    [None] keeps its value; a row with another id is left alone; and in
    the row with id [gid] a column the call provides holds the value
    provided. *)
Definition patched (gid : Z) (kwargs : list (Store.column * option string))
    (g g' : Store.group) : Prop :=
  Store.group_id g' = Store.group_id g
  ∧ Store.g_season_id g' = Store.g_season_id g
  ∧ Store.g_category_id g' = Store.g_category_id g
  ∧ Store.code g' = Store.code g
  ∧ (∀ k, (∀ v, (k, Some v) ∉ kwargs) → Store.get_col k g' = Store.get_col k g)
  ∧ (Store.group_id g ≠ gid → g' = g)
  ∧ (Store.group_id g = gid → NoDup kwargs.*1 →
     ∀ k v, (k, Some v) ∈ kwargs → Store.get_col k g' = Some v).

(** [teams.id] is the primary key: no two team rows share an id. *)
Definition teams_keyed (d : Store.db) : Prop :=
  NoDup (Store.team_id <$> Store.teams d).

(** How a stored standings row renders a scraped one for group [gid],
    given the teams table [ts] it is joined with. *)
Definition stores_row (gid : Z) (ts : list Store.team)
    (row : Store.standing_row) (s : Store.standing) : Prop :=
  Store.s_group_id s = gid
  ∧ (∃ t, t ∈ ts ∧ Store.team_id t = Store.s_team_id s
          ∧ Store.team_name t = Store.r_team row)
  ∧ Store.StandingRow (Store.position s) (Store.r_team row) (Store.points s)
      (Store.played s) (Store.won s) (Store.drawn s) (Store.lost s)
      (Store.gf s) (Store.gc s) (Store.gd s) = row.

(** ** Sample data *)

(** Seven scored matches of team "T" in group "A2", one per matchday,
    with "T" at home and away and the matchdays out of order in the
    file: W, L, D, W, W, L, D from matchday 1 to matchday 7. *)
Definition form_history : list (string * list Client.hmatch) :=
  [ ("Jornada 3", [Client.HMatch "15/10" "T" "C" (Some 1) (Some 1)]);
    ("Jornada 1", [Client.HMatch "01/10" "T" "A" (Some 2) (Some 0);
                   Client.HMatch "01/10" "B" "C" (Some 9) (Some 0)]);
    ("Jornada 2", [Client.HMatch "08/10" "B" "T" (Some 3) (Some 1)]);
    ("Jornada 7", [Client.HMatch "12/11" "A" "T" (Some 2) (Some 2)]);
    ("Jornada 4", [Client.HMatch "22/10" "A" "T" (Some 0) (Some 4)]);
    ("Jornada 5", [Client.HMatch "29/10" "T" "B" (Some 1) (Some 0)]);
    ("Jornada 6", [Client.HMatch "05/11" "T" "C" (Some 0) (Some 2)]);
    ("Jornada 8", [Client.HMatch "19/11" "T" "B" None None]) ].

Definition form_data : Client.data :=
  Client.Data [] [] (Some {[ "A2" := form_history ]}) [] [].

(** A small store: one season, one category, two groups, three teams,
    last week's standings of both groups, and a fixture of group 1 that
    was stored before kick-off (no scores yet). *)
Definition sample_db : Store.db :=
  Store.Db
    [Store.Season 1 "2025-2026" 2025 2026 1] 1
    [Store.Category 1 "BENJAMIN"] 1
    [Store.Group 1 1 1 "A2" (Some "Grupo 2") (Some "Fase A - Grupo 2")
       (Some "Segunda Fase A") (Some "grancanaria") None (Some "Jornada 4");
     Store.Group 2 1 1 "B1" (Some "Grupo 1") None None None None None] 2
    [Store.Team 1 "Arucas" (Some "arucas.png"); Store.Team 2 "Telde" None;
     Store.Team 3 "Firgas" None] 3
    [Store.Standing 1 1 1 1 9 3 3 0 0 8 1 7;
     Store.Standing 2 1 2 2 3 3 1 0 2 2 5 (-3);
     Store.Standing 3 2 3 1 6 2 2 0 0 4 0 4] 3
    [Store.Match 1 1 "Jornada 4" (Some "14/03") (Some "10:00") 1 2
       None None (Some "Campo Municipal")] 1.

(** This week's scrape of group 1: Telde has overtaken Arucas, and
    Moya is new to the table. *)
Definition sample_rows : list Store.standing_row :=
  [Store.StandingRow 1 "Telde" 12 4 4 0 0 9 5 4;
   Store.StandingRow 2 "Arucas" 9 4 3 0 1 8 3 5;
   Store.StandingRow 3 "Moya" 0 1 0 0 1 0 2 (-2)].



(** A worker with one cache that holds last week's copy of a data file,
    and the network serving this week's. *)
Definition site : Worker.location :=
  Worker.Location "https://example.org" "https://example.org/index.html".

Definition data_url : string := "https://example.org/data-benjamin.js?v=20260301".

Definition last_week : Worker.Response := Worker.Resp 200 "const BENJAMIN=[1];".
Definition this_week : Worker.Response := Worker.Resp 200 "const BENJAMIN=[2];".

Definition cached_last_week (cache_name : string) : Worker.CacheStorage :=
  [(cache_name, {[ data_url := last_week ]})].

(** ** Further vocabulary *)

(** [teams.name] is declared UNIQUE: no two team rows share a name. *)
Definition names_unique (d : Store.db) : Prop :=
  NoDup (Store.team_name <$> Store.teams d).

(** ** The import loops ([scripts/import_existing.py]) *)
Module Importer.
Import Store.

(** A HISTORY match as the data file has it: [[date, home, away, hs, as]]. *)
Record hist_match := HistMatch {
  hm_date : option string; hm_home : string; hm_away : string;
  hm_hs : option Z; hm_as : option Z }.

(** [for m in matches], for one matchday of one group. *)
Fixpoint import_jornada (d : db) (gid : Z) (jor_name : string)
    (ms : list hist_match) : result db :=
  match ms with
  | [] => Ok d
  | m :: rest =>
      d1 ← upsert_history_match d gid jor_name (hm_date m) (hm_home m)
             (hm_away m) (hm_hs m) (hm_as m);
      import_jornada d1 gid jor_name rest
  end.

(** [for jor_name, matches in jornadas.items()]. *)
Fixpoint import_jornadas (d : db) (gid : Z)
    (jornadas : list (string * list hist_match)) : result db :=
  match jornadas with
  | [] => Ok d
  | jm :: rest =>
      d1 ← import_jornada d gid jm.1 jm.2;
      import_jornadas d1 gid rest
  end.

(** [SELECT id FROM groups WHERE season_id=? AND code=?]: the category
    is not part of the lookup. *)
Definition select_group_by_code (d : db) (sid : Z) (c : string)
    : option group :=
  List.find (λ g, (g_season_id g =? sid) && String.eqb (code g) c) (groups d).

(** import_history: [history_data.items()] in order; a group code that
    is not found is reported and skipped. *)
Fixpoint import_history (d : db) (sid : Z)
    (history_data : list (string * list (string * list hist_match)))
    : result db :=
  match history_data with
  | [] => Ok d
  | gj :: rest =>
      match select_group_by_code d sid gj.1 with
      | None => import_history d sid rest
      | Some row =>
          d1 ← import_jornadas d (group_id row) gj.2;
          import_history d1 sid rest
      end
  end.

(** import_shields: one team upsert per entry of SHIELDS. *)
Fixpoint import_shields (d : db) (shields_data : list (string * option string))
    : db :=
  match shields_data with
  | [] => d
  | nf :: rest => import_shields (get_or_create_team d nf.1 nf.2).2 rest
  end.

End Importer.

(** A match of a group and matchday is settled in a store when both
    teams are found by name and a match row with their ids, the group
    and the matchday is stored. *)
Definition settled (d : Store.db) (gid : Z) (jor home away : string) : Prop :=
  ∃ hrow arow m,
    Store.select_team d home = Some hrow
    ∧ Store.select_team d away = Some arow
    ∧ m ∈ Store.matches d
    ∧ Store.m_group_id m = gid ∧ Store.jornada m = jor
    ∧ Store.home_team_id m = Store.team_id hrow
    ∧ Store.away_team_id m = Store.team_id arow.

(** Every match of a HISTORY file whose group is found is settled. *)
Definition history_settled (d : Store.db) (sid : Z)
    (history_data : list (string * list (string * list Importer.hist_match)))
    : Prop :=
  ∀ gj row jm m,
    gj ∈ history_data → Importer.select_group_by_code d sid gj.1 = Some row →
    jm ∈ gj.2 → m ∈ jm.2 →
    settled d (Store.group_id row) jm.1 (Importer.hm_home m)
            (Importer.hm_away m).

(** One store extends another: nothing but new teams and new matches,
    added after the rows that were there. *)
Definition extends (d d' : Store.db) : Prop :=
  Store.seasons d' = Store.seasons d
  ∧ Store.categories d' = Store.categories d
  ∧ Store.groups d' = Store.groups d
  ∧ Store.standings d' = Store.standings d
  ∧ (∃ ts, Store.teams d' = (Store.teams d ++ ts)%list)
  ∧ (∃ ms, Store.matches d' = (Store.matches d ++ ms)%list).

(** A HISTORY file for the sample store: two matchdays of group "A2",
    and a group the store does not have. *)
Definition sample_history
    : list (string * list (string * list Importer.hist_match)) :=
  [ ("A2",
     [ ("Jornada 3",
        [Importer.HistMatch (Some "07/03") "Telde" "Arucas" (Some 2) (Some 2);
         Importer.HistMatch (Some "07/03") "Moya" "Firgas" (Some 0) (Some 1)]);
       ("Jornada 4",
        [Importer.HistMatch (Some "14/03") "Arucas" "Telde" (Some 3) (Some 1)]) ]);
    ("Z9",
     [ ("Jornada 1",
        [Importer.HistMatch (Some "01/02") "Agaete" "Tejeda" (Some 1) (Some 0)]) ]) ].

(** The sample store after that file has been imported for season 1. *)
Definition imported_db : Store.db :=
  Eval vm_compute in
    match Importer.import_history sample_db 1 sample_history with
    | Store.Ok d => d
    | Store.IntegrityError => sample_db
    end.

(** The sample store after group 1 has been given [sample_rows], last
    row first. *)
Definition replaced_db : Store.db :=
  Eval vm_compute in
    match Store.replace_standings sample_db 1 (reverse sample_rows) with
    | Store.Ok d => d
    | Store.IntegrityError => sample_db
    end.

(** ** More of the generator ([scripts/generate_js.py]) *)
Module Projection.
Import Store.

(** A Python dict as the list of its items in insertion order;
    [d[k] = v] replaces the value of a key that is there, in place, and
    appends a key that is not. *)
Fixpoint dict_set {V} (k : string) (v : V) (d : list (string * V))
    : list (string * V) :=
  match d with
  | [] => [(k, v)]
  | kv :: rest =>
      if String.eqb kv.1 k then (kv.1, v) :: rest
      else kv :: dict_set k v rest
  end.

Definition dict_get {V} (k : string) (d : list (string * V)) : option V :=
  match List.find (λ kv, String.eqb kv.1 k) d with
  | Some kv => Some kv.2
  | None => None
  end.

(** Text under SQLite's default BINARY collation, as a sign; and a
    nullable text column in ascending order, where NULL comes first. *)
Definition binary_cmp (a b : string) : Z :=
  match String.compare a b with
  | Lt => -1
  | Eq => 0
  | Gt => 1
  end.

Definition nullable_cmp (a b : option string) : Z :=
  match a, b with
  | None, None => 0
  | None, Some _ => -1
  | Some _, None => 1
  | Some x, Some y => binary_cmp x y
  end.

(** *** generate_shields *)

(** [SELECT name, shield_filename FROM teams WHERE shield_filename IS
    NOT NULL ORDER BY name]. *)
Definition select_shields (d : db) : list (string * string) :=
  stable_sort (λ a b, binary_cmp a.1 b.1)
    (omap (λ t, match shield_filename t with
                | Some fn => Some (team_name t, fn)
                | None => None
                end) (teams d)).

(** [{name: fn for name, fn in rows}]. *)
Definition generate_shields (d : db) : list (string * string) :=
  foldl (λ acc kv, dict_set kv.1 kv.2 acc) [] (select_shields d).

(** *** The matches of generate_category *)

(** An emitted match: [[date, time, home, away, hs, as, venue]]. *)
Record match_out := MatchOut {
  o_date : option string; o_time : option string;
  o_home : string; o_away : string;
  o_hs : option Z; o_as : option Z; o_venue : option string }.

(** [matches m JOIN teams th ON m.home_team_id=th.id JOIN teams ta ON
    m.away_team_id=ta.id], for one match. *)
Definition join_match (ts : list team) (m : match_row) : list match_out :=
  th ← List.filter (λ t, team_id t =? home_team_id m) ts;
  ta ← List.filter (λ t, team_id t =? away_team_id m) ts;
  [MatchOut (date m) (time m) (team_name th) (team_name ta)
            (home_score m) (away_score m) (venue m)].

(** [... WHERE m.group_id=? AND m.jornada=? ORDER BY m.date, m.time]
    with the group's current_jornada as the second parameter: against
    NULL the comparison is never true. *)
Definition generate_matches (d : db) (gid : Z)
    (current_jornada : option string) : list match_out :=
  match current_jornada with
  | None => []
  | Some j =>
      stable_sort
        (λ a b, js_or (nullable_cmp (o_date a) (o_date b))
                      (nullable_cmp (o_time a) (o_time b)))
        (m ← matches d;
         if (m_group_id m =? gid) && String.eqb (jornada m) j
         then join_match (teams d) m else [])
  end.

(** *** generate_history *)

(** An emitted history match: [[date, home, away, hs, as]]. *)
Record hist_out := HistOut {
  ho_date : option string; ho_home : string; ho_away : string;
  ho_hs : option Z; ho_as : option Z }.

Definition join_hist (ts : list team) (m : match_row) : list hist_out :=
  th ← List.filter (λ t, team_id t =? home_team_id m) ts;
  ta ← List.filter (λ t, team_id t =? away_team_id m) ts;
  [HistOut (date m) (team_name th) (team_name ta)
           (home_score m) (away_score m)].

(** [... WHERE m.group_id=? AND m.jornada=? AND m.home_score IS NOT NULL
    ORDER BY m.date]. *)
Definition history_rows (d : db) (gid : Z) (jor_name : string)
    : list hist_out :=
  stable_sort (λ a b, nullable_cmp (ho_date a) (ho_date b))
    (m ← matches d;
     if (m_group_id m =? gid) && String.eqb (jornada m) jor_name
        && bool_decide (home_score m ≠ None)
     then join_hist (teams d) m else []).

(** The inner loop: [group_hist[jor_name] = ...] for the matchdays that
    have rows. *)
Definition group_history (d : db) (gid : Z)
    : list (string * list hist_out) :=
  foldl (λ acc jor_name,
           match history_rows d gid jor_name with
           | [] => acc
           | rows => dict_set jor_name rows acc
           end)
        [] (Generator.select_scored_jornadas d gid).

(** generate_history: the groups of the season in table order; a group
    without scored matchdays is passed over. *)
Definition generate_history (d : db) (sid : Z)
    : list (string * list (string * list hist_out)) :=
  foldl (λ acc g,
           match Generator.select_scored_jornadas d (group_id g) with
           | [] => acc
           | _ =>
               match group_history d (group_id g) with
               | [] => acc
               | group_hist => dict_set (code g) group_hist acc
               end
           end)
        [] (List.filter (λ g, g_season_id g =? sid) (groups d)).

(** [total_matches]: the number HIST_MATCHES is given. *)
Definition total_matches
    (history : list (string * list (string * list hist_out))) : nat :=
  sum_list ((λ grp, sum_list ((λ jm, length jm.2) <$> grp.2)) <$> history).

End Projection.

(** Every match row refers to teams that are stored (the foreign keys
    of [matches]). *)
Definition match_teams_stored (d : Store.db) : Prop :=
  ∀ m, m ∈ Store.matches d →
    Store.team_exists d (Store.home_team_id m) = true
    ∧ Store.team_exists d (Store.away_team_id m) = true.

(** A SHIELDS file for the sample store. *)
Definition sample_shields : list (string * option string) :=
  [("Telde", Some "telde.png"); ("Moya", Some "moya.png");
   ("Firgas", Some ""); ("Arucas", None)].

(** ** More of the client ([app.js]) *)
Module Views.
Import Client.

Definition set_search (v : string) (S : state) : state :=
  State (cat S) (section S) v (jorGroup S) (jorNum S) (golGroup S) (island S).

(** The [input] listener of [#searchInput]; [term] is
    [e.target.value.trim().toLowerCase()]. *)
Definition search_input (E : data) (term : string) (S : state) : state :=
  let S1 := set_search term S in
  match section S1 with
  | clasif | isla => renderSection E S1
  | _ => S1
  end.

(** *** getPhases *)

(** The property names every object inherits from [Object.prototype];
    [map[name]] is truthy for each of them on a fresh [{}]. *)
Definition object_prototype_keys : list string :=
  ["constructor"; "__proto__"; "hasOwnProperty"; "isPrototypeOf";
   "propertyIsEnumerable"; "toLocaleString"; "toString"; "valueOf";
   "__defineGetter__"; "__defineSetter__"; "__lookupGetter__";
   "__lookupSetter__"].

(** [map[k].push(g)] on an own property. *)
Fixpoint push_to (k : string) (x : group_data)
    (map : list (string * list group_data)) : list (string * list group_data) :=
  match map with
  | [] => []
  | kv :: rest =>
      if String.eqb kv.1 k then (kv.1, (kv.2 ++ [x])%list) :: rest
      else kv :: push_to k x rest
  end.

(** The [data.forEach] of getPhases over the rest of the data, [map]
    holding the own properties created so far in creation order.
    [None] is the TypeError of pushing to an inherited property. *)
Fixpoint getPhases_from (map : list (string * list group_data))
    (data : list group_data) : option (list (string * list group_data)) :=
  match data with
  | [] => Some map
  | x :: rest =>
      if bool_decide (phase x ∈ map.*1)
      then getPhases_from (push_to (phase x) x map) rest
      else if bool_decide (phase x ∈ object_prototype_keys) then None
      else getPhases_from (map ++ [(phase x, [x])])%list rest
  end.

Definition getPhases (E : data) (S : state)
    : option (list (string * list group_data)) :=
  getPhases_from [] (getData E S).

(** *** filterGroups and updateSearchCount *)

Section Search.
(** [String.prototype.toLowerCase], which follows the Unicode case
    mapping, is taken as it comes. *)
Variable toLowerCase : string → string.

(** [row[1].toLowerCase().includes(S.search)]. *)
Definition row_matches (S : state) (row : srow) : bool :=
  includes (toLowerCase (row_team row)) (search S).

Definition filterGroups (S : state) (groups : list group_data)
    : list group_data :=
  if negb (nonempty (search S)) then groups
  else List.filter (λ gd, existsb (row_matches S) (standings gd)) groups.

(** The number updateSearchCount prints; [None] when it clears the
    text instead. *)
Definition searchCount (E : data) (S : state) : option nat :=
  if negb (nonempty (search S)) then None
  else Some (length (gd ← getData E S;
                     List.filter (row_matches S) (standings gd))).
End Search.

(** *** Head-to-head of openMatchDetail *)

(** [{jornada, date, home, away, hs, as}]. *)
Record h2h_match := H2H {
  hh_jornada : string; hh_date : string; hh_home : string; hh_away : string;
  hh_hs : Z; hh_as : Z }.

Definition h2h_entries (home away jorName : string) (ms : list hmatch)
    : list h2h_match :=
  m ← ms;
  match h_hs m, h_as m with
  | Some hs, Some as_ =>
      if (String.eqb (h_home m) home && String.eqb (h_away m) away)
         || (String.eqb (h_home m) away && String.eqb (h_away m) home)
      then [H2H jorName (h_date m) (h_home m) (h_away m) hs as_]
      else []
  | _, _ => []
  end.

(** [h2hMatches]; [None] when HISTORY is undefined or has no entry for
    the group, in which case the block is not rendered at all. *)
Definition h2hMatches (E : data) (home away groupId : string)
    : option (list h2h_match) :=
  match HISTORY E ≫= (.!! groupId) with
  | None => None
  | Some hist => Some (jm ← hist; h2h_entries home away jm.1 jm.2)
  end.

(** *** The matches of openTeamDetail *)

(** JS relational operators read [null] as 0. *)
Definition js_num (v : option Z) : Z := default 0 v.

(** [{jornada, date, opp, home, away, hs, as, gf, gc, result, isHome}]. *)
Record detail_match := Detail {
  dm_jornada : string; dm_date : string; dm_opp : string;
  dm_home : string; dm_away : string; dm_hs : Z; dm_as : option Z;
  dm_gf : option Z; dm_gc : option Z; dm_result : outcome;
  dm_isHome : bool }.

Definition detail_entries (teamName jorName : string) (ms : list hmatch)
    : list detail_match :=
  m ← ms;
  match h_hs m with
  | Some hs =>
      if String.eqb (h_home m) teamName || String.eqb (h_away m) teamName
      then
        let isHome := String.eqb (h_home m) teamName in
        let gf := if isHome then Some hs else h_as m in
        let gc := if isHome then h_as m else Some hs in
        [Detail jorName (h_date m) (if isHome then h_away m else h_home m)
                (h_home m) (h_away m) hs (h_as m) gf gc
                (if js_num gc <? js_num gf then W
                 else if js_num gf <? js_num gc then L else D)
                isHome]
      else []
  | None => []
  end.

(** The array [matches] after [matches.sort((a, b) =>
    a.date.localeCompare(b.date))], for a group that is found. *)
Definition teamDetailMatches (E : data) (teamName groupId : string)
    : list detail_match :=
  stable_sort (λ a b, localeCompare (dm_date a) (dm_date b))
    (jm ← default [] (HISTORY E ≫= (.!! groupId));
     detail_entries teamName jm.1 jm.2).

(** [matches.slice(-5)], the form strip of the team profile. *)
Definition teamDetailForm (E : data) (teamName groupId : string)
    : list detail_match :=
  slice_from (-5) (teamDetailMatches E teamName groupId).

End Views.

(** The phases of a list of groups in the order they are first seen. *)
Definition first_seen (seen : list string) (phases : list string)
    : list string :=
  foldl (λ acc p, if bool_decide (p ∈ acc) then acc else (acc ++ [p])%list)
        seen phases.

(** What the map of getPhases holds once the groups [seen] have gone
    through: one key per phase seen, each with the groups of that phase
    in order. *)
Definition phases_of (seen : list Client.group_data)
    (map : list (string * list Client.group_data)) : Prop :=
  NoDup map.*1
  ∧ (∀ gd, gd ∈ seen → Client.phase gd ∈ map.*1)
  ∧ ∀ p gs, (p, gs) ∈ map →
      gs = List.filter (λ gd, String.eqb (Client.phase gd) p) seen ∧ gs ≠ [].

(** A win is the other side's loss. *)
Definition opposite (r : Client.outcome) : Client.outcome :=
  match r with
  | Client.W => Client.L
  | Client.L => Client.W
  | Client.D => Client.D
  end.

(** The same entry seen from the other side. *)
Definition mirror (e : Client.form_entry) : Client.form_entry :=
  Client.FormEntry (Client.fe_jorNum e) (Client.fe_date e)
                   (opposite (Client.fe_result e)).

(** A history match that counts for a team: both scores are there and
    the team is one of the two sides. *)
Definition counts_for (teamName : string) (m : Client.hmatch) : bool :=
  match Client.h_hs m, Client.h_as m with
  | Some _, Some _ =>
      String.eqb (Client.h_home m) teamName
      || String.eqb (Client.h_away m) teamName
  | _, _ => false
  end.

(** Every match of a group's history, in file order. *)
Definition history_matches (E : Client.data) (groupId : string)
    : list Client.hmatch :=
  jm ← default [] (Client.HISTORY E ≫= (.!! groupId)); jm.2.

(** Every history match of a group that has a home score has an away
    score too. *)
Definition scores_complete (E : Client.data) (groupId : string) : Prop :=
  ∀ hist jm m, Client.HISTORY E ≫= (.!! groupId) = Some hist →
    jm ∈ hist → m ∈ jm.2 → Client.h_hs m ≠ None → Client.h_as m ≠ None.


(** A two-legged tie: the only matches of "T" and "U" are against each
    other, one of them still to be played. *)
Definition tie_data : Client.data :=
  Client.Data [] []
    (Some {[ "F1" :=
       [ ("Vuelta", [Client.HMatch "08/06" "U" "T" (Some 1) (Some 1);
                     Client.HMatch "08/06" "V" "X" (Some 0) (Some 2)]);
         ("Ida", [Client.HMatch "01/06" "T" "U" (Some 3) (Some 0)]);
         ("Desempate", [Client.HMatch "15/06" "T" "U" None None]) ] ]})
    [] [].

(** [toLowerCase] on the letters A-Z, which is what it does to text
    without accents. *)
Definition lower_ascii (c : ascii) : ascii :=
  let n := nat_of_ascii c in
  if (65 <=? n)%nat && (n <=? 90)%nat then ascii_of_nat (n + 32) else c.

Fixpoint ascii_lower (s : string) : string :=
  match s with
  | EmptyString => EmptyString
  | String c r => String (lower_ascii c) (ascii_lower r)
  end.

(** Three groups in two phases, listed with the phases interleaved, and
    a search for "tel". *)
Definition search_data : Client.data :=
  Client.Data
    [Client.GroupData "A1" "Grupo 1" "Fase A - Grupo 1" "Fase A"
       (Some "grancanaria") None None
       [Client.SRow 1 "Telde" 9 3 3 0 0 8 1 7;
        Client.SRow 2 "Arucas" 3 3 1 0 2 2 5 (-3)] [];
     Client.GroupData "B1" "Grupo 1" "Fase B - Grupo 1" "Fase B"
       (Some "grancanaria") None None
       [Client.SRow 1 "Firgas" 6 2 2 0 0 4 0 4] [];
     Client.GroupData "A2" "Grupo 2" "Fase A - Grupo 2" "Fase A"
       (Some "lanzarote") None None
       [Client.SRow 1 "Moya" 4 2 1 1 0 3 1 2;
        Client.SRow 2 "CD TELDE B" 1 2 0 1 1 1 3 (-2)] []]
    [] None [] [].

Definition searching_tel : Client.state :=
  Client.State Client.benjamin Client.clasif "tel" "A2" ""
               "__GLOBAL__" "grancanaria".

(** ** The worker's activation *)
Module Lifecycle.
Import Worker.


End Lifecycle.



(** * Properties *)

(** ** The stable sort *)
Section StableSortFacts.
Context {A : Type} (cmp : A → A → Z).

Lemma insert_sorted_perm (x : A) (l : list A) :
  insert_sorted cmp x l ≡ₚ x :: l.
Proof.
  induction l as [|y t IH]; simpl; [done|].
  destruct (cmp x y <=? 0); [done|].
  rewrite IH. apply Permutation_swap.
Qed.

Lemma stable_sort_perm (l : list A) : stable_sort cmp l ≡ₚ l.
Proof.
  induction l as [|x t IH]; simpl; [done|].
  rewrite insert_sorted_perm. by rewrite IH.
Qed.

Lemma stable_sort_length (l : list A) :
  length (stable_sort cmp l) = length l.
Proof. by rewrite stable_sort_perm. Qed.

(** The comparator orders the elements: any two are comparable, and
    "not after" is transitive. *)
Hypothesis cmp_total : ∀ a b, 0 < cmp a b → cmp b a <= 0.
Hypothesis cmp_trans : ∀ a b c, cmp a b <= 0 → cmp b c <= 0 → cmp a c <= 0.

Lemma insert_sorted_sorted (x : A) (l : list A) :
  StronglySorted (cmp_le cmp) l →
  StronglySorted (cmp_le cmp) (insert_sorted cmp x l).
Proof.
  induction 1 as [|y t Hs IH Hall]; simpl.
  - repeat constructor.
  - destruct (Z.leb_spec (cmp x y) 0) as [Hle|Hgt].
    + constructor; [by constructor|].
      constructor; [done|].
      eapply Forall_impl; [exact Hall|].
      intros z Hz. by eapply cmp_trans.
    + constructor; [done|].
      rewrite insert_sorted_perm. constructor; [|done].
      by apply cmp_total.
Qed.

Lemma stable_sort_sorted (l : list A) :
  StronglySorted (cmp_le cmp) (stable_sort cmp l).
Proof.
  induction l as [|x t IH]; simpl; [constructor|].
  by apply insert_sorted_sorted.
Qed.

End StableSortFacts.

(** Two comparators that agree on the elements of a list sort it alike. *)
Lemma insert_sorted_ext {A} (c1 c2 : A → A → Z) (x : A) (l : list A) :
  Forall (λ y, c1 x y = c2 x y) l →
  insert_sorted c1 x l = insert_sorted c2 x l.
Proof.
  induction 1 as [|y t Hy _ IH]; simpl; [done|].
  rewrite Hy, IH. done.
Qed.

Lemma stable_sort_ext {A} (c1 c2 : A → A → Z) (l : list A) :
  (∀ x y, x ∈ l → y ∈ l → c1 x y = c2 x y) →
  stable_sort c1 l = stable_sort c2 l.
Proof.
  induction l as [|x t IH]; intros H; simpl; [done|].
  rewrite IH by (intros; apply H; by constructor).
  apply insert_sorted_ext. apply Forall_forall. intros y Hy.
  apply H; [by constructor|].
  constructor. by rewrite <- (stable_sort_perm c2 t).
Qed.

Lemma strongly_sorted_weaken {A} (R1 R2 : A → A → Prop) (l : list A) :
  (∀ a b, R1 a b → R2 a b) → StronglySorted R1 l → StronglySorted R2 l.
Proof.
  intros HR. induction 1 as [|a t Hs IH Hall]; constructor; [done|].
  eapply Forall_impl; [exact Hall|]. intros; by apply HR.
Qed.

(** A sorted list cut in two: everything kept is not after anything cut. *)
Lemma sorted_take_drop {A} (R : A → A → Prop) (n : nat) (l : list A) :
  StronglySorted R l →
  ∀ x y, x ∈ take n l → y ∈ drop n l → R x y.
Proof.
  intros Hs. revert n. induction Hs as [|a t Hs IH Hall]; intros n x y.
  - rewrite take_nil. inversion 1.
  - destruct n as [|n]; simpl; [inversion 1|].
    intros Hx Hy. apply elem_of_cons in Hx as [->|Hx].
    + rewrite Forall_forall in Hall. apply Hall.
      revert Hy. apply (subseteq_drop n t).
    + by apply (IH n).
Qed.

Lemma sorted_take {A} (R : A → A → Prop) (n : nat) (l : list A) :
  StronglySorted R l → StronglySorted R (take n l).
Proof.
  intros Hs. revert n. induction Hs as [|a t Hs IH Hall]; intros [|n]; simpl;
    try constructor.
  - apply IH.
  - rewrite Forall_forall in *. intros z Hz. apply Hall.
    revert Hz. apply (subseteq_take n t).
Qed.

(** ** Global scorer ranking *)
Section Scorers.
Import Client.

Lemma scorer_cmp_le (a b : scorer) : cmp_le scorer_cmp a b ↔ ranks_before a b.
Proof.
  unfold cmp_le, scorer_cmp, js_or, ranks_before.
  destruct (Z.eqb_spec (sc_goals b - sc_goals a) 0); lia.
Qed.

Lemma scorer_cmp_total (a b : scorer) :
  0 < scorer_cmp a b → scorer_cmp b a <= 0.
Proof.
  unfold scorer_cmp, js_or.
  destruct (Z.eqb_spec (sc_goals b - sc_goals a) 0),
           (Z.eqb_spec (sc_goals a - sc_goals b) 0); lia.
Qed.

Lemma scorer_cmp_trans (a b c : scorer) :
  scorer_cmp a b <= 0 → scorer_cmp b c <= 0 → scorer_cmp a c <= 0.
Proof.
  unfold scorer_cmp, js_or.
  destruct (Z.eqb_spec (sc_goals b - sc_goals a) 0),
           (Z.eqb_spec (sc_goals c - sc_goals b) 0),
           (Z.eqb_spec (sc_goals c - sc_goals a) 0); lia.
Qed.

Lemma ranked_scorers_sorted (l : list scorer) :
  StronglySorted ranks_before (stable_sort scorer_cmp l).
Proof.
  eapply strongly_sorted_weaken;
    [|apply (stable_sort_sorted scorer_cmp scorer_cmp_total scorer_cmp_trans)].
  intros a b. apply scorer_cmp_le.
Qed.

Lemma elem_of_merge_scorers (golData : list scorer_group) (r : scorer) :
  r ∈ merge_scorers golData ↔
  ∃ gd row, gd ∈ golData ∧ row ∈ s gd ∧
    r = Scorer (p_player row) (p_team row) (p_goals row) (p_games row) (g gd).
Proof.
  unfold merge_scorers. rewrite list_elem_of_bind. split.
  - intros (gd & Hr & Hgd). apply list_elem_of_fmap in Hr as (row & -> & Hrow).
    by exists gd, row.
  - intros (gd & row & Hgd & Hrow & ->). exists gd. split; [|done].
    apply list_elem_of_fmap. by exists row.
Qed.

(** C6. The global scorer ranking holds exactly the rows of every
    per-group list, each tagged with its group; it is ordered by goals
    descending and then games ascending; it keeps the first 30 rows of
    that order, so no row that was cut ranks before a row that was
    kept; and (P1,5,3), (P2,5,2), (P3,7,4) come out as P3, P2, P1. *)
Theorem global_scorers_ranking (golData : list scorer_group) :
  let merged := merge_scorers golData in
  let ranked := stable_sort scorer_cmp merged in
  (∀ r, r ∈ merged ↔
     ∃ gd row, gd ∈ golData ∧ row ∈ s gd ∧
       r = Scorer (p_player row) (p_team row) (p_goals row) (p_games row)
                  (g gd))
  ∧ ranked ≡ₚ merged
  ∧ StronglySorted ranks_before ranked
  ∧ global_scorers golData = take 30 ranked
  ∧ StronglySorted ranks_before (global_scorers golData)
  ∧ length (global_scorers golData) = Nat.min 30 (length merged)
  ∧ (∀ x y, x ∈ global_scorers golData → y ∈ drop 30 ranked →
       ranks_before x y)
  ∧ sc_name <$> global_scorers
      [ScorerGroup "A" [ScorerRow "P1" "T1" 5 3; ScorerRow "P2" "T2" 5 2];
       ScorerGroup "B" [ScorerRow "P3" "T3" 7 4]]
    = ["P3"; "P2"; "P1"].
Proof.
  intros merged ranked. repeat split.
  - apply elem_of_merge_scorers.
  - apply elem_of_merge_scorers.
  - apply stable_sort_perm.
  - apply ranked_scorers_sorted.
  - apply sorted_take, ranked_scorers_sorted.
  - unfold global_scorers. rewrite length_take, stable_sort_length. done.
  - apply sorted_take_drop, ranked_scorers_sorted.
Qed.

(** Rows of three groups, the tag of each row being its own group. *)
Example global_scorers_tags :
  global_scorers
    [ScorerGroup "A" [ScorerRow "P1" "T1" 5 3];
     ScorerGroup "B" [ScorerRow "P2" "T2" 5 2];
     ScorerGroup "C" [ScorerRow "P3" "T3" 7 4]]
  = [Scorer "P3" "T3" 7 4 "C"; Scorer "P2" "T2" 5 2 "B";
     Scorer "P1" "T1" 5 3 "A"].
Proof. reflexivity. Qed.

End Scorers.

(** ** Form sequence *)
Section Form.
Import Client.

(** getTeamForm keeps the last [n] entries of the sorted history. *)
Lemma getTeamForm_last (E : data) (T gid : string) (n : Z) :
  0 < n →
  getTeamForm E T gid (Some n) =
    drop (length (team_history E T gid) - Z.to_nat n) (team_history E T gid).
Proof.
  intros Hn. unfold getTeamForm, slice_from.
  destruct (Z.eqb_spec n 0) as [|_]; [lia|].
  destruct (Z.ltb_spec (- n) 0); [|lia].
  f_equal. lia.
Qed.

Lemma getTeamForm_default (E : data) (T gid : string) :
  getTeamForm E T gid None = getTeamForm E T gid (Some 5).
Proof. reflexivity. Qed.

(** C5, as the code has it. For any team whose sorted scored history
    reads W, L, D, W, W, L, D, the form with window 5 (asked for, or by
    default) is the last five of them, oldest first: D, W, W, L, D. *)
Theorem form_last_five (E : data) (T gid : string) :
  fe_result <$> team_history E T gid = [W; L; D; W; W; L; D] →
  fe_result <$> getTeamForm E T gid (Some 5) = [D; W; W; L; D]
  ∧ fe_result <$> getTeamForm E T gid None = [D; W; W; L; D].
Proof.
  intros H. rewrite getTeamForm_default, getTeamForm_last by lia.
  assert (length (team_history E T gid) = 7%nat) as ->
    by (rewrite <- (length_fmap fe_result), H; done).
  rewrite fmap_drop, H. done.
Qed.

Lemma form_last_five_witness :
  fe_result <$> team_history form_data "T" "A2" = [W; L; D; W; W; L; D]
  ∧ fe_result <$> getTeamForm form_data "T" "A2" (Some 5) = [D; W; W; L; D]
  ∧ fe_result <$> getTeamForm form_data "T" "A2" None = [D; W; W; L; D].
Proof.
  split; [vm_compute; reflexivity|].
  apply (form_last_five form_data "T" "A2"). vm_compute. reflexivity.
Defined.

(** On the sample history the window opens with the draw of matchday 3,
    not with a loss. *)
Lemma form_window_starts_with_draw :
  fe_result <$> team_history form_data "T" "A2" = [W; L; D; W; W; L; D]
  ∧ fe_result <$> getTeamForm form_data "T" "A2" (Some 5) ≠ [L; W; W; L; D].
Proof. split; [vm_compute; reflexivity|]. vm_compute. discriminate. Qed.

End Form.

(** ** Matchday ordering *)
Section Matchdays.
Import Client.

Lemma digit_not_J (c : ascii) (r pat : string) :
  is_digit c = true → String.prefix (String "J" pat) (String c r) = false.
Proof.
  intros Hc.
  destruct c as [[] [] [] [] [] [] [] []]; try discriminate Hc; reflexivity.
Qed.

Lemma strip_non_digits_digits (ds : string) :
  all_digits ds = true → strip_non_digits ds = ds.
Proof.
  induction ds as [|c r IH]; simpl; [done|].
  intros [Hc Hr]%andb_true_iff. rewrite Hc, IH; done.
Qed.

Lemma leading_digits_digits (ds : string) :
  all_digits ds = true → leading_digits ds = ds.
Proof.
  induction ds as [|c r IH]; simpl; [done|].
  intros [Hc Hr]%andb_true_iff. rewrite Hc, IH; done.
Qed.

Lemma digit_suffix_digits (ds : string) :
  all_digits ds = true → digit_suffix ds = ds.
Proof.
  destruct ds as [|c r]; simpl; [done|]. by intros ->.
Qed.

Lemma sql_remove_go_digits (pat ds : string) :
  all_digits ds = true → sql_remove_go (String "J" pat) ds 0 = ds.
Proof.
  induction ds as [|c r IH]; [done|].
  intros [Hc Hr]%andb_true_iff.
  change (sql_remove_go (String "J" pat) (String c r) 0)
    with (if String.prefix (String "J" pat) (String c r)
          then sql_remove_go (String "J" pat) r
                 (String.length (String "J" pat) - 1)
          else String c (sql_remove_go (String "J" pat) r 0)).
  rewrite digit_not_J, IH; done.
Qed.

Lemma digits_value_bounds (ds : string) (acc : Z) :
  all_digits ds = true → 0 <= acc →
  0 <= digits_value acc ds < (acc + 1) * 10 ^ Z.of_nat (String.length ds).
Proof.
  revert acc. induction ds as [|c r IH]; intros acc; simpl String.length.
  - simpl. lia.
  - intros [Hc Hr]%andb_true_iff Hacc. simpl digits_value.
    assert (0 <= digit_val c <= 9) as Hd.
    { unfold is_digit in Hc. unfold digit_val.
      apply andb_true_iff in Hc as [H1%Nat.leb_le H2%Nat.leb_le]. lia. }
    specialize (IH (10 * acc + digit_val c) Hr ltac:(lia)).
    rewrite Nat2Z.inj_succ, Z.pow_succ_r by lia. nia.
Qed.

Lemma cast_integer_digits (c : ascii) (r : string) :
  all_digits (String c r) = true → (String.length (String c r) ≤ 15)%nat →
  cast_integer (String c r) = digits_value 0 (String c r).
Proof.
  intros Hd Hlen.
  pose proof (digits_value_bounds _ 0 Hd ltac:(lia)) as Hb.
  assert (10 ^ Z.of_nat (String.length (String c r)) <= 10 ^ 15) as Hp
    by (apply Z.pow_le_mono_r; lia).
  assert (clamp_int64 (digits_value 0 (String c r)) = digits_value 0 (String c r))
    as Hclamp by (unfold clamp_int64; lia).
  rewrite <- Hclamp. clear Hb Hp Hclamp Hlen.
  rewrite <- (leading_digits_digits _ Hd) at 2.
  simpl in Hd. apply andb_true_iff in Hd as [Hc _].
  unfold cast_integer.
  assert (skip_spaces (String c r) = String c r) as ->.
  { simpl. destruct c as [[] [] [] [] [] [] [] []]; try discriminate Hc;
      reflexivity. }
  destruct c as [[] [] [] [] [] [] [] []]; try discriminate Hc; reflexivity.
Qed.

Lemma strip_prefix_Some (p s ds : string) :
  strip_prefix p s = Some ds → s = String.append p ds.
Proof.
  revert s. induction p as [|a p IH]; intros [|b s]; simpl;
    try discriminate; try (intros [= <-]; reflexivity).
  destruct (Ascii.eqb_spec a b) as [->|]; [|done].
  intros H. rewrite (IH _ H). reflexivity.
Qed.

(** The two prefixes hold no digit, and each REPLACE removes its own. *)
Lemma prefix_facts (ds : string) :
  strip_non_digits ("Jornada " +:+ ds) = strip_non_digits ds
  ∧ strip_non_digits ("JORNADA " +:+ ds) = strip_non_digits ds
  ∧ digit_suffix ("Jornada " +:+ ds) = digit_suffix ds
  ∧ digit_suffix ("JORNADA " +:+ ds) = digit_suffix ds
  ∧ sql_remove "Jornada " ("Jornada " +:+ ds) = sql_remove "Jornada " ds
  ∧ sql_remove "Jornada " ("JORNADA " +:+ ds)
    = "JORNADA " +:+ sql_remove "Jornada " ds
  ∧ sql_remove "JORNADA " ("JORNADA " +:+ ds) = sql_remove "JORNADA " ds.
Proof. repeat split; destruct ds; reflexivity. Qed.

Lemma sql_remove_digits (pat ds : string) :
  all_digits ds = true → sql_remove (String "J" pat) ds = ds.
Proof. apply sql_remove_go_digits. Qed.

(** On such a label both sort keys are the numeric suffix. *)
Lemma jornada_label_keys (label : string) :
  is_jornada_label label = true →
  parseInt_digits (strip_non_digits label) = Some (numeric_suffix label)
  ∧ Generator.jornada_order_key label = numeric_suffix label.
Proof.
  unfold is_jornada_label.
  assert (∀ ds, is_matchday_number ds = true →
            parseInt_digits (strip_non_digits ds)
              = Some (digits_value 0 (digit_suffix ds))
            ∧ cast_integer ds = digits_value 0 (digit_suffix ds)
            ∧ all_digits ds = true) as Hnum.
  { intros ds [[Hne Hd]%andb_true_iff Hl%Nat.leb_le]%andb_true_iff.
    destruct ds as [|c r]; [done|].
    rewrite strip_non_digits_digits, digit_suffix_digits by done.
    by rewrite cast_integer_digits. }
  pose proof (prefix_facts) as Hp.
  unfold numeric_suffix, Generator.jornada_order_key.
  destruct (strip_prefix "Jornada " label) as [ds|] eqn:H1.
  - intros (Hparse & Hcast & Hd)%Hnum.
    apply strip_prefix_Some in H1 as ->.
    destruct (Hp ds) as (-> & _ & -> & _ & -> & _).
    by rewrite (sql_remove_digits _ ds Hd), (sql_remove_digits _ ds Hd).
  - destruct (strip_prefix "JORNADA " label) as [ds|] eqn:H2; [|done].
    intros (Hparse & Hcast & Hd)%Hnum.
    apply strip_prefix_Some in H2 as ->.
    destruct (Hp ds) as (_ & -> & _ & -> & _ & -> & Hrm).
    by rewrite (sql_remove_digits _ ds Hd), Hrm, (sql_remove_digits _ ds Hd).
Qed.

Lemma suffix_order_sorted (labels : list string) :
  StronglySorted by_numeric_suffix
    (stable_sort (λ a b, numeric_suffix a - numeric_suffix b) labels).
Proof.
  eapply strongly_sorted_weaken;
    [|apply (stable_sort_sorted
               (λ a b, numeric_suffix a - numeric_suffix b)); lia].
  unfold cmp_le, by_numeric_suffix. lia.
Qed.

Lemma sort_jornadas_labels (labels : list string) :
  forallb is_jornada_label labels = true →
  sort_jornadas labels
  = stable_sort (λ a b, numeric_suffix a - numeric_suffix b) labels.
Proof.
  intros Hall. apply stable_sort_ext. intros x y Hx Hy.
  rewrite forallb_forall in Hall.
  destruct (jornada_label_keys x) as [Kx _];
    [by apply Hall, list_elem_of_In|].
  destruct (jornada_label_keys y) as [Ky _];
    [by apply Hall, list_elem_of_In|].
  unfold jornada_cmp. by rewrite Kx, Ky.
Qed.

Lemma order_by_jornada_key_labels (labels : list string) :
  forallb is_jornada_label labels = true →
  Generator.order_by_jornada_key labels
  = stable_sort (λ a b, numeric_suffix a - numeric_suffix b) labels.
Proof.
  intros Hall. apply stable_sort_ext. intros x y Hx Hy.
  rewrite forallb_forall in Hall.
  destruct (jornada_label_keys x) as [_ Kx];
    [by apply Hall, list_elem_of_In|].
  destruct (jornada_label_keys y) as [_ Ky];
    [by apply Hall, list_elem_of_In|].
  by rewrite Kx, Ky.
Qed.

(** C7, as the code has it. For every list of labels of the form
    "Jornada N" or "JORNADA N" (N of one to fifteen digits) the client's
    matchday list and the generator's ORDER BY both return the same
    labels ordered by numeric suffix ascending, and the two orders
    coincide. *)
Theorem matchday_labels_sorted (labels : list string) :
  forallb is_jornada_label labels = true →
  sort_jornadas labels ≡ₚ labels
  ∧ StronglySorted by_numeric_suffix (sort_jornadas labels)
  ∧ Generator.order_by_jornada_key labels ≡ₚ labels
  ∧ StronglySorted by_numeric_suffix (Generator.order_by_jornada_key labels)
  ∧ Generator.order_by_jornada_key labels = sort_jornadas labels.
Proof.
  intros Hall. repeat split.
  - apply stable_sort_perm.
  - rewrite sort_jornadas_labels by done. apply suffix_order_sorted.
  - apply stable_sort_perm.
  - rewrite order_by_jornada_key_labels by done. apply suffix_order_sorted.
  - by rewrite order_by_jornada_key_labels, sort_jornadas_labels.
Qed.

Lemma matchday_labels_sorted_witness :
  sort_jornadas ["Jornada 10"; "Jornada 2"; "Jornada 1"]
    = ["Jornada 1"; "Jornada 2"; "Jornada 10"]
  ∧ Generator.order_by_jornada_key ["Jornada 10"; "Jornada 2"; "Jornada 1"]
    = ["Jornada 1"; "Jornada 2"; "Jornada 10"]
  ∧ StronglySorted by_numeric_suffix
      (sort_jornadas ["Jornada 10"; "Jornada 2"; "Jornada 1"])
  ∧ StronglySorted by_numeric_suffix
      (Generator.order_by_jornada_key ["Jornada 10"; "Jornada 2"; "Jornada 1"]).
Proof.
  split; [vm_compute; reflexivity|]. split; [vm_compute; reflexivity|].
  pose proof (matchday_labels_sorted
                ["Jornada 10"; "Jornada 2"; "Jornada 1"]) as H.
  destruct H as (_ & H1 & _ & H2 & _); [vm_compute; reflexivity|].
  split; [exact H1 | exact H2].
Defined.

(** Labels with a numeric suffix but another shape: the generator's key
    is 0 for both "J10" and "J2", and the client's key reads every digit
    of the label, so neither order follows the suffix. *)
Lemma matchday_order_other_labels :
  Generator.order_by_jornada_key ["J10"; "J2"] = ["J10"; "J2"]
  ∧ ¬ StronglySorted by_numeric_suffix
        (Generator.order_by_jornada_key ["J10"; "J2"])
  ∧ sort_jornadas ["Fase 1 Jornada 3"; "Fase 2 Jornada 1"]
    = ["Fase 1 Jornada 3"; "Fase 2 Jornada 1"]
  ∧ ¬ StronglySorted by_numeric_suffix
        (sort_jornadas ["Fase 1 Jornada 3"; "Fase 2 Jornada 1"]).
Proof.
  split; [vm_compute; reflexivity|].
  split.
  { intros H. apply StronglySorted_inv in H as [_ H].
    apply Forall_cons in H as [H _]. vm_compute in H. by apply H. }
  split; [vm_compute; reflexivity|].
  intros H. apply StronglySorted_inv in H as [_ H].
  apply Forall_cons in H as [H _]. vm_compute in H. by apply H.
Qed.

End Matchdays.

(** ** The reconciliation store *)
Section StoreFacts.
Import Store.

Lemma max_rowid_ge (ids : list Z) (x : Z) : x ∈ ids → x <= max_rowid ids.
Proof.
  induction 1 as [x l|x y l _ IH]; csimpl; lia.
Qed.

Lemma next_rowid_fresh (sq : Z) (ids : list Z) : next_rowid sq ids ∉ ids.
Proof.
  intros H%max_rowid_ge. unfold next_rowid in H. lia.
Qed.

Lemma find_app_fresh {A} (p : A → bool) (l : list A) (x : A) :
  List.find p l = None → p x = true → List.find p (l ++ [x]) = Some x.
Proof.
  induction l as [|y t IH]; csimpl; intros Hnone Hx.
  - by rewrite Hx.
  - destruct (p y); [done|]. by apply IH.
Qed.

Lemma find_fmap_preserving {A} (p : A → bool) (f : A → A) (l : list A) :
  (∀ x, p (f x) = p x) →
  List.find p (f <$> l) = f <$> List.find p l.
Proof.
  intros Hp. induction l as [|y t IH]; csimpl; [done|].
  rewrite Hp. by destruct (p y).
Qed.

Lemma filter_fmap_preserving {A} (p : A → bool) (f : A → A) (l : list A) :
  (∀ x, p (f x) = p x) →
  length (List.filter p (f <$> l)) = length (List.filter p l).
Proof.
  intros Hp. induction l as [|y t IH]; csimpl; [done|].
  rewrite Hp. destruct (p y); csimpl; [f_equal|]; exact IH.
Qed.

Lemma find_None_filter {A} (p : A → bool) (l : list A) :
  List.find p l = None → List.filter p l = [].
Proof.
  induction l as [|y t IH]; csimpl; [done|]. by destruct (p y).
Qed.

Lemma find_Some_filter {A} (p : A → bool) (l : list A) (x : A) :
  List.find p l = Some x → (1 ≤ length (List.filter p l))%nat.
Proof.
  induction l as [|y t IH]; csimpl; [done|].
  destruct (p y); csimpl; [lia|]. apply IH.
Qed.

Lemma update_shield_identity (i : Z) (sh : option string) (t : team) :
  team_identity (update_shield i sh t) = team_identity t.
Proof. unfold update_shield. by destruct (team_id t =? i). Qed.

Lemma update_shield_name (i : Z) (sh : option string) (nm : string) (t : team) :
  String.eqb (team_name (update_shield i sh t)) nm = String.eqb (team_name t) nm.
Proof. unfold update_shield. by destruct (team_id t =? i). Qed.

Lemma update_shield_twice (i : Z) (sh : option string) (t : team) :
  update_shield i sh (update_shield i sh t) = update_shield i sh t.
Proof.
  unfold update_shield. destruct (team_id t =? i) eqn:E; csimpl; by rewrite E.
Qed.

Lemma update_shield_other (i : Z) (sh : option string) (ts : list team) :
  i ∉ team_id <$> ts → update_shield i sh <$> ts = ts.
Proof.
  induction ts as [|t r IH]; csimpl; [done|].
  intros [Ht Hr]%not_elem_of_cons. rewrite IH by done.
  unfold update_shield. destruct (Z.eqb_spec (team_id t) i); [congruence|done].
Qed.

Lemma set_teams_same (d : db) : set_teams d (teams d) (seq_teams d) = d.
Proof. by destruct d. Qed.

(** A lookup that finds the team changes nothing unless a shield is given. *)
Lemma get_or_create_team_found (d : db) (nm : string) (row : team) :
  select_team d nm = Some row →
  get_or_create_team d nm None = (team_id row, d).
Proof. unfold get_or_create_team. by intros ->. Qed.

(** After any call the name is in the table, under the id returned. *)
Lemma get_or_create_team_settles (d : db) (nm : string) (sh : option string) :
  let r := get_or_create_team d nm sh in
  ∃ row, select_team r.2 nm = Some row ∧ team_id row = r.1
    ∧ length (teams_named nm (teams r.2))
      = Nat.max 1 (length (teams_named nm (teams d)))
    ∧ (truthy sh = true → update_shield r.1 sh <$> teams r.2 = teams r.2).
Proof.
  unfold get_or_create_team.
  destruct (select_team d nm) as [row|] eqn:Hsel.
  - pose proof (find_Some_filter _ _ _ Hsel) as Hone. fold (teams_named nm (teams d)) in Hone.
    destruct (truthy sh) eqn:Hsh; csimpl.
    + exists (update_shield (team_id row) sh row). split; [|split; [|split]].
      * unfold select_team. csimpl.
        rewrite find_fmap_preserving by (intros; apply update_shield_name).
        unfold select_team in Hsel. by rewrite Hsel.
      * pose proof (update_shield_identity (team_id row) sh row) as [= H _].
        done.
      * unfold teams_named.
        rewrite filter_fmap_preserving by (intros; apply update_shield_name).
        unfold teams_named in Hone. lia.
      * intros _. rewrite <- list_fmap_compose. apply list_fmap_ext.
        intros _ t _. apply update_shield_twice.
    + exists row. repeat split; [done|lia|done].
  - set (i := next_rowid (seq_teams d) (team_id <$> teams d)). csimpl.
    exists (Team i nm sh). split; [|split; [|split]].
    + unfold select_team. csimpl. apply find_app_fresh; [done|].
      csimpl. apply String.eqb_refl.
    + done.
    + unfold teams_named. rewrite List.filter_app.
      rewrite (find_None_filter _ _ Hsel). csimpl.
      by rewrite String.eqb_refl.
    + intros _. rewrite fmap_app.
      rewrite update_shield_other by apply next_rowid_fresh.
      csimpl. unfold update_shield. csimpl. by rewrite Z.eqb_refl.
Qed.

(** C4. Calling the team upsert twice with the same name: the second
    call returns the identifier of the first and inserts nothing (the
    ids and names of the rows are those left by the first call, whatever
    shield either call carries); when the second call carries the same
    shield as the first, or none, the whole database is the one the
    first call left; and the table ends with exactly one row for the
    name if it had none, and with the rows it had otherwise. *)
Theorem get_or_create_team_idempotent (d : db) (nm : string)
    (sh1 sh2 : option string) :
  let r1 := get_or_create_team d nm sh1 in
  let r2 := get_or_create_team r1.2 nm sh2 in
  r2.1 = r1.1
  ∧ team_identity <$> teams r2.2 = team_identity <$> teams r1.2
  ∧ (sh2 = sh1 ∨ truthy sh2 = false → r2.2 = r1.2)
  ∧ length (teams_named nm (teams r2.2))
    = Nat.max 1 (length (teams_named nm (teams d))).
Proof.
  intros r1 r2.
  destruct (get_or_create_team_settles d nm sh1)
    as (row & Hsel & Hid & Hcount & Hupd).
  fold r1 in Hsel, Hid, Hcount, Hupd.
  assert (r2 = (r1.1, if truthy sh2
                      then set_teams r1.2 (update_shield r1.1 sh2 <$> teams r1.2)
                                     (seq_teams r1.2)
                      else r1.2)) as ->.
  { unfold r2, get_or_create_team. by rewrite Hsel, Hid. }
  csimpl. split; [done|]. split; [|split].
  - destruct (truthy sh2); [|done]. csimpl.
    rewrite <- list_fmap_compose. apply list_fmap_ext.
    intros _ t _. apply update_shield_identity.
  - intros [->|Hf]; [|by rewrite Hf].
    destruct (truthy sh1); [|done].
    rewrite Hupd by done. apply set_teams_same.
  - rewrite <- Hcount. destruct (truthy sh2); [|done]. csimpl.
    apply filter_fmap_preserving. intros; apply update_shield_name.
Qed.

Example get_or_create_team_twice :
  let r1 := get_or_create_team sample_db "Moya" None in
  let r2 := get_or_create_team r1.2 "Moya" None in
  r1.1 = 4 ∧ r2 = r1
  ∧ teams r1.2 = (teams sample_db ++ [Team 4 "Moya" None])%list.
Proof. vm_compute. done. Qed.

(** *** Match upsert *)

Lemma same_match_key_found (d : db) (m : match_row) :
  m ∈ matches d →
  existsb (same_match_key (m_group_id m) (jornada m) (home_team_id m)
                          (away_team_id m)) (matches d) = true.
Proof.
  intros Hm. apply existsb_exists. exists m. split; [by apply list_elem_of_In|].
  unfold same_match_key.
  by rewrite !Z.eqb_refl, String.eqb_refl.
Qed.

(** C1. When the matches table already holds a row with the natural key
    (group, matchday, home, away), whatever its scores, date, time and
    venue, the match upsert of import_category and the one of
    import_history both complete and are no-ops on the store: every
    table holds after the call exactly the rows it held before, so no
    row is added and the stored match row is not touched.  (The only
    trace of the call is that the rowid the skipped row had drawn is
    not handed out again.) *)
Theorem match_upsert_existing_is_noop (d : db) (m : match_row)
    (home away : string) (hrow arow : team)
    (dt tm vn : option string) (hs as_ : option Z) :
  m ∈ matches d →
  select_team d home = Some hrow → home_team_id m = team_id hrow →
  select_team d away = Some arow → away_team_id m = team_id arow →
  ∃ d',
    upsert_match d (m_group_id m) (Some (jornada m)) dt tm home away hs as_ vn
      = Ok d'
    ∧ upsert_history_match d (m_group_id m) (jornada m) dt home away hs as_
      = Ok d'
    ∧ tables d' = tables d
    ∧ d' = set_matches d (matches d) (seq_matches d').
Proof.
  intros Hm Hh Hhid Ha Haid.
  unfold upsert_match, upsert_history_match.
  rewrite (get_or_create_team_found _ _ _ Hh).
  rewrite (get_or_create_team_found _ _ _ Ha).
  unfold insert_or_ignore_match. rewrite <- Hhid, <- Haid.
  rewrite same_match_key_found by done.
  eexists. repeat split.
Qed.

Lemma match_upsert_existing_is_noop_witness :
  home_score <$> matches sample_db = [None]
  ∧ ∃ d',
      upsert_match sample_db 1 (Some "Jornada 4") (Some "15/03")
        (Some "12:00") "Arucas" "Telde" (Some 3) (Some 1) None = Ok d'
      ∧ upsert_history_match sample_db 1 "Jornada 4" (Some "15/03")
          "Arucas" "Telde" (Some 3) (Some 1) = Ok d'
      ∧ tables d' = tables sample_db
      ∧ matches d' = matches sample_db.
Proof.
  split; [reflexivity|].
  destruct (match_upsert_existing_is_noop sample_db
              (Match 1 1 "Jornada 4" (Some "14/03") (Some "10:00") 1 2
                     None None (Some "Campo Municipal"))
              "Arucas" "Telde"
              (Team 1 "Arucas" (Some "arucas.png")) (Team 2 "Telde" None)
              (Some "15/03") (Some "12:00") None (Some 3) (Some 1))
    as (d' & H1 & H2 & H3 & H4); try reflexivity.
  { vm_compute. left. }
  exists d'. split; [exact H1|]. split; [exact H2|]. split; [exact H3|].
  by injection H3.
Defined.

(** *** Group upsert *)

Lemma get_set_col_same (k : column) (v : option string) (g0 : group) :
  get_col k (set_col k v g0) = v.
Proof. by destruct k. Qed.

Lemma get_set_col_other (k k' : column) (v : option string) (g0 : group) :
  k ≠ k' → get_col k (set_col k' v g0) = get_col k g0.
Proof. by destruct k, k'. Qed.

Lemma set_col_key (k : column) (v : option string) (g0 : group) :
  group_id (set_col k v g0) = group_id g0
  ∧ g_season_id (set_col k v g0) = g_season_id g0
  ∧ g_category_id (set_col k v g0) = g_category_id g0
  ∧ code (set_col k v g0) = code g0.
Proof. by destruct k. Qed.

Lemma elem_of_updates (kwargs : list (column * option string))
    (k : column) (v : string) :
  (k, v) ∈ updates kwargs ↔ (k, Some v) ∈ kwargs.
Proof.
  induction kwargs as [|[k' [v'|]] rest IH]; csimpl.
  - by rewrite !elem_of_nil.
  - rewrite !elem_of_cons, IH. split.
    + intros [[= -> ->]|H]; [by left|by right].
    + intros [[= -> ->]|H]; [by left|by right].
  - rewrite elem_of_cons, IH. split.
    + intros H; by right.
    + intros [[=]|H]; done.
Qed.

Lemma updates_keys_NoDup (kwargs : list (column * option string)) :
  NoDup kwargs.*1 → NoDup (updates kwargs).*1.
Proof.
  induction kwargs as [|[k' [v'|]] rest IH]; csimpl; [done| |].
  - intros [Hk Hrest]%NoDup_cons. apply NoDup_cons. split; [|by apply IH].
    intros ([k v] & -> & Hin%elem_of_updates)%list_elem_of_fmap.
    apply Hk. apply list_elem_of_fmap. by exists (k, Some v).
  - intros [_ Hrest]%NoDup_cons. by apply IH.
Qed.

Lemma apply_updates_key (ups : list (column * string)) (g0 : group) :
  let g1 := foldl (λ acc kv, set_col kv.1 (Some kv.2) acc) g0 ups in
  group_id g1 = group_id g0 ∧ g_season_id g1 = g_season_id g0
  ∧ g_category_id g1 = g_category_id g0 ∧ code g1 = code g0.
Proof.
  revert g0. induction ups as [|[k v] rest IH]; intros g0; csimpl; [done|].
  destruct (IH (set_col k (Some v) g0)) as (-> & -> & -> & ->).
  apply set_col_key.
Qed.

Lemma apply_updates_absent (ups : list (column * string)) (g0 : group)
    (k : column) :
  k ∉ ups.*1 →
  get_col k (foldl (λ acc kv, set_col kv.1 (Some kv.2) acc) g0 ups)
  = get_col k g0.
Proof.
  revert g0. induction ups as [|[k' v'] rest IH]; intros g0; csimpl; [done|].
  intros [Hne Hrest]%not_elem_of_cons.
  rewrite IH by done. by apply get_set_col_other.
Qed.

Lemma apply_updates_present (ups : list (column * string)) (g0 : group)
    (k : column) (v : string) :
  NoDup ups.*1 → (k, v) ∈ ups →
  get_col k (foldl (λ acc kv, set_col kv.1 (Some kv.2) acc) g0 ups) = Some v.
Proof.
  revert g0. induction ups as [|[k' v'] rest IH]; intros g0; csimpl.
  - intros _ H. by apply elem_of_nil in H.
  - intros [Hk Hnd]%NoDup_cons [[= -> ->]|Hin]%elem_of_cons.
    + rewrite apply_updates_absent by done. apply get_set_col_same.
    + by apply IH.
Qed.

Lemma update_group_patched (gid : Z) (kwargs : list (column * option string))
    (g0 : group) :
  patched gid kwargs g0 (update_group gid (updates kwargs) g0).
Proof.
  unfold patched, update_group.
  destruct (Z.eqb_spec (group_id g0) gid) as [Heq|Hne].
  - destruct (apply_updates_key (updates kwargs) g0) as (-> & -> & -> & ->).
    repeat split; try done.
    + intros k Hk. apply apply_updates_absent.
      intros ([k' v] & -> & Hin%elem_of_updates)%list_elem_of_fmap.
      by apply (Hk v).
    + intros _ Hnd k v Hin. apply apply_updates_present.
      * by apply updates_keys_NoDup.
      * by apply elem_of_updates.
  - repeat split; done.
Qed.

Lemma set_groups_same (d : db) : set_groups d (groups d) (seq_groups d) = d.
Proof. by destruct d. Qed.

(** C8. A group upsert that finds the group by (season, category, code)
    completes with that group's id, inserts nothing and touches no
    other table; in every stored group row each column the call leaves
    unset or passes as [None] keeps the value it had, and in the row
    found the columns the call provides take the values provided. *)
Theorem group_upsert_patches (d : db) (sid cid : Z) (c : string)
    (kwargs : list (column * option string)) (row : group) :
  select_group d sid cid c = Some row →
  ∃ d', get_or_create_group d sid cid c kwargs = Ok (group_id row, d')
    ∧ set_groups d (groups d') (seq_groups d') = d'
    ∧ seq_groups d' = seq_groups d
    ∧ Forall2 (patched (group_id row) kwargs) (groups d) (groups d')
    ∧ (updates kwargs = [] → d' = d).
Proof.
  intros Hsel. unfold get_or_create_group. rewrite Hsel.
  assert (Forall2 (patched (group_id row) kwargs) (groups d)
            (update_group (group_id row) (updates kwargs) <$> groups d)) as Hall.
  { apply Forall2_fmap_r, Forall_Forall2_diag, Forall_forall.
    intros g0 _. apply update_group_patched. }
  destruct (updates kwargs) as [|u ups] eqn:Hups.
  - exists d. split; [done|]. split; [apply set_groups_same|].
    split; [done|]. split; [|done].
    rewrite <- (list_fmap_id (groups d)) at 2.
    erewrite (list_fmap_ext id); [exact Hall|].
    intros _ g0 _. unfold update_group. by destruct (group_id g0 =? group_id row).
  - eexists. split; [done|]. csimpl. split; [done|]. split; [done|].
    split; [exact Hall|done].
Qed.

Lemma group_upsert_patches_witness :
  select_group sample_db 1 1 "A2" = List.head (groups sample_db)
  ∧ ∃ d', get_or_create_group sample_db 1 1 "A2"
            [(col_name, None); (col_url, Some "https://example.org/a2");
             (col_phase, None); (col_current_jornada, Some "Jornada 5")]
          = Ok (1, d')
    ∧ groups d'
      = [Group 1 1 1 "A2" (Some "Grupo 2") (Some "Fase A - Grupo 2")
           (Some "Segunda Fase A") (Some "grancanaria")
           (Some "https://example.org/a2") (Some "Jornada 5");
         Group 2 1 1 "B1" (Some "Grupo 1") None None None None None].
Proof.
  split; [reflexivity|].
  destruct (group_upsert_patches sample_db 1 1 "A2"
              [(col_name, None); (col_url, Some "https://example.org/a2");
               (col_phase, None); (col_current_jornada, Some "Jornada 5")]
              (Group 1 1 1 "A2" (Some "Grupo 2") (Some "Fase A - Grupo 2")
                 (Some "Segunda Fase A") (Some "grancanaria") None
                 (Some "Jornada 4")))
    as (d' & Hcall & _); [reflexivity|].
  exists d'. split; [exact Hcall|].
  vm_compute in Hcall. by injection Hcall as <-.
Defined.

(** *** Standings replacement *)

Lemma NoDup_fmap_inj_on {A B} (f : A → B) (l : list A) (x y : A) :
  NoDup (f <$> l) → x ∈ l → y ∈ l → f x = f y → x = y.
Proof.
  induction l as [|a t IH]; csimpl; [by intros _ H%elem_of_nil|].
  intros [Ha Ht]%NoDup_cons [->|Hx]%elem_of_cons [->|Hy]%elem_of_cons Hf.
  - done.
  - destruct Ha. rewrite Hf. by apply list_elem_of_fmap_2.
  - destruct Ha. rewrite <- Hf. by apply list_elem_of_fmap_2.
  - by apply IH.
Qed.

Lemma filter_unique_id (ts : list team) (t : team) :
  NoDup (team_id <$> ts) → t ∈ ts →
  List.filter (λ t', team_id t' =? team_id t) ts = [t].
Proof.
  induction ts as [|a r IH]; csimpl; [by intros _ H%elem_of_nil|].
  intros [Ha Hr]%NoDup_cons [->|Ht]%elem_of_cons.
  - rewrite Z.eqb_refl. f_equal.
    clear IH. induction r as [|b r IH]; csimpl; [done|].
    apply not_elem_of_cons in Ha as [Hab Ha]. apply NoDup_cons in Hr as [_ Hr].
    destruct (Z.eqb_spec (team_id b) (team_id a)); [congruence|by apply IH].
  - destruct (Z.eqb_spec (team_id a) (team_id t)) as [Heq|_]; [|by apply IH].
    destruct Ha. rewrite Heq. by apply list_elem_of_fmap_2.
Qed.

(** The team upsert without a shield only ever appends a team. *)
Lemma get_or_create_team_grows (d : db) (nm : string) :
  let r := get_or_create_team d nm None in
  (teams_keyed d → teams_keyed r.2)
  ∧ (∃ extra, teams r.2 = (teams d ++ extra)%list)
  ∧ (∃ t, t ∈ teams r.2 ∧ team_id t = r.1 ∧ team_name t = nm)
  ∧ standings r.2 = standings d ∧ seq_standings r.2 = seq_standings d
  ∧ groups r.2 = groups d.
Proof.
  unfold get_or_create_team, teams_keyed.
  destruct (select_team d nm) as [row|] eqn:Hsel; csimpl.
  - split; [done|]. split; [exists []; by rewrite app_nil_r|].
    split; [|done]. exists row.
    apply List.find_some in Hsel as [Hin Hnm%String.eqb_eq].
    by apply list_elem_of_In in Hin.
  - split.
    { intros Hnd. rewrite fmap_app. apply NoDup_app. split; [done|].
      split; [|apply NoDup_singleton].
      intros x Hx [->|[]%elem_of_nil]%elem_of_cons.
      by apply next_rowid_fresh in Hx. }
    split; [by eexists|]. split; [|done].
    eexists. split; [apply elem_of_app; right; by left|done].
Qed.

Lemma insert_standing_Ok (d d' : db) (gid tid : Z) (row : standing_row) :
  insert_standing d gid tid row = Ok d' →
  teams d' = teams d ∧ groups d' = groups d
  ∧ ∃ i, standings d' =
      (standings d ++
         [Standing i gid tid (r_pos row) (r_pts row) (r_played row)
                   (r_won row) (r_drawn row) (r_lost row)
                   (r_gf row) (r_gc row) (r_gd row)])%list.
Proof.
  unfold insert_standing.
  destruct (existsb _ (standings d)); [done|].
  destruct (group_exists d gid && team_exists d tid); [|done].
  intros [= <-]. csimpl. by eauto.
Qed.

Lemma join_team_found (ts : list team) (s0 : standing) (t : team) :
  NoDup (team_id <$> ts) → t ∈ ts → team_id t = s_team_id s0 →
  join_team ts s0 =
    [StandingRow (position s0) (team_name t) (points s0) (played s0) (won s0)
                 (drawn s0) (lost s0) (gf s0) (gc s0) (gd s0)].
Proof.
  intros Hnd Ht Hid. unfold join_team. rewrite <- Hid.
  by rewrite filter_unique_id.
Qed.

(** What the insert loop leaves behind when it completes. *)
Lemma insert_standings_Ok (gid : Z) (rows : list standing_row) (d d' : db) :
  teams_keyed d → insert_standings d gid rows = Ok d' →
  teams_keyed d'
  ∧ (∃ extra, teams d' = (teams d ++ extra)%list)
  ∧ ∃ news, standings d' = (standings d ++ news)%list
            ∧ Forall2 (stores_row gid (teams d')) rows news.
Proof.
  revert d. induction rows as [|row rest IH]; intros d Hkey; csimpl.
  - intros [= <-]. split; [done|]. split; [exists []; by rewrite app_nil_r|].
    exists []. by rewrite app_nil_r.
  - pose proof (get_or_create_team_grows d (r_team row)) as Hgrow.
    destruct (get_or_create_team d (r_team row) None) as [tid d1].
    csimpl in Hgrow.
    destruct Hgrow as (Hk1 & [ex1 He1] & (t & Ht & Htid & Htn) & Hs1 & _ & _).
    destruct (insert_standing d1 gid tid row) as [d2|] eqn:Hins; [|done].
    csimpl. intros Hrest.
    apply insert_standing_Ok in Hins as (Ht2 & _ & i & Hs2).
    destruct (IH d2) as (Hk' & [ex2 He2] & news & Hs' & Hall);
      [unfold teams_keyed; rewrite Ht2; by apply Hk1|done|].
    split; [done|]. split.
    { exists (ex1 ++ ex2)%list. by rewrite He2, Ht2, He1, app_assoc. }
    eexists (_ :: news). split.
    { rewrite Hs', Hs2, Hs1, <- app_assoc. done. }
    constructor; [|done]. unfold stores_row. csimpl.
    split; [done|]. split; [|by destruct row].
    exists t. split; [|done]. rewrite He2, Ht2. apply elem_of_app. by left.
Qed.

Lemma select_new_standings (gid : Z) (ts : list team)
    (rows : list standing_row) (news : list standing) :
  NoDup (team_id <$> ts) → Forall2 (stores_row gid ts) rows news →
  (news ≫= λ s0, if s_group_id s0 =? gid then join_team ts s0 else []) = rows.
Proof.
  intros Hnd. induction 1 as [|row s0 rows news Hrow _ IH]; csimpl; [done|].
  destruct Hrow as (Hg & (t & Ht & Hid & Hnm) & Hrow).
  rewrite Hg, Z.eqb_refl, (join_team_found ts s0 t), Hnm, Hrow, IH by done.
  done.
Qed.

Lemma select_deleted_standings (gid : Z) (ts : list team) (ss : list standing) :
  (List.filter (λ s0, negb (s_group_id s0 =? gid)) ss
     ≫= λ s0, if s_group_id s0 =? gid then join_team ts s0 else []) = [].
Proof.
  induction ss as [|s0 r IH]; csimpl; [done|].
  destruct (s_group_id s0 =? gid) eqn:E; csimpl; [done|]. by rewrite E.
Qed.

Lemma outside_new_standings (gid : Z) (ts : list team)
    (rows : list standing_row) (news : list standing) :
  Forall2 (stores_row gid ts) rows news →
  List.filter (λ s0, negb (s_group_id s0 =? gid)) news = [].
Proof.
  induction 1 as [|row s0 rows news Hrow _ IH]; csimpl; [done|].
  destruct Hrow as (-> & _). by rewrite Z.eqb_refl.
Qed.

Lemma filter_idem {A} (p : A → bool) (l : list A) :
  List.filter p (List.filter p l) = List.filter p l.
Proof.
  induction l as [|a t IH]; csimpl; [done|].
  destruct (p a) eqn:E; csimpl; [rewrite E; by f_equal|done].
Qed.

(** The insert loop completes when the rows name distinct teams, none
    of them already in the group's standings. *)
Lemma insert_standings_total (gid : Z) (rows : list standing_row) (d : db) :
  teams_keyed d → group_exists d gid = true → NoDup (r_team <$> rows) →
  (∀ s0, s0 ∈ standings d → s_group_id s0 = gid →
     ∃ t, t ∈ teams d ∧ team_id t = s_team_id s0
          ∧ team_name t ∉ r_team <$> rows) →
  ∃ d', insert_standings d gid rows = Ok d'.
Proof.
  revert d. induction rows as [|row rest IH]; intros d Hkey Hgrp Hnd Hold;
    csimpl; [by eexists|].
  apply NoDup_cons in Hnd as [Hrow Hnd].
  pose proof (get_or_create_team_grows d (r_team row)) as Hgrow.
  destruct (get_or_create_team d (r_team row) None) as [tid d1].
  csimpl in Hgrow.
  destruct Hgrow as (Hk1 & [ex1 He1] & (t & Ht & Htid & Htn) & Hs1 & _ & Hg1).
  specialize (Hk1 Hkey).
  assert (∀ s0, s0 ∈ standings d1 → s_group_id s0 = gid →
            ∃ t', t' ∈ teams d1 ∧ team_id t' = s_team_id s0
                  ∧ team_name t' ∉ r_team row :: (r_team <$> rest)) as Hold1.
  { intros s0 Hs0 Hgid. rewrite Hs1 in Hs0.
    destruct (Hold s0 Hs0 Hgid) as (t' & Ht' & Hid' & Hnm').
    exists t'. split; [|done]. rewrite He1. apply elem_of_app. by left. }
  assert (insert_standing d1 gid tid row ≠ IntegrityError) as Hins.
  { unfold insert_standing.
    destruct (existsb _ (standings d1)) eqn:Hdup.
    - exfalso. apply existsb_exists in Hdup as (s0 & Hs0%list_elem_of_In & Hk).
      apply andb_true_iff in Hk as [Hsg%Z.eqb_eq Hst%Z.eqb_eq].
      destruct (Hold1 s0 Hs0 Hsg) as (t' & Ht' & Hid' & Hnm').
      assert (t' = t) as ->.
      { apply (NoDup_fmap_inj_on team_id (teams d1)); [done..|]. congruence. }
      apply Hnm'. rewrite Htn. by left.
    - assert (group_exists d1 gid = true) as ->
        by (unfold group_exists; by rewrite Hg1).
      assert (team_exists d1 tid = true) as ->.
      { unfold team_exists. apply existsb_exists. exists t.
        split; [by apply list_elem_of_In|]. by apply Z.eqb_eq. }
      done. }
  destruct (insert_standing d1 gid tid row) as [d2|] eqn:Hins2; [|done].
  csimpl. pose proof Hins2 as Hins3.
  apply insert_standing_Ok in Hins2 as (Ht2 & Hg2 & i & Hs2).
  apply IH; [unfold teams_keyed; by rewrite Ht2| |done|].
  - unfold group_exists. rewrite Hg2, Hg1. exact Hgrp.
  - intros s0 Hs0 Hgid. rewrite Hs2 in Hs0. rewrite Ht2.
    apply elem_of_app in Hs0 as [Hs0|Hs0].
    + destruct (Hold1 s0 Hs0 Hgid) as (t' & Ht' & Hid' & Hnm').
      exists t'. split; [done|]. split; [done|].
      intros Hin. apply Hnm'. by right.
    + apply list_elem_of_singleton in Hs0 as ->. csimpl.
      exists t. split; [done|]. split; [done|]. by rewrite Htn.
Qed.

(** C3. Replacing the standings of a group with a row set: whenever the
    replacement completes, the standings read back for the group are
    exactly the new rows, in their order, so nothing of the prior
    snapshot is left, and the stored rows of every other group are
    untouched; and it does complete for every row set that names each
    team once, for a group that exists. *)
Theorem replace_standings_exact (d : db) (gid : Z)
    (rows : list standing_row) :
  teams_keyed d →
  (∀ d', replace_standings d gid rows = Ok d' →
     select_standings d' gid = rows
     ∧ standings_outside d' gid = standings_outside d gid)
  ∧ (group_exists d gid = true → NoDup (r_team <$> rows) →
     ∃ d', replace_standings d gid rows = Ok d').
Proof.
  intros Hkey. unfold replace_standings. split.
  - intros d' Hrun.
    apply insert_standings_Ok in Hrun as (Hk' & _ & news & Hs' & Hall);
      [|done].
    unfold select_standings, standings_outside. rewrite Hs'. csimpl.
    rewrite bind_app, select_deleted_standings, List.filter_app.
    rewrite (select_new_standings gid (teams d') rows news) by done.
    rewrite (outside_new_standings gid (teams d') rows news) by done.
    by rewrite app_nil_r, filter_idem.
  - intros Hgrp Hnd. apply insert_standings_total; try done.
    intros s0 Hs0 Hgid. exfalso. csimpl in Hs0.
    apply list_elem_of_In, List.filter_In in Hs0 as [_ Hne].
    rewrite Hgid, Z.eqb_refl in Hne. done.
Qed.

Lemma replace_standings_exact_witness :
  teams_keyed sample_db
  ∧ select_standings sample_db 1
    = [StandingRow 1 "Arucas" 9 3 3 0 0 8 1 7;
       StandingRow 2 "Telde" 3 3 1 0 2 2 5 (-3)]
  ∧ ∃ d', replace_standings sample_db 1 sample_rows = Ok d'
      ∧ select_standings d' 1 = sample_rows
      ∧ select_standings d' 2 = select_standings sample_db 2
      ∧ standings_outside d' 1 = standings_outside sample_db 1.
Proof.
  assert (teams_keyed sample_db) as Hkey.
  { unfold teams_keyed. apply (bool_decide_unpack _). vm_compute. exact I. }
  split; [exact Hkey|]. split; [reflexivity|].
  destruct (replace_standings_exact sample_db 1 sample_rows Hkey)
    as [Hpost Hruns].
  destruct Hruns as [d' Hd']; [reflexivity| |].
  { apply (bool_decide_unpack _). vm_compute. exact I. }
  exists d'. split; [exact Hd'|].
  destruct (Hpost d' Hd') as [Hrows Hout].
  split; [exact Hrows|]. split; [|exact Hout].
  vm_compute in Hd'. injection Hd' as <-. reflexivity.
Defined.

(** What the generator then emits for the group: the new rows by
    position. *)
Lemma generate_standings_after_replace (d d' : db) (gid : Z)
    (rows : list standing_row) :
  teams_keyed d → replace_standings d gid rows = Ok d' →
  Generator.generate_standings d' gid
  = stable_sort (λ a b, r_pos a - r_pos b) rows.
Proof.
  intros Hkey Hrun. unfold replace_standings in Hrun.
  apply insert_standings_Ok in Hrun as (Hk' & _ & news & Hs' & Hall);
    [|done].
  unfold Generator.generate_standings, select_standings. rewrite Hs'. csimpl.
  rewrite bind_app, select_deleted_standings.
  by rewrite (select_new_standings gid (teams d') rows news).
Qed.

(** A row set that names a team twice does not go through: the second
    insert for the team raises. *)
Example replace_standings_duplicate_team :
  replace_standings sample_db 1
    [StandingRow 1 "Telde" 12 4 4 0 0 9 5 4;
     StandingRow 2 "Telde" 9 4 3 0 1 8 3 5] = IntegrityError.
Proof. reflexivity. Qed.

End StoreFacts.

(** ** Selection state *)
Section Selection.
Import Client.

(** renderJornadaContent only ever assigns the matchday. *)
Lemma renderJornadaContent_frame (E : data) (S : state) :
  let S' := renderJornadaContent E S in
  cat S' = cat S ∧ section S' = section S ∧ search S' = search S
  ∧ jorGroup S' = jorGroup S ∧ golGroup S' = golGroup S
  ∧ island S' = island S.
Proof.
  unfold renderJornadaContent.
  repeat (case_match; csimpl); done.
Qed.

Lemma renderJornadas_frame (E : data) (S : state) :
  let S' := renderJornadas E S in
  cat S' = cat S ∧ section S' = section S ∧ search S' = search S
  ∧ golGroup S' = golGroup S ∧ island S' = island S
  ∧ (nonempty (jorGroup S) = true → jorGroup S' = jorGroup S).
Proof.
  unfold renderJornadas.
  set (S1 := match getData E S with
             | first :: _ => if negb (nonempty (jorGroup S))
                             then set_jorGroup (id first) S else S
             | [] => S
             end).
  assert (cat S1 = cat S ∧ section S1 = section S ∧ search S1 = search S
          ∧ golGroup S1 = golGroup S ∧ island S1 = island S
          ∧ (nonempty (jorGroup S) = true → jorGroup S1 = jorGroup S))
    as (H1 & H2 & H3 & H4 & H5 & H6).
  { unfold S1. destruct (getData E S); [done|].
    destruct (nonempty (jorGroup S)); done. }
  pose proof (renderJornadaContent_frame E S1) as (F1 & F2 & F3 & F4 & F5 & F6).
  destruct (nonempty (jorGroup S1)); csimpl.
  - rewrite F1, F2, F3, F4, F5, F6. done.
  - done.
Qed.



End Selection.

(** ** Offline cache *)
Section Cache.
Import Worker.



(** The worker with the DATA_FILES list is network-first on data files. *)
Lemma data_aware_network_first (loc : location) (cs : CacheStorage)
    (req : Request) (net : fetch_result) :
  isDataFile req = true →
  sw_fetch_data_aware loc cs req net =
    match net with
    | Fulfilled resp =>
        (Some resp, caches_put cs "futbolbase-v20260302c" (req_url req) resp)
    | Rejected => (caches_match cs (req_url req), cs)
    end.
Proof. unfold sw_fetch_data_aware. by intros ->. Qed.

(** The worker of [src/sw.js] answers from the cache whenever it can,
    whatever the request and whatever the network would say. *)
Lemma sw_fetch_cached (loc : location) (cs : CacheStorage) (req : Request)
    (net : fetch_result) (cached : Response) :
  caches_match cs (req_url req) = Some cached →
  sw_fetch loc cs req net = (Some cached, cs).
Proof. unfold sw_fetch, cache_first. by intros ->. Qed.

(** C2, on [src/sw.js]. A request for a data file whose copy of last
    week is in the cache, with the network up and serving this week's
    file: the worker of [src/sw.js] hands the page last week's copy and
    leaves the cache as it was, where the worker with the DATA_FILES
    list hands over this week's file and stores it. *)
Theorem sw_fetch_serves_cached_data_file :
  isDataFile (Req data_url) = true
  ∧ sw_fetch site (cached_last_week "futbolbase-v20260301") (Req data_url)
      (Fulfilled this_week)
    = (Some last_week, cached_last_week "futbolbase-v20260301")
  ∧ sw_fetch_data_aware site (cached_last_week "futbolbase-v20260302c")
      (Req data_url) (Fulfilled this_week)
    = (Some this_week,
       [("futbolbase-v20260302c", {[ data_url := this_week ]})]).
Proof.
  split; [reflexivity|]. split; [reflexivity|].
  rewrite data_aware_network_first by reflexivity.
  unfold cached_last_week. csimpl. by rewrite insert_singleton_eq.
Qed.



End Cache.

(** * Further properties of the code *)

(** ** Team upsert: what it keeps *)
Section TeamTable.
Import Store.

Lemma find_name_None (ts : list team) (nm : string) :
  List.find (λ t, String.eqb (team_name t) nm) ts = None →
  nm ∉ team_name <$> ts.
Proof.
  induction ts as [|t r IH]; csimpl; [by intros _ H%elem_of_nil|].
  destruct (String.eqb_spec (team_name t) nm) as [|Hne]; [done|].
  intros Hr [Heq|Hin]%elem_of_cons; [by destruct Hne|by apply IH].
Qed.

Lemma update_shield_ids (i : Z) (sh : option string) (ts : list team) :
  team_id <$> (update_shield i sh <$> ts) = team_id <$> ts.
Proof.
  rewrite <- list_fmap_compose. apply list_fmap_ext. intros _ t _. csimpl.
  unfold update_shield. by destruct (team_id t =? i).
Qed.

Lemma update_shield_names (i : Z) (sh : option string) (ts : list team) :
  team_name <$> (update_shield i sh <$> ts) = team_name <$> ts.
Proof.
  rewrite <- list_fmap_compose. apply list_fmap_ext. intros _ t _. csimpl.
  unfold update_shield. by destruct (team_id t =? i).
Qed.

Lemma update_shield_identities (i : Z) (sh : option string) (ts : list team) :
  team_identity <$> (update_shield i sh <$> ts) = team_identity <$> ts.
Proof.
  rewrite <- list_fmap_compose. apply list_fmap_ext. intros _ t _.
  apply update_shield_identity.
Qed.

(** X1. The team upsert keeps the teams table a table: on a store whose
    team ids and team names are keys, they still are after any call;
    every row that was there keeps its id and its name, in place; at
    most one row is added, and it carries the id returned and the name
    asked for; and the name is in the table afterwards. *)
Theorem get_or_create_team_keeps_keys (d : db) (nm : string)
    (sh : option string) :
  teams_keyed d → names_unique d →
  let r := get_or_create_team d nm sh in
  teams_keyed r.2 ∧ names_unique r.2
  ∧ (∃ extra, team_identity <$> teams r.2
              = ((team_identity <$> teams d) ++ extra)%list
              ∧ (extra = [] ∨ extra = [(r.1, nm)]))
  ∧ nm ∈ team_name <$> teams r.2.
Proof.
  unfold teams_keyed, names_unique, get_or_create_team, select_team.
  intros Hids Hnames.
  destruct (List.find _ (teams d)) as [row|] eqn:Hsel; csimpl.
  - assert (nm ∈ team_name <$> teams d) as Hin.
    { apply List.find_some in Hsel as [Hin Hnm%String.eqb_eq].
      apply list_elem_of_fmap. exists row. by apply list_elem_of_In in Hin. }
    destruct (truthy sh); csimpl.
    + rewrite update_shield_ids, update_shield_names, update_shield_identities.
      repeat split; try done. exists []. rewrite app_nil_r. by split; [|left].
    + repeat split; try done. exists []. rewrite app_nil_r. by split; [|left].
  - rewrite !fmap_app. csimpl. repeat split.
    + apply NoDup_app. split; [done|]. split; [|apply NoDup_singleton].
      intros x Hx [->|[]%elem_of_nil]%elem_of_cons.
      by apply next_rowid_fresh in Hx.
    + apply NoDup_app. split; [done|]. split; [|apply NoDup_singleton].
      intros x Hx [->|[]%elem_of_nil]%elem_of_cons.
      by apply find_name_None in Hsel.
    + eexists. split; [done|]. by right.
    + apply elem_of_app. right. by left.
Qed.

Lemma get_or_create_team_keeps_keys_witness :
  teams_keyed sample_db ∧ names_unique sample_db
  ∧ let r := get_or_create_team sample_db "Moya" (Some "moya.png") in
    teams_keyed r.2 ∧ names_unique r.2 ∧ r.1 = 4
    ∧ "Moya" ∈ team_name <$> teams r.2.
Proof.
  assert (teams_keyed sample_db) as Hk
    by (apply (bool_decide_unpack _); vm_compute; exact I).
  assert (names_unique sample_db) as Hn
    by (apply (bool_decide_unpack _); vm_compute; exact I).
  split; [exact Hk|]. split; [exact Hn|].
  destruct (get_or_create_team_keeps_keys sample_db "Moya" (Some "moya.png")
              Hk Hn) as (H1 & H2 & _ & H4).
  split; [exact H1|]. split; [exact H2|]. split; [reflexivity|exact H4].
Defined.

Lemma find_lookup_Some {A} (p : A → bool) (l : list A) (x : A) :
  List.find p l = Some x → x ∈ l ∧ p x = true.
Proof.
  intros [Hin Hp]%List.find_some. by apply list_elem_of_In in Hin.
Qed.

(** X2. The shield of a team: a call that carries a non-empty shield leaves
    the team found under the name with exactly that shield; a call that
    carries none, or the empty string, for a team that exists changes
    nothing at all, so a stored shield is never cleared; and whatever
    the call carries, every row with another id stays as it was. *)
Theorem get_or_create_team_shield (d : db) (nm : string)
    (sh : option string) :
  let r := get_or_create_team d nm sh in
  (truthy sh = true →
   ∃ row, select_team r.2 nm = Some row ∧ team_id row = r.1
          ∧ shield_filename row = sh)
  ∧ (truthy sh = false → ∀ row, select_team d nm = Some row → r.2 = d)
  ∧ (∀ t, t ∈ teams d → team_id t ≠ r.1 → t ∈ teams r.2).
Proof.
  unfold get_or_create_team.
  destruct (select_team d nm) as [row|] eqn:Hsel; csimpl.
  - split; [|split].
    + intros ->. exists (update_shield (team_id row) sh row).
      unfold select_team. csimpl.
      rewrite find_fmap_preserving by (intros; apply update_shield_name).
      unfold select_team in Hsel. rewrite Hsel. csimpl.
      unfold update_shield. rewrite Z.eqb_refl. done.
    + by intros ->.
    + intros t Ht Hne. destruct (truthy sh); [|done]. csimpl.
      apply list_elem_of_fmap. exists t. split; [|done].
      unfold update_shield.
      destruct (Z.eqb_spec (team_id t) (team_id row)); [done|done].
  - split; [|split].
    + intros _.
      exists (Team (next_rowid (seq_teams d) (team_id <$> teams d)) nm sh).
      split; [|done].
      unfold select_team. csimpl. apply find_app_fresh; [done|].
      csimpl. apply String.eqb_refl.
    + done.
    + intros t Ht _. apply elem_of_app. by left.
Qed.

End TeamTable.

(** ** Group upsert: round trip *)
Section GroupTable.
Import Store.

Lemma group_ext (g1 g2 : group) :
  group_id g1 = group_id g2 → g_season_id g1 = g_season_id g2 →
  g_category_id g1 = g_category_id g2 → code g1 = code g2 →
  (∀ k, get_col k g1 = get_col k g2) → g1 = g2.
Proof.
  destruct g1, g2; csimpl. intros -> -> -> -> H.
  pose proof (H col_name). pose proof (H col_full_name).
  pose proof (H col_phase). pose proof (H col_island).
  pose proof (H col_url). pose proof (H col_current_jornada).
  csimpl in *. congruence.
Qed.

Lemma insert_cols_key (kwargs : list (column * option string)) (g0 : group) :
  let g1 := foldl (λ acc kv, set_col kv.1 kv.2 acc) g0 kwargs in
  group_id g1 = group_id g0 ∧ g_season_id g1 = g_season_id g0
  ∧ g_category_id g1 = g_category_id g0 ∧ code g1 = code g0.
Proof.
  revert g0. induction kwargs as [|[k v] rest IH]; intros g0; csimpl; [done|].
  destruct (IH (set_col k v g0)) as (-> & -> & -> & ->).
  apply set_col_key.
Qed.

Lemma insert_cols_absent (kwargs : list (column * option string))
    (g0 : group) (k : column) :
  k ∉ kwargs.*1 →
  get_col k (foldl (λ acc kv, set_col kv.1 kv.2 acc) g0 kwargs) = get_col k g0.
Proof.
  revert g0. induction kwargs as [|[k' v'] rest IH]; intros g0; csimpl; [done|].
  intros [Hne Hrest]%not_elem_of_cons.
  rewrite IH by done. by apply get_set_col_other.
Qed.

Lemma insert_cols_present (kwargs : list (column * option string))
    (g0 : group) (k : column) (v : option string) :
  NoDup kwargs.*1 → (k, v) ∈ kwargs →
  get_col k (foldl (λ acc kv, set_col kv.1 kv.2 acc) g0 kwargs) = v.
Proof.
  revert g0. induction kwargs as [|[k' v'] rest IH]; intros g0; csimpl.
  - intros _ H. by apply elem_of_nil in H.
  - intros [Hk Hnd]%NoDup_cons [[= -> ->]|Hin]%elem_of_cons.
    + rewrite insert_cols_absent by done. apply get_set_col_same.
    + by apply IH.
Qed.

(** A column the updates mention ends with a value that does not depend
    on the row they are applied to. *)
Lemma apply_updates_covered (ups : list (column * string)) (g1 g2 : group)
    (k : column) :
  k ∈ ups.*1 →
  get_col k (foldl (λ acc kv, set_col kv.1 (Some kv.2) acc) g1 ups)
  = get_col k (foldl (λ acc kv, set_col kv.1 (Some kv.2) acc) g2 ups).
Proof.
  revert g1 g2. induction ups as [|[k' v'] rest IH]; intros g1 g2; csimpl.
  - by intros H%elem_of_nil.
  - intros Hin. destruct (decide (k ∈ rest.*1)) as [Hr|Hr]; [by apply IH|].
    apply elem_of_cons in Hin as [->|Hin]; [|done].
    rewrite !apply_updates_absent by done.
    by rewrite !get_set_col_same.
Qed.

Lemma apply_updates_twice (ups : list (column * string)) (g0 : group) :
  foldl (λ acc kv, set_col kv.1 (Some kv.2) acc)
        (foldl (λ acc kv, set_col kv.1 (Some kv.2) acc) g0 ups) ups
  = foldl (λ acc kv, set_col kv.1 (Some kv.2) acc) g0 ups.
Proof.
  pose proof (apply_updates_key ups g0) as (K1 & K2 & K3 & K4).
  pose proof (apply_updates_key ups
                (foldl (λ acc kv, set_col kv.1 (Some kv.2) acc) g0 ups))
    as (L1 & L2 & L3 & L4).
  csimpl in *. apply group_ext; try congruence.
  intros k. destruct (decide (k ∈ ups.*1)) as [Hin|Hout].
  - by apply apply_updates_covered.
  - by rewrite apply_updates_absent.
Qed.

Lemma update_group_twice (gid : Z) (ups : list (column * string)) (g0 : group) :
  update_group gid ups (update_group gid ups g0) = update_group gid ups g0.
Proof.
  unfold update_group. destruct (group_id g0 =? gid) eqn:E; [|by rewrite E].
  destruct (apply_updates_key ups g0) as (-> & _). rewrite E.
  apply apply_updates_twice.
Qed.

Lemma update_group_selects (gid sid cid : Z) (c : string)
    (ups : list (column * string)) (g0 : group) :
  (g_season_id (update_group gid ups g0) =? sid)
  && (g_category_id (update_group gid ups g0) =? cid)
  && String.eqb (code (update_group gid ups g0)) c
  = (g_season_id g0 =? sid) && (g_category_id g0 =? cid)
    && String.eqb (code g0) c.
Proof.
  unfold update_group. destruct (group_id g0 =? gid); [|done].
  by destruct (apply_updates_key ups g0) as (_ & -> & -> & ->).
Qed.

Lemma update_group_id (gid : Z) (ups : list (column * string)) (g0 : group) :
  group_id (update_group gid ups g0) = group_id g0.
Proof.
  unfold update_group. destruct (group_id g0 =? gid); [|done].
  by destruct (apply_updates_key ups g0) as (-> & _).
Qed.

Lemma update_group_other (gid : Z) (ups : list (column * string))
    (gs : list group) :
  gid ∉ group_id <$> gs → update_group gid ups <$> gs = gs.
Proof.
  induction gs as [|g0 r IH]; csimpl; [done|].
  intros [Hg Hr]%not_elem_of_cons. rewrite IH by done.
  unfold update_group.
  destruct (Z.eqb_spec (group_id g0) gid); [congruence|done].
Qed.

(** A new row built from the keyword arguments is not changed by the
    update the same arguments give rise to. *)
Lemma update_group_inserted (kwargs : list (column * option string))
    (g0 : group) :
  NoDup kwargs.*1 →
  let row := foldl (λ acc kv, set_col kv.1 kv.2 acc) g0 kwargs in
  update_group (group_id g0) (updates kwargs) row = row.
Proof.
  intros Hnd row. unfold update_group.
  pose proof (insert_cols_key kwargs g0) as (K1 & K2 & K3 & K4).
  fold row in K1, K2, K3, K4. rewrite K1, Z.eqb_refl.
  pose proof (apply_updates_key (updates kwargs) row) as (L1 & L2 & L3 & L4).
  csimpl in *. apply group_ext; try congruence.
  intros k. destruct (decide (k ∈ (updates kwargs).*1)) as [Hin|Hout].
  - apply list_elem_of_fmap in Hin as ([k' v] & -> & Hin). csimpl.
    rewrite (apply_updates_present _ _ k' v);
      [|by apply updates_keys_NoDup|done].
    symmetry. apply insert_cols_present; [done|]. by apply elem_of_updates.
  - by rewrite apply_updates_absent.
Qed.

(** X3. Group upsert, insert and look up: when a call completes, the group
    is found under (season, category, code) with the id the call
    returned; and the same call made again (keyword arguments as a
    dict has them, each column once) returns the same id and leaves
    the database exactly as the first call left it. *)
Theorem group_upsert_round_trip (d d' : db) (sid cid gid : Z) (c : string)
    (kwargs : list (column * option string)) :
  NoDup kwargs.*1 →
  get_or_create_group d sid cid c kwargs = Ok (gid, d') →
  (∃ row, select_group d' sid cid c = Some row ∧ group_id row = gid)
  ∧ get_or_create_group d' sid cid c kwargs = Ok (gid, d').
Proof.
  intros Hnd. unfold get_or_create_group at 1.
  destruct (select_group d sid cid c) as [row|] eqn:Hsel.
  - (* found: patched in place *)
    assert (select_group
              (set_groups d (update_group (group_id row) (updates kwargs)
                               <$> groups d) (seq_groups d)) sid cid c
            = Some (update_group (group_id row) (updates kwargs) row)) as Hsel'.
    { unfold select_group in *. csimpl.
      rewrite find_fmap_preserving
        by (intros; apply update_group_selects).
      by rewrite Hsel. }
    destruct (updates kwargs) as [|u ups] eqn:Hups.
    + intros [= <- <-]. split; [by exists row|].
      unfold get_or_create_group. by rewrite Hsel, Hups.
    + intros [= <- <-]. split.
      { eexists. split; [exact Hsel'|]. apply update_group_id. }
      unfold get_or_create_group. rewrite Hsel', Hups, update_group_id.
      csimpl. unfold set_groups. csimpl. do 3 f_equal.
      rewrite <- list_fmap_compose. apply list_fmap_ext.
      intros _ g0 _. apply update_group_twice.
  - (* missing: inserted *)
    destruct (season_exists d sid && category_exists d cid); [|done].
    set (i := next_rowid (seq_groups d) (group_id <$> groups d)).
    set (row := foldl (λ acc kv, set_col kv.1 kv.2 acc)
                  (Group i sid cid c None None None None None None) kwargs).
    intros [= <- <-].
    pose proof (insert_cols_key kwargs
                  (Group i sid cid c None None None None None None))
      as (K1 & K2 & K3 & K4). fold row in K1, K2, K3, K4. csimpl in *.
    assert (select_group (set_groups d (groups d ++ [row]) i) sid cid c
            = Some row) as Hsel'.
    { unfold select_group in *. csimpl. apply find_app_fresh; [done|].
      by rewrite K2, K3, K4, !Z.eqb_refl, String.eqb_refl. }
    split; [by exists row|].
    unfold get_or_create_group. rewrite Hsel', K1.
    destruct (updates kwargs) as [|u ups] eqn:Hups; [done|].
    csimpl. unfold set_groups. csimpl. do 3 f_equal.
    rewrite fmap_app. csimpl.
    rewrite update_group_other by apply next_rowid_fresh.
    f_equal. f_equal. rewrite <- Hups.
    apply (update_group_inserted kwargs
             (Group i sid cid c None None None None None None) Hnd).
Qed.

Lemma group_upsert_round_trip_witness :
  ∃ d', get_or_create_group sample_db 1 1 "C3"
          [(col_name, Some "Grupo 3"); (col_phase, None);
           (col_island, Some "lanzarote")] = Ok (3, d')
    ∧ select_group sample_db 1 1 "C3" = None
    ∧ (∃ row, select_group d' 1 1 "C3" = Some row ∧ group_id row = 3)
    ∧ get_or_create_group d' 1 1 "C3"
        [(col_name, Some "Grupo 3"); (col_phase, None);
         (col_island, Some "lanzarote")] = Ok (3, d').
Proof.
  eexists. split; [reflexivity|]. split; [reflexivity|].
  apply (group_upsert_round_trip sample_db _ 1 1 3 "C3"
           [(col_name, Some "Grupo 3"); (col_phase, None);
            (col_island, Some "lanzarote")]).
  - apply (bool_decide_unpack _). vm_compute. exact I.
  - reflexivity.
Defined.

End GroupTable.

(** ** Standings replacement: when it completes *)
Section StandingsTable.
Import Store.

Lemma get_or_create_team_names (d : db) (nm : string) :
  names_unique d → names_unique (get_or_create_team d nm None).2.
Proof.
  unfold names_unique, get_or_create_team, select_team.
  destruct (List.find _ (teams d)) as [row|] eqn:Hsel; csimpl; [done|].
  intros Hnames. rewrite fmap_app. apply NoDup_app. split; [done|].
  split; [|apply NoDup_singleton].
  intros x Hx [->|[]%elem_of_nil]%elem_of_cons.
  by apply find_name_None in Hsel.
Qed.

Lemma insert_standing_checks (d d' : db) (gid tid : Z) (row : standing_row) :
  insert_standing d gid tid row = Ok d' →
  group_exists d gid = true
  ∧ tid ∉ s_team_id <$> List.filter (λ s0, s_group_id s0 =? gid) (standings d).
Proof.
  unfold insert_standing.
  destruct (existsb _ (standings d)) eqn:Hdup; [done|].
  destruct (group_exists d gid); [|done]. intros _. split; [done|].
  intros (s0 & -> & Hs0)%list_elem_of_fmap.
  apply list_elem_of_In, List.filter_In in Hs0 as [Hin Hg].
  assert (existsb (λ s1, (s_group_id s1 =? gid) && (s_team_id s1 =? s_team_id s0))
                  (standings d) = true) as Hex; [|congruence].
  apply existsb_exists. exists s0. split; [done|].
  by rewrite Hg, Z.eqb_refl.
Qed.

(** The insert loop keeps the names a key and never stores a team twice
    in the group. *)
Lemma insert_standings_unique (gid : Z) (rows : list standing_row) (d d' : db) :
  insert_standings d gid rows = Ok d' →
  names_unique d →
  NoDup (s_team_id <$> List.filter (λ s0, s_group_id s0 =? gid) (standings d)) →
  names_unique d'
  ∧ NoDup (s_team_id <$> List.filter (λ s0, s_group_id s0 =? gid) (standings d'))
  ∧ (rows ≠ [] → group_exists d gid = true).
Proof.
  revert d. induction rows as [|row rest IH]; intros d; csimpl.
  - by intros [= <-].
  - pose proof (get_or_create_team_grows d (r_team row)) as Hgrow.
    pose proof (get_or_create_team_names d (r_team row)) as Hnames1.
    destruct (get_or_create_team d (r_team row) None) as [tid d1].
    csimpl in Hgrow. csimpl in Hnames1.
    destruct Hgrow as (_ & _ & _ & Hs1 & _ & Hg1).
    destruct (insert_standing d1 gid tid row) as [d2|] eqn:Hins; [|done].
    csimpl. intros Hrest Hnames Hnd.
    pose proof (insert_standing_checks _ _ _ _ _ Hins) as [Hgrp Hfresh].
    apply insert_standing_Ok in Hins as (Ht2 & Hg2 & i & Hs2).
    destruct (IH d2 Hrest) as (Hn' & Hnd' & _).
    + unfold names_unique. rewrite Ht2. by apply Hnames1.
    + rewrite Hs2, List.filter_app, fmap_app. csimpl. rewrite Z.eqb_refl.
      csimpl. apply NoDup_app. split; [by rewrite Hs1|].
      split; [|apply NoDup_singleton].
      intros x Hx [->|[]%elem_of_nil]%elem_of_cons. apply Hfresh.
      by rewrite Hs1.
    + split; [done|]. split; [done|]. intros _.
      unfold group_exists in *. by rewrite <- Hg1.
Qed.

Lemma new_standings_filter (gid : Z) (ts : list team)
    (rows : list standing_row) (news : list standing) :
  Forall2 (stores_row gid ts) rows news →
  List.filter (λ s0, s_group_id s0 =? gid) news = news.
Proof.
  induction 1 as [|row s0 rows news Hrow _ IH]; csimpl; [done|].
  destruct Hrow as (-> & _). by rewrite Z.eqb_refl, IH.
Qed.

Lemma filter_deleted_standings (gid : Z) (ss : list standing) :
  List.filter (λ s0, s_group_id s0 =? gid)
    (List.filter (λ s0, negb (s_group_id s0 =? gid)) ss) = [].
Proof.
  induction ss as [|s0 r IH]; csimpl; [done|].
  destruct (s_group_id s0 =? gid) eqn:E; csimpl; [done|]. by rewrite E.
Qed.

Lemma stored_rows_distinct (gid : Z) (ts : list team)
    (rows : list standing_row) (news : list standing) :
  NoDup (team_name <$> ts) →
  Forall2 (stores_row gid ts) rows news →
  NoDup (s_team_id <$> news) → NoDup (r_team <$> rows).
Proof.
  intros Hnames. induction 1 as [|row s0 rows news Hrow Hall IH]; csimpl;
    [constructor|].
  intros [Hs0 Hnd]%NoDup_cons. apply NoDup_cons. split; [|by apply IH].
  intros (row' & Heq & Hin)%list_elem_of_fmap.
  apply list_elem_of_lookup in Hin as [j Hj].
  destruct (Forall2_lookup_l _ _ _ _ _ Hall Hj) as (s1 & Hs1 & Hrow').
  destruct Hrow as (_ & (t & Ht & Hid & Hnm) & _).
  destruct Hrow' as (_ & (t' & Ht' & Hid' & Hnm') & _).
  assert (t = t') as <-.
  { apply (NoDup_fmap_inj_on team_name ts); [done..|]. congruence. }
  apply Hs0. apply list_elem_of_fmap. exists s1.
  split; [congruence|]. by eapply list_elem_of_lookup_2.
Qed.

(** X4. Standings replacement completes exactly when there is nothing to
    insert, or the group exists and the rows name each team once: an
    unknown group or a team named twice makes it raise
    [IntegrityError]. *)
Theorem replace_standings_completes_iff (d : db) (gid : Z)
    (rows : list standing_row) :
  teams_keyed d → names_unique d →
  (∃ d', replace_standings d gid rows = Ok d')
  ↔ rows = [] ∨ (group_exists d gid = true ∧ NoDup (r_team <$> rows)).
Proof.
  intros Hkey Hnames. unfold replace_standings. split.
  - intros [d' Hrun]. destruct rows as [|row rest]; [by left|]. right.
    pose proof Hrun as Hrun2.
    apply insert_standings_unique in Hrun2 as (Hn' & Hnd' & Hgrp).
    + split; [by apply Hgrp|].
      apply insert_standings_Ok in Hrun as (_ & _ & news & Hs' & Hall);
        [|done].
      apply (stored_rows_distinct gid (teams d') _ news); [done..|].
      rewrite Hs', List.filter_app in Hnd'. csimpl in Hnd'.
      rewrite filter_deleted_standings in Hnd'. csimpl in Hnd'.
      by rewrite (new_standings_filter gid (teams d') (row :: rest) news)
        in Hnd'.
    + done.
    + csimpl. rewrite filter_deleted_standings. constructor.
  - intros [->|[Hgrp Hnd]]; [by eexists|].
    apply insert_standings_total; try done.
    intros s0 Hs0 Hgid. exfalso. csimpl in Hs0.
    apply list_elem_of_In, List.filter_In in Hs0 as [_ Hne].
    rewrite Hgid, Z.eqb_refl in Hne. done.
Qed.

Lemma replace_standings_completes_iff_witness :
  teams_keyed sample_db ∧ names_unique sample_db
  ∧ (∃ d', replace_standings sample_db 1 sample_rows = Ok d')
  ∧ ¬ (∃ d', replace_standings sample_db 7 sample_rows = Ok d')
  ∧ ∃ d', replace_standings sample_db 7 [] = Ok d'.
Proof.
  assert (teams_keyed sample_db) as Hk
    by (apply (bool_decide_unpack _); vm_compute; exact I).
  assert (names_unique sample_db) as Hn
    by (apply (bool_decide_unpack _); vm_compute; exact I).
  split; [exact Hk|]. split; [exact Hn|]. split; [|split].
  - apply (replace_standings_completes_iff sample_db 1 sample_rows Hk Hn).
    right. split; [reflexivity|].
    apply (bool_decide_unpack _). vm_compute. exact I.
  - intros H.
    apply (replace_standings_completes_iff sample_db 7 sample_rows Hk Hn) in H
      as [H|[H _]]; discriminate H.
  - apply (replace_standings_completes_iff sample_db 7 [] Hk Hn). by left.
Defined.

(** What the generator emits after a replacement, at a concrete store. *)
Lemma generate_standings_after_replace_witness :
  teams_keyed sample_db
  ∧ replace_standings sample_db 1 (reverse sample_rows) = Ok replaced_db
  ∧ Generator.generate_standings replaced_db 1 = sample_rows.
Proof.
  assert (teams_keyed sample_db) as Hk
    by (apply (bool_decide_unpack _); vm_compute; exact I).
  assert (replace_standings sample_db 1 (reverse sample_rows) = Ok replaced_db)
    as Hrun by (vm_compute; reflexivity).
  split; [exact Hk|]. split; [exact Hrun|].
  rewrite (generate_standings_after_replace sample_db replaced_db 1
             (reverse sample_rows) Hk Hrun).
  vm_compute. reflexivity.
Defined.

End StandingsTable.

(** ** History import *)
Section HistoryImport.
Import Store Importer.

Lemma extends_refl (d : db) : extends d d.
Proof.
  repeat split; try done; exists []; by rewrite app_nil_r.
Qed.

Lemma extends_trans (d1 d2 d3 : db) :
  extends d1 d2 → extends d2 d3 → extends d1 d3.
Proof.
  intros (A1 & A2 & A3 & A4 & [ts1 A5] & [ms1 A6])
         (B1 & B2 & B3 & B4 & [ts2 B5] & [ms2 B6]).
  repeat split; try congruence.
  - exists (ts1 ++ ts2)%list. by rewrite B5, A5, app_assoc.
  - exists (ms1 ++ ms2)%list. by rewrite B6, A6, app_assoc.
Qed.

Lemma find_app_found {A} (p : A → bool) (l l' : list A) (x : A) :
  List.find p l = Some x → List.find p (l ++ l') = Some x.
Proof.
  induction l as [|y t IH]; csimpl; [done|]. by destruct (p y).
Qed.

Lemma settled_extends (d d' : db) (gid : Z) (jor home away : string) :
  extends d d' → settled d gid jor home away → settled d' gid jor home away.
Proof.
  intros (_ & _ & _ & _ & [ts Ht] & [ms Hm])
         (hrow & arow & m & Hh & Ha & Hin & Hkey).
  exists hrow, arow, m. unfold select_team in *. rewrite Ht, Hm.
  split; [by apply find_app_found|]. split; [by apply find_app_found|].
  split; [|done]. apply elem_of_app. by left.
Qed.

Lemma settled_tables (d d' : db) (gid : Z) (jor home away : string) :
  tables d' = tables d → settled d gid jor home away →
  settled d' gid jor home away.
Proof.
  intros [= _ _ _ Ht _ Hm] (hrow & arow & m & Hh & Ha & Hin & Hkey).
  exists hrow, arow, m. unfold select_team in *. by rewrite Ht, Hm.
Qed.

(** Without a shield the team upsert at most appends one team. *)
Lemma get_or_create_team_appends (d : db) (nm : string) :
  let r := get_or_create_team d nm None in
  extends d r.2 ∧ ∃ row, select_team r.2 nm = Some row ∧ team_id row = r.1.
Proof.
  pose proof (get_or_create_team_settles d nm None) as (row & Hsel & Hid & _).
  split; [|by exists row].
  unfold get_or_create_team. destruct (select_team d nm); csimpl.
  - apply extends_refl.
  - repeat split; try done; [by eexists|]. exists []. by rewrite app_nil_r.
Qed.

Lemma insert_or_ignore_match_Ok (d d' : db) (gid : Z) (jor : string)
    (dt tm : option string) (hid aid : Z) (hs as_ : option Z)
    (vn : option string) :
  insert_or_ignore_match d gid (Some jor) dt tm hid aid hs as_ vn = Ok d' →
  extends d d'
  ∧ ∃ m, m ∈ matches d' ∧ m_group_id m = gid ∧ jornada m = jor
         ∧ home_team_id m = hid ∧ away_team_id m = aid.
Proof.
  unfold insert_or_ignore_match.
  destruct (existsb _ (matches d)) eqn:Hdup.
  - intros [= <-]. split.
    + repeat split; try done; exists []; by rewrite app_nil_r.
    + apply existsb_exists in Hdup as (m & Hin%list_elem_of_In & Hk).
      unfold same_match_key in Hk.
      apply andb_true_iff in Hk as [Hk Ha%Z.eqb_eq].
      apply andb_true_iff in Hk as [Hk Hh%Z.eqb_eq].
      apply andb_true_iff in Hk as [Hg%Z.eqb_eq Hj%String.eqb_eq].
      by exists m.
  - destruct (group_exists d gid && team_exists d hid && team_exists d aid);
      [|done].
    intros [= <-]. split.
    + repeat split; try done; [exists []; by rewrite app_nil_r|by eexists].
    + eexists. split; [csimpl; apply elem_of_app; right; by left|done].
Qed.

(** One match of a history file: the store is only extended, the match
    is settled afterwards, and what was settled stays settled. *)
Lemma upsert_history_match_run (d d' : db) (gid : Z) (jor : string)
    (dt : option string) (home away : string) (hs as_ : option Z) :
  upsert_history_match d gid jor dt home away hs as_ = Ok d' →
  extends d d' ∧ settled d' gid jor home away.
Proof.
  unfold upsert_history_match.
  pose proof (get_or_create_team_appends d home) as [E1 (hrow & Hh & Hhid)].
  destruct (get_or_create_team d home None) as [hid d1]. csimpl in *.
  pose proof (get_or_create_team_appends d1 away) as [E2 (arow & Ha & Haid)].
  destruct (get_or_create_team d1 away None) as [aid d2]. csimpl in *.
  intros (E3 & m & Hm & Hg & Hj & Hmh & Hma)%insert_or_ignore_match_Ok.
  split; [eauto using extends_trans|].
  destruct E2 as (_ & _ & _ & _ & [ts2 Ht2] & _).
  destruct E3 as (_ & _ & _ & _ & [ts3 Ht3] & _).
  exists hrow, arow, m. unfold select_team in *.
  rewrite Ht3, Ht2.
  split; [by do 2 apply find_app_found|].
  split; [rewrite <- Ht2; by apply find_app_found|].
  split; [done|]. by rewrite Hhid, Haid.
Qed.

(** A settled match is skipped: the call completes and every table
    keeps its rows. *)
Lemma upsert_history_match_settled (d : db) (gid : Z) (jor : string)
    (dt : option string) (home away : string) (hs as_ : option Z) :
  settled d gid jor home away →
  ∃ d', upsert_history_match d gid jor dt home away hs as_ = Ok d'
        ∧ tables d' = tables d.
Proof.
  intros (hrow & arow & m & Hh & Ha & Hin & <- & <- & Hmh & Hma).
  unfold upsert_history_match.
  rewrite (get_or_create_team_found _ _ _ Hh).
  rewrite (get_or_create_team_found _ _ _ Ha).
  unfold insert_or_ignore_match. rewrite <- Hmh, <- Hma.
  rewrite same_match_key_found by done. by eexists.
Qed.

Lemma import_jornada_run (gid : Z) (jor : string) (ms : list hist_match)
    (d d' : db) :
  import_jornada d gid jor ms = Ok d' →
  extends d d'
  ∧ ∀ m, m ∈ ms → settled d' gid jor (hm_home m) (hm_away m).
Proof.
  revert d. induction ms as [|m rest IH]; intros d; csimpl.
  - intros [= <-]. split; [apply extends_refl|]. by intros m H%elem_of_nil.
  - destruct (upsert_history_match d gid jor _ _ _ _ _) as [d1|] eqn:Hstep;
      [|done].
    csimpl. intros (E2 & Hrest)%IH.
    apply upsert_history_match_run in Hstep as [E1 Hm].
    split; [eauto using extends_trans|].
    intros m' [->|Hin]%elem_of_cons; [|by apply Hrest].
    by apply (settled_extends d1).
Qed.

Lemma import_jornada_settled (gid : Z) (jor : string) (ms : list hist_match)
    (d : db) :
  (∀ m, m ∈ ms → settled d gid jor (hm_home m) (hm_away m)) →
  ∃ d', import_jornada d gid jor ms = Ok d' ∧ tables d' = tables d.
Proof.
  revert d. induction ms as [|m rest IH]; intros d Hall; csimpl;
    [by eexists|].
  destruct (upsert_history_match_settled d gid jor (hm_date m) (hm_home m)
              (hm_away m) (hm_hs m) (hm_as m)) as (d1 & -> & Ht1);
    [apply Hall; by left|].
  csimpl. destruct (IH d1) as (d' & -> & Ht').
  - intros m' Hin. apply (settled_tables d); [done|]. apply Hall. by right.
  - exists d'. split; [done|congruence].
Qed.

Lemma import_jornadas_run (gid : Z) (jornadas : list (string * list hist_match))
    (d d' : db) :
  import_jornadas d gid jornadas = Ok d' →
  extends d d'
  ∧ ∀ jm m, jm ∈ jornadas → m ∈ jm.2 →
      settled d' gid jm.1 (hm_home m) (hm_away m).
Proof.
  revert d. induction jornadas as [|jm rest IH]; intros d; csimpl.
  - intros [= <-]. split; [apply extends_refl|]. by intros jm m H%elem_of_nil.
  - destruct (import_jornada d gid jm.1 jm.2) as [d1|] eqn:Hstep; [|done].
    csimpl. intros (E2 & Hrest)%IH.
    apply import_jornada_run in Hstep as [E1 Hm].
    split; [eauto using extends_trans|].
    intros jm' m [->|Hin]%elem_of_cons Hmin; [|by apply Hrest].
    apply (settled_extends d1); [done|]. by apply Hm.
Qed.

Lemma import_jornadas_settled (gid : Z)
    (jornadas : list (string * list hist_match)) (d : db) :
  (∀ jm m, jm ∈ jornadas → m ∈ jm.2 →
     settled d gid jm.1 (hm_home m) (hm_away m)) →
  ∃ d', import_jornadas d gid jornadas = Ok d' ∧ tables d' = tables d.
Proof.
  revert d. induction jornadas as [|jm rest IH]; intros d Hall; csimpl;
    [by eexists|].
  destruct (import_jornada_settled gid jm.1 jm.2 d) as (d1 & -> & Ht1);
    [intros m Hm; apply Hall; [by left|done]|].
  csimpl. destruct (IH d1) as (d' & -> & Ht').
  - intros jm' m Hin Hm. apply (settled_tables d); [done|].
    apply Hall; [by right|done].
  - exists d'. split; [done|congruence].
Qed.

Lemma select_group_by_code_extends (d d' : db) (sid : Z) (c : string) :
  groups d' = groups d →
  select_group_by_code d' sid c = select_group_by_code d sid c.
Proof. unfold select_group_by_code. by intros ->. Qed.

Lemma import_history_run (sid : Z)
    (data : list (string * list (string * list hist_match))) (d d' : db) :
  import_history d sid data = Ok d' →
  extends d d' ∧ history_settled d' sid data.
Proof.
  revert d. induction data as [|gj rest IH]; intros d; csimpl.
  - intros [= <-]. split; [apply extends_refl|].
    by intros gj row jm m H%elem_of_nil.
  - destruct (select_group_by_code d sid gj.1) as [row|] eqn:Hsel.
    + destruct (import_jornadas d (group_id row) gj.2) as [d1|] eqn:Hstep;
        [|done].
      csimpl. intros (E2 & Hrest)%IH.
      apply import_jornadas_run in Hstep as [E1 Hm].
      split; [eauto using extends_trans|].
      intros gj' row' jm m [->|Hin]%elem_of_cons Hsel' Hjm Hmin;
        [|by eapply Hrest].
      assert (row' = row) as ->.
      { pose proof (extends_trans _ _ _ E1 E2) as (_ & _ & Hg & _).
        rewrite (select_group_by_code_extends d d') in Hsel' by done.
        congruence. }
      apply (settled_extends d1); [done|]. by apply Hm.
    + intros (E & Hrest)%IH. split; [done|].
      intros gj' row' jm m [->|Hin]%elem_of_cons Hsel' Hjm Hmin;
        [|by eapply Hrest].
      destruct E as (_ & _ & Hg & _).
      rewrite (select_group_by_code_extends d d') in Hsel' by done.
      congruence.
Qed.

Lemma import_history_settled (sid : Z)
    (data : list (string * list (string * list hist_match))) (d : db) :
  history_settled d sid data →
  ∃ d', import_history d sid data = Ok d' ∧ tables d' = tables d.
Proof.
  revert d. induction data as [|gj rest IH]; intros d Hall; csimpl;
    [by eexists|].
  destruct (select_group_by_code d sid gj.1) as [row|] eqn:Hsel.
  - destruct (import_jornadas_settled (group_id row) gj.2 d)
      as (d1 & -> & Ht1).
    { intros jm m Hjm Hm. eapply (Hall gj row jm m); [by left|done..]. }
    csimpl. destruct (IH d1) as (d' & -> & Ht').
    + intros gj' row' jm m Hin Hsel' Hjm Hm.
      apply (settled_tables d); [done|].
      apply (Hall gj' row' jm m); [by right| |done..].
      rewrite <- Hsel'. symmetry. apply select_group_by_code_extends.
      by injection Ht1.
    + exists d'. split; [done|congruence].
  - apply IH. intros gj' row' jm m Hin. apply Hall. by right.
Qed.

(** X6. Importing the same HISTORY file a second time adds nothing: once an
    import has completed, importing the file again completes too, and
    every table holds after it exactly the rows it held before. *)
Theorem import_history_idempotent (sid : Z)
    (data : list (string * list (string * list hist_match))) (d d1 : db) :
  import_history d sid data = Ok d1 →
  ∃ d2, import_history d1 sid data = Ok d2 ∧ tables d2 = tables d1.
Proof.
  intros [_ Hall]%import_history_run. by apply import_history_settled.
Qed.

Lemma import_history_idempotent_witness :
  import_history sample_db 1 sample_history = Ok imported_db
  ∧ length (matches imported_db) = 3%nat
  ∧ length (teams imported_db) = 4%nat
  ∧ ∃ d2, import_history imported_db 1 sample_history = Ok d2
          ∧ tables d2 = tables imported_db.
Proof.
  assert (import_history sample_db 1 sample_history = Ok imported_db) as Hrun
    by (vm_compute; reflexivity).
  split; [exact Hrun|]. split; [reflexivity|]. split; [reflexivity|].
  exact (import_history_idempotent 1 sample_history sample_db imported_db Hrun).
Defined.

(** X7. The history import only ever appends: when it completes, the
    seasons, categories, groups and standings are untouched, and the
    teams and the matches that were stored are all still there,
    unchanged and in place, followed by the new ones.  No stored score
    is ever rewritten. *)
Theorem import_history_appends (sid : Z)
    (data : list (string * list (string * list hist_match))) (d d' : db) :
  import_history d sid data = Ok d' → extends d d'.
Proof. by intros [E _]%import_history_run. Qed.

Lemma import_history_appends_witness :
  import_history sample_db 1 sample_history = Ok imported_db
  ∧ extends sample_db imported_db
  ∧ home_score <$> matches imported_db = [None; Some 2; Some 0].
Proof.
  assert (import_history sample_db 1 sample_history = Ok imported_db) as Hrun
    by (vm_compute; reflexivity).
  split; [exact Hrun|].
  split; [exact (import_history_appends 1 sample_history _ _ Hrun)|].
  reflexivity.
Defined.

(** X8. A HISTORY file none of whose group codes is in the season changes
    nothing, not even the teams table. *)
Theorem import_history_unknown_groups (sid : Z)
    (data : list (string * list (string * list hist_match))) (d : db) :
  (∀ gj, gj ∈ data → select_group_by_code d sid gj.1 = None) →
  import_history d sid data = Ok d.
Proof.
  induction data as [|gj rest IH]; intros Hall; csimpl; [done|].
  rewrite (Hall gj) by (by left). apply IH. intros gj' Hin. apply Hall.
  by right.
Qed.

Lemma import_history_unknown_groups_witness :
  import_history sample_db 2 sample_history = Ok sample_db.
Proof.
  apply (import_history_unknown_groups 2 sample_history sample_db).
  intros gj Hin. repeat (apply elem_of_cons in Hin as [->|Hin]; [reflexivity|]).
  by apply elem_of_nil in Hin.
Defined.

End HistoryImport.

(** ** The generator's match lists *)
Section MatchLists.
Import Store Projection.

Lemma team_exists_elem (d : db) (tid : Z) :
  team_exists d tid = true → ∃ t, t ∈ teams d ∧ team_id t = tid.
Proof.
  unfold team_exists. intros (t & Hin%list_elem_of_In & Hid%Z.eqb_eq)%existsb_exists.
  by exists t.
Qed.

Lemma elem_of_join_match (ts : list team) (m : match_row) (o : match_out) :
  o ∈ join_match ts m →
  ∃ th ta, th ∈ ts ∧ ta ∈ ts ∧ team_id th = home_team_id m
    ∧ team_id ta = away_team_id m
    ∧ o = MatchOut (date m) (time m) (team_name th) (team_name ta)
                   (home_score m) (away_score m) (venue m).
Proof.
  unfold join_match.
  intros (th & (ta & Ho & Hta)%list_elem_of_bind & Hth)%list_elem_of_bind.
  apply list_elem_of_singleton in Ho.
  apply list_elem_of_In, List.filter_In in Hth as [Hth%list_elem_of_In Hh%Z.eqb_eq].
  apply list_elem_of_In, List.filter_In in Hta as [Hta%list_elem_of_In Ha%Z.eqb_eq].
  by exists th, ta.
Qed.

Lemma join_match_single (d : db) (m : match_row) :
  teams_keyed d →
  team_exists d (home_team_id m) = true →
  team_exists d (away_team_id m) = true →
  length (join_match (teams d) m) = 1%nat.
Proof.
  intros Hkey (th & Hth & Hh)%team_exists_elem (ta & Hta & Ha)%team_exists_elem.
  unfold join_match. rewrite <- Hh, <- Ha.
  rewrite !filter_unique_id by done. done.
Qed.

Lemma bind_filter_length {A B} (p : A → bool) (f : A → list B) (l : list A) :
  (∀ x, x ∈ l → p x = true → length (f x) = 1%nat) →
  length (x ← l; if p x then f x else []) = length (List.filter p l).
Proof.
  induction l as [|x t IH]; intros H; csimpl; [done|].
  rewrite length_app, IH by (intros; apply H; [by right|done]).
  destruct (p x) eqn:E; csimpl; [|done].
  rewrite (H x) by (done || by left). done.
Qed.

(** X9. The fixtures of a group in the category file are those of its
    current matchday and nothing else: a group without a current
    matchday gets none; every emitted fixture is a stored match of the
    group and of that matchday, with its date, time, scores and venue
    and the names of its two teams; and, on a store that honours its
    keys, every such stored match is emitted once. *)
Theorem generate_matches_current (d : db) (gid : Z) (cur : option string) :
  teams_keyed d → match_teams_stored d →
  (cur = None → generate_matches d gid cur = [])
  ∧ (∀ j, cur = Some j →
       length (generate_matches d gid cur)
       = length (List.filter
                   (λ m, (m_group_id m =? gid) && String.eqb (jornada m) j)
                   (matches d)))
  ∧ (∀ o, o ∈ generate_matches d gid cur →
       ∃ m th ta, m ∈ matches d ∧ m_group_id m = gid
         ∧ cur = Some (jornada m)
         ∧ th ∈ teams d ∧ team_id th = home_team_id m
         ∧ ta ∈ teams d ∧ team_id ta = away_team_id m
         ∧ o = MatchOut (date m) (time m) (team_name th) (team_name ta)
                        (home_score m) (away_score m) (venue m)).
Proof.
  intros Hkey Hfk. split; [by intros ->|]. split.
  - intros j ->. unfold generate_matches.
    rewrite stable_sort_length. apply bind_filter_length.
    intros m Hm _. destruct (Hfk m Hm). by apply join_match_single.
  - destruct cur as [j|]; csimpl; [|by intros o H%elem_of_nil].
    intros o Ho. rewrite stable_sort_perm in Ho.
    apply list_elem_of_bind in Ho as (m & Ho & Hm).
    destruct ((m_group_id m =? gid) && String.eqb (jornada m) j) eqn:Hc;
      [|by apply elem_of_nil in Ho].
    apply andb_true_iff in Hc as [Hg%Z.eqb_eq Hj%String.eqb_eq].
    apply elem_of_join_match in Ho as (th & ta & Hth & Hta & Hh & Ha & ->).
    exists m, th, ta. by rewrite Hj.
Qed.

Lemma generate_matches_current_witness :
  teams_keyed imported_db ∧ match_teams_stored imported_db
  ∧ generate_matches imported_db 1 (Some "Jornada 3")
    = [MatchOut (Some "07/03") None "Telde" "Arucas" (Some 2) (Some 2) None;
       MatchOut (Some "07/03") None "Moya" "Firgas" (Some 0) (Some 1) None]
  ∧ generate_matches imported_db 1 None = []
  ∧ length (generate_matches imported_db 1 (Some "Jornada 4")) = 1%nat.
Proof.
  assert (teams_keyed imported_db) as Hk
    by (apply (bool_decide_unpack _); vm_compute; exact I).
  assert (match_teams_stored imported_db) as Hfk.
  { intros m Hm. unfold imported_db in Hm. csimpl in Hm.
    repeat (apply elem_of_cons in Hm as [->|Hm]; [by vm_compute|]).
    by apply elem_of_nil in Hm. }
  split; [exact Hk|]. split; [exact Hfk|]. split; [vm_compute; reflexivity|].
  destruct (generate_matches_current imported_db 1 None Hk Hfk) as (H1 & _).
  split; [by apply H1|].
  destruct (generate_matches_current imported_db 1 (Some "Jornada 4") Hk Hfk)
    as (_ & H2 & _).
  by rewrite (H2 "Jornada 4").
Defined.

(** *** The history file *)

Lemma dict_set_Forall {V} (P : string * V → Prop) (k : string) (v : V)
    (dct : list (string * V)) :
  Forall P dct → P (k, v) → Forall P (dict_set k v dct).
Proof.
  induction 1 as [|kv rest Hkv Hrest IH]; intros Hnew; csimpl.
  - by repeat constructor.
  - destruct (String.eqb_spec kv.1 k) as [->|_]; constructor; auto.
Qed.

Lemma elem_of_join_hist (ts : list team) (m : match_row) (r : hist_out) :
  r ∈ join_hist ts m →
  ho_date r = date m ∧ ho_hs r = home_score m ∧ ho_as r = away_score m
  ∧ ∃ th ta, th ∈ ts ∧ ta ∈ ts ∧ team_id th = home_team_id m
      ∧ team_id ta = away_team_id m
      ∧ ho_home r = team_name th ∧ ho_away r = team_name ta.
Proof.
  unfold join_hist.
  intros (th & (ta & Ho & Hta)%list_elem_of_bind & Hth)%list_elem_of_bind.
  apply list_elem_of_singleton in Ho as ->. csimpl.
  apply list_elem_of_In, List.filter_In in Hth as [Hth%list_elem_of_In Hh%Z.eqb_eq].
  apply list_elem_of_In, List.filter_In in Hta as [Hta%list_elem_of_In Ha%Z.eqb_eq].
  repeat split. by exists th, ta.
Qed.

(** What a row of a matchday of a group's history is. *)
Lemma elem_of_history_rows (d : db) (gid : Z) (jor : string) (r : hist_out) :
  r ∈ history_rows d gid jor →
  ∃ m, m ∈ matches d ∧ m_group_id m = gid ∧ jornada m = jor
    ∧ home_score m ≠ None
    ∧ ho_date r = date m ∧ ho_hs r = home_score m ∧ ho_as r = away_score m.
Proof.
  unfold history_rows. rewrite stable_sort_perm.
  intros (m & Hr & Hm)%list_elem_of_bind.
  destruct ((m_group_id m =? gid) && String.eqb (jornada m) jor
            && bool_decide (home_score m ≠ None)) eqn:Hc;
    [|by apply elem_of_nil in Hr].
  apply andb_true_iff in Hc as [Hc Hs%bool_decide_eq_true].
  apply andb_true_iff in Hc as [Hg%Z.eqb_eq Hj%String.eqb_eq].
  apply elem_of_join_hist in Hr as (Hd & Hhs & Has & _).
  by exists m.
Qed.

Lemma group_history_values (d : db) (gid : Z) :
  Forall (λ jr, jr.2 ≠ [] ∧ jr.2 = history_rows d gid jr.1)
         (group_history d gid).
Proof.
  unfold group_history.
  generalize (Generator.select_scored_jornadas d gid).
  assert (Forall (λ jr : string * list hist_out,
                    jr.2 ≠ [] ∧ jr.2 = history_rows d gid jr.1) []) as Hacc
    by constructor.
  revert Hacc. generalize (@nil (string * list hist_out)).
  intros acc Hacc l. revert acc Hacc.
  induction l as [|jor rest IH]; intros acc Hacc; csimpl; [done|].
  apply IH. destruct (history_rows d gid jor) as [|r rows] eqn:Hrows; [done|].
  apply dict_set_Forall; [done|]. csimpl. by rewrite Hrows.
Qed.

Lemma generate_history_values (d : db) (sid : Z) :
  Forall (λ cg, cg.2 ≠ [] ∧ ∃ g, g ∈ groups d ∧ g_season_id g = sid
                  ∧ code g = cg.1 ∧ cg.2 = group_history d (group_id g))
         (generate_history d sid).
Proof.
  unfold generate_history.
  assert (∀ g, g ∈ List.filter (λ g, g_season_id g =? sid) (groups d) →
               g ∈ groups d ∧ g_season_id g = sid) as Hsrc.
  { intros g [Hin%list_elem_of_In Hs%Z.eqb_eq]%list_elem_of_In%List.filter_In.
    done. }
  revert Hsrc. generalize (List.filter (λ g, g_season_id g =? sid) (groups d)).
  assert (Forall (λ cg : string * list (string * list hist_out),
                    cg.2 ≠ [] ∧ ∃ g, g ∈ groups d ∧ g_season_id g = sid
                      ∧ code g = cg.1 ∧ cg.2 = group_history d (group_id g))
                 []) as Hacc by constructor.
  revert Hacc. generalize (@nil (string * list (string * list hist_out))).
  intros acc Hacc l. revert acc Hacc.
  induction l as [|g rest IH]; intros acc Hacc Hsrc; csimpl; [done|].
  apply IH; [|intros g' Hg'; apply Hsrc; by right].
  destruct (Generator.select_scored_jornadas d (group_id g)); [done|].
  destruct (group_history d (group_id g)) as [|jr gh] eqn:Hgh; [done|].
  apply dict_set_Forall; [done|]. csimpl. split; [done|].
  exists g. destruct (Hsrc g) as [Hin Hs]; [by left|]. by rewrite Hgh.
Qed.

(** X10. The history file never holds an empty group or an empty matchday,
    and every match in it is a stored match of that group and matchday
    with a home score: a fixture that has not been played is never
    part of the history. *)
Theorem generate_history_scored (d : db) (sid : Z) (c : string)
    (gh : list (string * list hist_out)) :
  (c, gh) ∈ generate_history d sid →
  gh ≠ []
  ∧ ∃ g, g ∈ groups d ∧ g_season_id g = sid ∧ code g = c
      ∧ ∀ jor rows, (jor, rows) ∈ gh →
          rows ≠ []
          ∧ ∀ r, r ∈ rows →
              ho_hs r ≠ None
              ∧ ∃ m, m ∈ matches d ∧ m_group_id m = group_id g
                  ∧ jornada m = jor ∧ ho_date r = date m
                  ∧ ho_hs r = home_score m ∧ ho_as r = away_score m.
Proof.
  intros Hin.
  pose proof (generate_history_values d sid) as Hall.
  rewrite Forall_forall in Hall.
  destruct (Hall _ Hin) as (Hne & g & Hg & Hs & Hc & Hgh). csimpl in *.
  split; [done|]. exists g. split; [done|]. split; [done|]. split; [done|].
  intros jor rows Hjr.
  pose proof (group_history_values d (group_id g)) as Hvals.
  rewrite Forall_forall in Hvals. rewrite Hgh in Hjr.
  destruct (Hvals _ Hjr) as (Hrne & Hrows). csimpl in *.
  split; [done|]. intros r Hr. rewrite Hrows in Hr.
  apply elem_of_history_rows in Hr as (m & Hm & Hmg & Hmj & Hsc & Hd & Hhs & Has).
  split; [congruence|]. by exists m.
Qed.

Lemma generate_history_scored_witness :
  generate_history imported_db 1
  = [("A2",
      [("Jornada 3",
        [HistOut (Some "07/03") "Telde" "Arucas" (Some 2) (Some 2);
         HistOut (Some "07/03") "Moya" "Firgas" (Some 0) (Some 1)])])]
  ∧ ∃ g, g ∈ groups imported_db ∧ code g = "A2"
      ∧ ∀ jor rows,
          (jor, rows) ∈ [("Jornada 3",
                          [HistOut (Some "07/03") "Telde" "Arucas"
                                   (Some 2) (Some 2);
                           HistOut (Some "07/03") "Moya" "Firgas"
                                   (Some 0) (Some 1)])] →
          rows ≠ [] ∧ ∀ r, r ∈ rows → ho_hs r ≠ None.
Proof.
  assert (generate_history imported_db 1
          = [("A2",
              [("Jornada 3",
                [HistOut (Some "07/03") "Telde" "Arucas" (Some 2) (Some 2);
                 HistOut (Some "07/03") "Moya" "Firgas" (Some 0) (Some 1)])])])
    as Hrun by (vm_compute; reflexivity).
  split; [exact Hrun|].
  destruct (generate_history_scored imported_db 1 "A2"
              [("Jornada 3",
                [HistOut (Some "07/03") "Telde" "Arucas" (Some 2) (Some 2);
                 HistOut (Some "07/03") "Moya" "Firgas" (Some 0) (Some 1)])])
    as (_ & g & Hg & _ & Hc & Hall).
  { rewrite Hrun. by left. }
  exists g. split; [exact Hg|]. split; [exact Hc|].
  intros jor rows Hin. destruct (Hall jor rows Hin) as [Hne Hrows].
  split; [exact Hne|]. intros r Hr. by destruct (Hrows r Hr).
Defined.

End MatchLists.

(** ** Shields: import and projection *)
Section Shields.
Import Store Importer Projection.

Lemma team_upsert_wf (d : db) (nm : string) (sh : option string) :
  teams_keyed d → names_unique d →
  teams_keyed (get_or_create_team d nm sh).2
  ∧ names_unique (get_or_create_team d nm sh).2.
Proof.
  unfold teams_keyed, names_unique, get_or_create_team, select_team.
  intros Hids Hnames.
  destruct (List.find _ (teams d)) as [row|] eqn:Hsel; csimpl.
  - destruct (truthy sh); csimpl; [|done].
    by rewrite update_shield_ids, update_shield_names.
  - rewrite !fmap_app. csimpl. split.
    + apply NoDup_app. split; [done|]. split; [|apply NoDup_singleton].
      intros x Hx [->|[]%elem_of_nil]%elem_of_cons.
      by apply next_rowid_fresh in Hx.
    + apply NoDup_app. split; [done|]. split; [|apply NoDup_singleton].
      intros x Hx [->|[]%elem_of_nil]%elem_of_cons.
      by apply find_name_None in Hsel.
Qed.

(** A name that is a key selects the row that carries it. *)
Lemma select_team_unique (d : db) (row : team) :
  names_unique d → row ∈ teams d → select_team d (team_name row) = Some row.
Proof.
  unfold names_unique, select_team. induction (teams d) as [|t r IH]; csimpl;
    [by intros _ H%elem_of_nil|].
  intros [Ht Hr]%NoDup_cons [->|Hin]%elem_of_cons.
  - by rewrite String.eqb_refl.
  - destruct (String.eqb_spec (team_name t) (team_name row)) as [Heq|_];
      [|by apply IH].
    destruct Ht. rewrite Heq. by apply list_elem_of_fmap_2.
Qed.

Lemma select_team_name (d : db) (nm : string) (row : team) :
  select_team d nm = Some row → row ∈ teams d ∧ team_name row = nm.
Proof.
  intros [Hin Hnm%String.eqb_eq]%List.find_some.
  by apply list_elem_of_In in Hin.
Qed.

(** A call for another name leaves a row alone. *)
Lemma team_upsert_keeps_row (d : db) (nm : string) (sh : option string)
    (row : team) :
  teams_keyed d → row ∈ teams d → team_name row ≠ nm →
  row ∈ teams (get_or_create_team d nm sh).2.
Proof.
  intros Hkey Hrow Hne. unfold get_or_create_team.
  destruct (select_team d nm) as [row'|] eqn:Hsel; csimpl.
  - destruct (truthy sh); [|done]. csimpl.
    apply select_team_name in Hsel as [Hin' Hnm'].
    apply list_elem_of_fmap. exists row. split; [|done].
    unfold update_shield.
    destruct (Z.eqb_spec (team_id row) (team_id row')) as [Heq|]; [|done].
    destruct Hne. rewrite <- Hnm'. f_equal.
    by apply (NoDup_fmap_inj_on team_id (teams d)).
  - apply elem_of_app. by left.
Qed.

Lemma team_upsert_sets (d : db) (nm : string) (sh : option string) :
  truthy sh = true →
  ∃ row, row ∈ teams (get_or_create_team d nm sh).2
         ∧ team_name row = nm ∧ shield_filename row = sh.
Proof.
  intros Hsh. unfold get_or_create_team.
  destruct (select_team d nm) as [row|] eqn:Hsel; csimpl; rewrite ?Hsh; csimpl.
  - apply select_team_name in Hsel as [Hin Hnm].
    exists (update_shield (team_id row) sh row). split.
    + by apply list_elem_of_fmap_2.
    + unfold update_shield. by rewrite Z.eqb_refl.
  - eexists. split; [apply elem_of_app; right; by left|done].
Qed.

Lemma team_upsert_names (d : db) (nm : string) (sh : option string) (x : string) :
  x ∈ team_name <$> teams (get_or_create_team d nm sh).2 →
  x = nm ∨ x ∈ team_name <$> teams d.
Proof.
  unfold get_or_create_team.
  destruct (select_team d nm) as [row|] eqn:Hsel; csimpl.
  - destruct (truthy sh); csimpl; [|by right].
    rewrite update_shield_names. by right.
  - rewrite fmap_app. csimpl.
    intros [Hx|Hx%list_elem_of_singleton]%elem_of_app; [by right|by left].
Qed.

Lemma import_shields_wf (data : list (string * option string)) (d : db) :
  teams_keyed d → names_unique d →
  teams_keyed (import_shields d data) ∧ names_unique (import_shields d data).
Proof.
  revert d. induction data as [|[nm sh] rest IH]; intros d Hk Hn; csimpl;
    [done|].
  destruct (team_upsert_wf d nm sh Hk Hn). by apply IH.
Qed.

Lemma import_shields_keeps_row (data : list (string * option string))
    (d : db) (row : team) :
  teams_keyed d → names_unique d → row ∈ teams d →
  team_name row ∉ data.*1 → row ∈ teams (import_shields d data).
Proof.
  revert d. induction data as [|[nm sh] rest IH]; intros d Hk Hn Hrow Hout;
    csimpl; [done|].
  csimpl in Hout. apply not_elem_of_cons in Hout as [Hne Hout].
  destruct (team_upsert_wf d nm sh Hk Hn).
  apply IH; [done..| |done]. by apply team_upsert_keeps_row.
Qed.

Lemma import_shields_names (data : list (string * option string)) (d : db)
    (x : string) :
  x ∈ team_name <$> teams (import_shields d data) →
  x ∈ data.*1 ∨ x ∈ team_name <$> teams d.
Proof.
  revert d. induction data as [|[nm sh] rest IH]; intros d; csimpl;
    [by right|].
  intros [Hx|Hx]%IH; [left; by right|].
  apply team_upsert_names in Hx as [->|Hx]; [left; by left|by right].
Qed.

Lemma import_shields_sets (data : list (string * option string)) (d : db)
    (nm : string) (sh : option string) :
  teams_keyed d → names_unique d → NoDup data.*1 →
  (nm, sh) ∈ data → truthy sh = true →
  ∃ row, row ∈ teams (import_shields d data)
         ∧ team_name row = nm ∧ shield_filename row = sh.
Proof.
  revert d. induction data as [|[nm' sh'] rest IH]; intros d Hk Hn Hnd Hin Hsh;
    csimpl; [by apply elem_of_nil in Hin|].
  csimpl in Hnd. apply NoDup_cons in Hnd as [Hfresh Hnd].
  destruct (team_upsert_wf d nm' sh' Hk Hn) as [Hk1 Hn1].
  apply elem_of_cons in Hin as [[= <- <-]|Hin]; [|by apply IH].
  destruct (team_upsert_sets d nm sh Hsh) as (row & Hrow & Hnm & Hshield).
  exists row. split; [|done].
  apply import_shields_keeps_row; [done..|]. by rewrite Hnm.
Qed.

(** *** Reading the dict back *)

Lemma dict_set_fresh {V} (k : string) (v : V) (dct : list (string * V)) :
  k ∉ dct.*1 → dict_set k v dct = (dct ++ [(k, v)])%list.
Proof.
  induction dct as [|kv rest IH]; csimpl; [done|].
  intros [Hne Hrest]%not_elem_of_cons.
  destruct (String.eqb_spec kv.1 k) as [Heq|_]; [by destruct Hne|].
  by rewrite IH.
Qed.

Lemma dict_from_rows {V} (acc rows : list (string * V)) :
  NoDup ((acc ++ rows)%list).*1 →
  foldl (λ a kv, dict_set kv.1 kv.2 a) acc rows = (acc ++ rows)%list.
Proof.
  revert acc. induction rows as [|[k v] rest IH]; intros acc Hnd; csimpl.
  - by rewrite app_nil_r.
  - rewrite dict_set_fresh.
    + rewrite IH; [by rewrite <- app_assoc|]. by rewrite <- app_assoc.
    + rewrite fmap_app in Hnd. apply NoDup_app in Hnd as (_ & Hdis & _).
      intros Hk. apply (Hdis k Hk). csimpl. by left.
Qed.

Lemma dict_get_elem {V} (k : string) (v : V) (dct : list (string * V)) :
  NoDup dct.*1 → (k, v) ∈ dct → dict_get k dct = Some v.
Proof.
  unfold dict_get. induction dct as [|kv rest IH]; csimpl;
    [by intros _ H%elem_of_nil|].
  intros [Hk Hnd]%NoDup_cons [<-|Hin]%elem_of_cons.
  - csimpl. by rewrite String.eqb_refl.
  - destruct (String.eqb_spec kv.1 k) as [Heq|_]; [|by apply IH].
    destruct Hk. rewrite Heq. apply list_elem_of_fmap. by exists (k, v).
Qed.

Lemma dict_get_None {V} (k : string) (dct : list (string * V)) :
  k ∉ dct.*1 → dict_get k dct = None.
Proof.
  unfold dict_get. induction dct as [|kv rest IH]; csimpl; [done|].
  intros [Hne Hrest]%not_elem_of_cons.
  destruct (String.eqb_spec kv.1 k) as [Heq|_]; [by destruct Hne|].
  by apply IH.
Qed.

Lemma shield_rows_keys (ts : list team) :
  NoDup (team_name <$> ts) →
  NoDup (omap (λ t, match shield_filename t with
                    | Some fn => Some (team_name t, fn)
                    | None => None
                    end) ts).*1.
Proof.
  induction ts as [|t r IH]; csimpl; [constructor|].
  intros [Ht Hr]%NoDup_cons. destruct (shield_filename t); csimpl; [|by apply IH].
  apply NoDup_cons. split; [|by apply IH].
  intros ([k v] & Hk & (t' & Ht' & Hkv)%list_elem_of_omap)%list_elem_of_fmap.
  csimpl in Hk. destruct (shield_filename t'); [|done].
  injection Hkv as <- <-. apply Ht. rewrite Hk. by apply list_elem_of_fmap_2.
Qed.

(** The projection of the shields is the teams table read by name. *)
Lemma generate_shields_lookup (d : db) (nm : string) :
  names_unique d →
  dict_get nm (generate_shields d) = select_team d nm ≫= shield_filename.
Proof.
  intros Hn. unfold generate_shields, select_shields.
  set (rows := omap _ (teams d)).
  assert (NoDup rows.*1) as Hkeys by by apply shield_rows_keys.
  set (sorted := stable_sort _ rows).
  assert (sorted ≡ₚ rows) as Hperm by apply stable_sort_perm.
  assert (NoDup sorted.*1) as Hskeys by by rewrite Hperm.
  rewrite (dict_from_rows [] sorted) by done. csimpl.
  assert (∀ fn, (nm, fn) ∈ sorted ↔
                ∃ t, t ∈ teams d ∧ team_name t = nm
                     ∧ shield_filename t = Some fn) as Hmem.
  { intros fn. rewrite Hperm. unfold rows. rewrite list_elem_of_omap. split.
    - intros (t & Ht & Hkv). exists t. destruct (shield_filename t); [|done].
      by injection Hkv as <- <-.
    - intros (t & Ht & Hnm & Hsh). exists t. by rewrite Hsh, Hnm. }
  destruct (select_team d nm) as [row|] eqn:Hsel; csimpl.
  - apply select_team_name in Hsel as [Hrow Hnm].
    destruct (shield_filename row) as [fn|] eqn:Hsh.
    + apply dict_get_elem; [done|]. apply Hmem. by exists row.
    + apply dict_get_None.
      intros ([k fn] & -> & Hin)%list_elem_of_fmap. csimpl in Hin.
      apply Hmem in Hin as (t & Ht & Htn & Hts).
      assert (t = row) as ->; [|congruence].
      apply (NoDup_fmap_inj_on team_name (teams d)); [done..|congruence].
  - apply dict_get_None.
    intros ([k fn] & -> & Hin)%list_elem_of_fmap. csimpl in Hin.
    apply Hmem in Hin as (t & Ht & Htn & Hts).
    apply find_name_None in Hsel. apply Hsel. rewrite <- Htn.
    by apply list_elem_of_fmap_2.
Qed.

(** X11. Shields, in and out: after a SHIELDS file (a dict, each name once)
    has been imported, the shields projection maps every name the file
    gives a non-empty shield to exactly that shield, and maps every
    name the file does not mention to what it mapped it to before. *)
Theorem import_shields_round_trip (d : db)
    (data : list (string * option string)) (nm : string) :
  teams_keyed d → names_unique d → NoDup data.*1 →
  (∀ fn, (nm, Some fn) ∈ data → fn ≠ EmptyString →
     dict_get nm (generate_shields (import_shields d data)) = Some fn)
  ∧ (nm ∉ data.*1 →
     dict_get nm (generate_shields (import_shields d data))
     = dict_get nm (generate_shields d)).
Proof.
  intros Hk Hn Hnd.
  destruct (import_shields_wf data d Hk Hn) as [Hk' Hn'].
  rewrite !generate_shields_lookup by done. split.
  - intros fn Hin Hne.
    destruct (import_shields_sets data d nm (Some fn) Hk Hn Hnd Hin)
      as (row & Hrow & <- & Hsh); [by destruct fn|].
    by rewrite (select_team_unique _ row Hn' Hrow).
  - intros Hout. destruct (select_team d nm) as [row|] eqn:Hsel.
    + apply select_team_name in Hsel as [Hrow <-].
      rewrite (select_team_unique _ row Hn'); [done|].
      by apply import_shields_keeps_row.
    + destruct (select_team (import_shields d data) nm) as [row|] eqn:Hsel';
        [|done].
      apply select_team_name in Hsel' as [Hrow <-].
      apply find_name_None in Hsel. exfalso.
      destruct (import_shields_names data d (team_name row)) as [H|H];
        [by apply list_elem_of_fmap_2|done|done].
Qed.

Lemma import_shields_round_trip_witness :
  teams_keyed sample_db ∧ names_unique sample_db
  ∧ generate_shields sample_db = [("Arucas", "arucas.png")]
  ∧ dict_get "Moya" (generate_shields (import_shields sample_db sample_shields))
    = Some "moya.png"
  ∧ dict_get "Arucas" (generate_shields (import_shields sample_db sample_shields))
    = Some "arucas.png"
  ∧ dict_get "Agaete"
      (generate_shields
         (import_shields sample_db [("Telde", Some "telde.png")]))
    = dict_get "Agaete" (generate_shields sample_db).
Proof.
  assert (teams_keyed sample_db) as Hk
    by (apply (bool_decide_unpack _); vm_compute; exact I).
  assert (names_unique sample_db) as Hn
    by (apply (bool_decide_unpack _); vm_compute; exact I).
  split; [exact Hk|]. split; [exact Hn|]. split; [vm_compute; reflexivity|].
  split; [|split].
  - destruct (import_shields_round_trip sample_db sample_shields "Moya" Hk Hn)
      as [H _]; [apply (bool_decide_unpack _); vm_compute; exact I|].
    apply H; [|discriminate]. right. by left.
  - vm_compute. reflexivity.
  - destruct (import_shields_round_trip sample_db [("Telde", Some "telde.png")]
                "Agaete" Hk Hn) as [_ H];
      [apply (bool_decide_unpack _); vm_compute; exact I|].
    apply H. intros [[=]|[]%elem_of_nil]%elem_of_cons.
Defined.

End Shields.

(** ** The client: handlers and rendering *)
Section Handlers.
Import Client Views.

Lemma renderIsla_frame (E : data) (S : state) :
  let S' := renderIsla E S in
  cat S' = cat S ∧ section S' = section S ∧ search S' = search S
  ∧ jorGroup S' = jorGroup S ∧ jorNum S' = jorNum S
  ∧ golGroup S' = golGroup S
  ∧ (Some (island S) ∈ g_island <$> getData E S → island S' = island S).
Proof.
  unfold renderIsla. case_bool_decide; csimpl; done.
Qed.

(** X12. Typing in the search box stores the term and touches nothing else
    of the selection, whatever the section; the only other field a
    keystroke can change is the island, and only on the island tab
    when no group of the category is on the selected island.  On the
    matchday and scorer tabs nothing is rendered again. *)
Theorem search_input_frame (E : data) (term : string) (S : state) :
  let S' := search_input E term S in
  search S' = term ∧ cat S' = cat S ∧ section S' = section S
  ∧ jorGroup S' = jorGroup S ∧ jorNum S' = jorNum S
  ∧ golGroup S' = golGroup S
  ∧ (island S' ≠ island S →
     section S = isla ∧ Some (island S) ∉ g_island <$> getData E S)
  ∧ (section S = jornadas ∨ section S = goleadores → S' = set_search term S).
Proof.
  unfold search_input. csimpl.
  destruct (section S) eqn:Hsec; csimpl.
  - unfold renderSection. csimpl. rewrite Hsec. csimpl.
    repeat split; try done; intros [|]; done.
  - repeat split; try done.
  - repeat split; try done.
  - unfold renderSection. csimpl. rewrite Hsec.
    pose proof (renderIsla_frame E (set_search term S))
      as (H1 & H2 & H3 & H4 & H5 & H6 & H7). csimpl in *.
    repeat split; try done.
    all: try (intros [|]; done).
    + congruence.
    + intros Hin. apply H, H7. exact Hin.
Qed.

(** X13. A category click starts the selection over: the outcome depends on
    the earlier state through the open section only.  The search term
    is cleared, the matchday group is the category's default, the
    scorer scope is the global one; the matchday is empty unless the
    matchday tab is open, and the island is Gran Canaria unless the
    island tab is open. *)
Theorem cat_btn_click_resets (E : data) (c : category) (S : state) :
  let S' := cat_btn_click E c S in
  cat S' = c ∧ section S' = section S ∧ search S' = ""
  ∧ jorGroup S' = match c with benjamin => "A2" | prebenjamin => "PG2" end
  ∧ golGroup S' = "__GLOBAL__"
  ∧ (section S ≠ jornadas → jorNum S' = "")
  ∧ (section S ≠ isla → island S' = "grancanaria")
  ∧ (∀ S0, section S0 = section S → cat_btn_click E c S0 = S').
Proof.
  assert (∀ S0, section S0 = section S →
            cat_btn_click E c S0 = cat_btn_click E c S) as Hdep.
  { intros S0 H0. unfold cat_btn_click. by rewrite H0. }
  csimpl. split_and!; try exact Hdep; clear Hdep;
    unfold cat_btn_click, renderSection; csimpl;
    set (S1 := State c (section S) "" _ "" "__GLOBAL__" "grancanaria");
    pose proof (renderJornadas_frame E S1) as (H1 & H2 & H3 & H4 & H5 & H6);
    pose proof (renderIsla_frame E S1) as (I1 & I2 & I3 & I4 & I5 & I6 & I7);
    assert (nonempty (jorGroup S1) = true) as Hne by (destruct c; done);
    specialize (H6 Hne);
    assert (renderGoleadores E S1 = S1) as HG
      by (unfold renderGoleadores;
          destruct (match cat S1 with
                    | benjamin => GOL_BENJ E
                    | prebenjamin => GOL_PREBENJ E
                    end); done);
    rewrite ?HG; destruct (section S); done.
Qed.




End Handlers.

(** ** The client: form, head-to-head and team profile *)
Section History.
Import Client Views.

(** X15. getTeamForm returns a suffix of the team's sorted history, of the
    length the window allows: the last five when [n] is left out or is
    0, the last [n] for a positive [n]; for a negative [n] it is the
    history without its first [-n] entries. *)
Theorem getTeamForm_window (E : data) (T gid : string) (n : option Z) :
  let hist := team_history E T gid in
  let form := getTeamForm E T gid n in
  form `suffix_of` hist
  ∧ length form =
      match n with
      | None => (5 `min` length hist)%nat
      | Some k =>
          if k =? 0 then (5 `min` length hist)%nat
          else if 0 <? k then (Z.to_nat k `min` length hist)%nat
          else (length hist - Z.to_nat (- k))%nat
      end.
Proof.
  cbv zeta. unfold getTeamForm, slice_from. split; [apply suffix_drop|].
  rewrite length_drop.
  destruct n as [k|]; [destruct (Z.eqb_spec k 0)|].
  - destruct (Z.ltb_spec (Z.opp 5) 0); lia.
  - destruct (Z.ltb_spec (- k) 0), (Z.ltb_spec 0 k); lia.
  - destruct (Z.ltb_spec (Z.opp 5) 0); lia.
Qed.

Lemma team_entries_dates (T j : string) (ms : list hmatch) :
  fe_date <$> team_entries T j ms = h_date <$> List.filter (counts_for T) ms.
Proof.
  unfold team_entries. induction ms as [|m ms IH]; [done|].
  rewrite bind_cons, fmap_app, IH. cbn [List.filter]. unfold counts_for at 2.
  destruct (h_hs m), (h_as m); csimpl; try done.
  destruct (String.eqb (h_home m) T), (String.eqb (h_away m) T); done.
Qed.

Lemma history_entries_dates (T : string) (hist : list (string * list hmatch)) :
  fe_date <$> (jm ← hist; team_entries T jm.1 jm.2)
  = h_date <$> List.filter (counts_for T) (jm ← hist; jm.2).
Proof.
  induction hist as [|jm hist IH]; [done|].
  rewrite !bind_cons, List.filter_app, !fmap_app, IH, team_entries_dates. done.
Qed.

(** X16. The history behind a team's form holds one entry for every match of
    the group's history that has both scores and the team on one side,
    and nothing else: an unscored match, a match of other teams, a
    group without history or no history file at all contribute
    nothing. *)
Theorem team_history_counts (E : data) (T gid : string) :
  fe_date <$> team_history E T gid
    ≡ₚ h_date <$> List.filter (counts_for T) (history_matches E gid)
  ∧ length (team_history E T gid)
    = length (List.filter (counts_for T) (history_matches E gid)).
Proof.
  assert (fe_date <$> team_history E T gid
          ≡ₚ h_date <$> List.filter (counts_for T) (history_matches E gid)) as H.
  { unfold team_history, history_matches.
    destruct (HISTORY E ≫= (.!! gid)) as [hist|]; csimpl; [|done].
    rewrite stable_sort_perm. by rewrite history_entries_dates. }
  split; [exact H|].
  apply Permutation_length in H. by rewrite !length_fmap in H.
Qed.

(** *** Mirror *)

Lemma insert_sorted_fmap {A B} (f : A → B) (cA : A → A → Z) (cB : B → B → Z)
    (x : A) (l : list A) :
  (∀ x y, cB (f x) (f y) = cA x y) →
  insert_sorted cB (f x) (f <$> l) = f <$> insert_sorted cA x l.
Proof.
  intros H. induction l as [|y l IH]; [done|]. csimpl.
  rewrite H. destruct (cA x y <=? 0); csimpl; [done|]. by rewrite IH.
Qed.

Lemma stable_sort_fmap {A B} (f : A → B) (cA : A → A → Z) (cB : B → B → Z)
    (l : list A) :
  (∀ x y, cB (f x) (f y) = cA x y) →
  stable_sort cB (f <$> l) = f <$> stable_sort cA l.
Proof.
  intros H. induction l as [|x l IH]; [done|]. csimpl.
  unfold stable_sort in *. csimpl. rewrite IH. by apply insert_sorted_fmap.
Qed.

Lemma form_cmp_mirror (x y : form_entry) :
  form_cmp (mirror x) (mirror y) = form_cmp x y.
Proof. done. Qed.

Lemma team_entries_mirror (a b j : string) (ms : list hmatch) :
  a ≠ b →
  (∀ m, m ∈ ms → counts_for a m = true ∨ counts_for b m = true →
     (h_home m = a ∧ h_away m = b) ∨ (h_home m = b ∧ h_away m = a)) →
  team_entries b j ms = mirror <$> team_entries a j ms.
Proof.
  intros Hab. unfold team_entries. induction ms as [|m ms IH]; [done|].
  intros H. rewrite !bind_cons, fmap_app, <- IH.
  2: { intros m' Hm'. apply H. by right. }
  f_equal. specialize (H m (list_elem_of_here _ _)). unfold counts_for in H.
  destruct (h_hs m) as [hs|], (h_as m) as [as_|]; try done.
  destruct (String.eqb_spec (h_home m) a) as [Ha|Ha],
           (String.eqb_spec (h_away m) a) as [Ha'|Ha'],
           (String.eqb_spec (h_home m) b) as [Hb|Hb],
           (String.eqb_spec (h_away m) b) as [Hb'|Hb']; csimpl in *;
    try congruence;
    try (destruct H as [[]|[]]; [by auto|congruence|congruence]);
    try done.
  all: unfold mirror; csimpl; f_equal; f_equal;
    destruct (Z.ltb_spec as_ hs), (Z.ltb_spec hs as_); try done; lia.
Qed.

(** X17. Two different teams whose counted matches in a group are all
    against each other have mirrored forms: whatever the window, the
    form of one reads as the form of the other with wins and losses
    exchanged, draws kept, in the same order. *)
Theorem getTeamForm_mirror (E : data) (a b gid : string) (n : option Z) :
  a ≠ b →
  (∀ m, m ∈ history_matches E gid →
     counts_for a m = true ∨ counts_for b m = true →
     (h_home m = a ∧ h_away m = b) ∨ (h_home m = b ∧ h_away m = a)) →
  fe_result <$> getTeamForm E b gid n
  = opposite <$> (fe_result <$> getTeamForm E a gid n).
Proof.
  intros Hab H.
  assert (team_history E b gid = mirror <$> team_history E a gid) as Hh.
  { unfold team_history, history_matches in *.
    destruct (HISTORY E ≫= (.!! gid)) as [hist|]; csimpl in *; [|done].
    rewrite <- (stable_sort_fmap mirror form_cmp form_cmp)
      by apply form_cmp_mirror.
    f_equal. induction hist as [|jm hist IH]; [done|].
    rewrite !bind_cons, fmap_app. f_equal.
    - apply team_entries_mirror; [done|]. intros m Hm. apply H.
      rewrite bind_cons. apply elem_of_app. by left.
    - apply IH. intros m Hm. apply H.
      rewrite bind_cons. apply elem_of_app. by right. }
  unfold getTeamForm, slice_from. rewrite Hh, length_fmap.
  rewrite <- fmap_drop, <- !list_fmap_compose. done.
Qed.

Lemma getTeamForm_mirror_witness :
  "T" ≠ "U"
  ∧ fe_result <$> getTeamForm tie_data "T" "F1" None = [W; D]
  ∧ fe_result <$> getTeamForm tie_data "U" "F1" None = [L; D].
Proof.
  assert ("T" ≠ "U") as Hne by discriminate.
  split; [exact Hne|]. split; [vm_compute; reflexivity|].
  rewrite (getTeamForm_mirror tie_data "T" "U" "F1" None Hne).
  - vm_compute. reflexivity.
  - intros m Hm. vm_compute in Hm.
    repeat (apply elem_of_cons in Hm as [->|Hm]);
      [vm_compute; auto ..|by apply elem_of_nil in Hm].
    + vm_compute. intros [|]; discriminate.
Defined.

(** *** Head-to-head *)

Lemma h2h_entries_sym (a b j : string) (ms : list hmatch) :
  h2h_entries a b j ms = h2h_entries b a j ms.
Proof.
  unfold h2h_entries. induction ms as [|m ms IH]; [done|].
  rewrite !bind_cons, IH. f_equal.
  destruct (h_hs m), (h_as m); try done. by rewrite orb_comm.
Qed.

Lemma h2h_entries_dates (a b j : string) (ms : list hmatch) :
  a ≠ b →
  hh_date <$> h2h_entries a b j ms
  = h_date <$> List.filter (λ m, counts_for a m && counts_for b m) ms.
Proof.
  intros Hab. unfold h2h_entries. induction ms as [|m ms IH]; [done|].
  rewrite bind_cons, fmap_app, IH. cbn [List.filter]. unfold counts_for at 3 4.
  destruct (h_hs m), (h_as m); csimpl; try done.
  destruct (String.eqb_spec (h_home m) a), (String.eqb_spec (h_away m) a),
           (String.eqb_spec (h_home m) b), (String.eqb_spec (h_away m) b);
    csimpl; try done; congruence.
Qed.

(** X18. The head-to-head list of a match does not depend on which of the
    two teams is at home, and for two different teams it holds exactly
    the matches of the group's history that count for both of them, in
    the order of the file: unscored meetings are left out and nothing
    is sorted. *)
Theorem h2hMatches_meetings (E : data) (a b gid : string)
    (l : list h2h_match) :
  a ≠ b →
  h2hMatches E a b gid = Some l →
  h2hMatches E b a gid = Some l
  ∧ hh_date <$> l
    = h_date <$> List.filter (λ m, counts_for a m && counts_for b m)
                   (history_matches E gid).
Proof.
  intros Hab. unfold h2hMatches, history_matches.
  destruct (HISTORY E ≫= (.!! gid)) as [hist|]; csimpl; [|done].
  intros [= <-]. split.
  - f_equal. induction hist as [|jm hist IH]; [done|].
    by rewrite !bind_cons, IH, h2h_entries_sym.
  - induction hist as [|jm hist IH]; [done|].
    rewrite !bind_cons, List.filter_app, !fmap_app, IH, h2h_entries_dates; done.
Qed.

Lemma h2hMatches_meetings_witness :
  "T" ≠ "U"
  ∧ h2hMatches tie_data "U" "T" "F1"
    = Some [H2H "Vuelta" "08/06" "U" "T" 1 1; H2H "Ida" "01/06" "T" "U" 3 0]
  ∧ hh_date <$> [H2H "Vuelta" "08/06" "U" "T" 1 1; H2H "Ida" "01/06" "T" "U" 3 0]
    = h_date <$> List.filter (λ m, counts_for "T" m && counts_for "U" m)
                   (history_matches tie_data "F1").
Proof.
  assert ("T" ≠ "U") as Hne by discriminate.
  split; [exact Hne|].
  apply (h2hMatches_meetings tie_data "T" "U" "F1" _ Hne).
  vm_compute. reflexivity.
Defined.

(** *** Team profile *)

Lemma detail_entries_length (T j j' : string) (ms : list hmatch) :
  (length (team_entries T j ms) ≤ length (detail_entries T j' ms))%nat.
Proof.
  unfold team_entries, detail_entries. induction ms as [|m ms IH]; [done|].
  rewrite !bind_cons, !length_app.
  apply Nat.add_le_mono; [|exact IH].
  destruct (h_hs m), (h_as m); csimpl; try lia;
    destruct (String.eqb (h_home m) T), (String.eqb (h_away m) T); csimpl; lia.
Qed.

Lemma detail_entries_results (T j j' : string) (ms : list hmatch) :
  (∀ m, m ∈ ms → h_hs m ≠ None → h_as m ≠ None) →
  dm_result <$> detail_entries T j' ms = fe_result <$> team_entries T j ms.
Proof.
  unfold team_entries, detail_entries. induction ms as [|m ms IH]; [done|].
  intros H. rewrite !bind_cons, !fmap_app, IH.
  2: { intros m' Hm'. apply H. by right. }
  f_equal. specialize (H m (list_elem_of_here _ _)).
  destruct (h_hs m) as [hs|], (h_as m) as [as_|]; csimpl; try done.
  - destruct (String.eqb (h_home m) T), (String.eqb (h_away m) T); done.
  - exfalso. by apply H.
Qed.

(** X19. The team profile lists at least the matches the form is computed
    from, and when no match of the group has a home score without an
    away score, the two hold the same results (each as often as the
    other): they differ in order only, the profile being sorted by date
    text alone. *)
Theorem teamDetail_results (E : data) (T gid : string) :
  (length (team_history E T gid) ≤ length (teamDetailMatches E T gid))%nat
  ∧ (scores_complete E gid →
     dm_result <$> teamDetailMatches E T gid
       ≡ₚ fe_result <$> team_history E T gid).
Proof.
  unfold team_history, teamDetailMatches, scores_complete.
  destruct (HISTORY E ≫= (.!! gid)) as [hist|]; csimpl; [|split; done].
  rewrite !stable_sort_length. split.
  - induction hist as [|jm hist IH]; [done|].
    rewrite !bind_cons, !length_app.
    apply Nat.add_le_mono; [apply detail_entries_length|exact IH].
  - intros H. specialize (H hist). rewrite !stable_sort_perm.
    assert (∀ jm m, jm ∈ hist → m ∈ jm.2 → h_hs m ≠ None → h_as m ≠ None)
      as H' by (intros; by eapply H).
    clear H. induction hist as [|jm hist IH]; [done|].
    rewrite !bind_cons, !fmap_app, IH.
    2: { intros jm' m Hjm'. apply H'. by right. }
    rewrite (detail_entries_results T jm.1 jm.1); [done|].
    intros m Hm. eapply H'; [by left|done].
Qed.

End History.

(** ** The client: phases and search *)
Section Phases.
Import Client Views.

Lemma push_to_keys (k : string) (x : group_data)
    (map : list (string * list group_data)) :
  (push_to k x map).*1 = map.*1.
Proof.
  induction map as [|[q gs] map IH]; [done|]. csimpl.
  destruct (String.eqb q k); csimpl; [done|]. by rewrite IH.
Qed.

Lemma push_to_elem (k : string) (x : group_data)
    (map : list (string * list group_data)) (p : string)
    (gs : list group_data) :
  NoDup map.*1 → (p, gs) ∈ push_to k x map →
  (p ≠ k ∧ (p, gs) ∈ map)
  ∨ (p = k ∧ ∃ gs0, (k, gs0) ∈ map ∧ gs = (gs0 ++ [x])%list).
Proof.
  induction map as [|[q gs1] map IH]; csimpl; [by intros _ ?%elem_of_nil|].
  intros [Hq Hnd]%NoDup_cons.
  destruct (String.eqb_spec q k) as [->|Hne]; csimpl.
  - intros [[= -> ->]|Hin]%elem_of_cons.
    + right. split; [done|]. exists gs1. split; [by left|done].
    + left. split; [|by right]. intros ->. apply Hq.
      apply list_elem_of_fmap. by exists (k, gs).
  - intros [[= -> ->]|Hin]%elem_of_cons.
    + left. split; [done|by left].
    + destruct (IH Hnd Hin) as [[H1 H2]|[H1 (gs0 & H2 & H3)]].
      * left. split; [done|by right].
      * right. split; [done|]. exists gs0. split; [by right|done].
Qed.

Lemma getPhases_from_keys (data : list group_data)
    (map m : list (string * list group_data)) :
  getPhases_from map data = Some m →
  m.*1 = first_seen map.*1 (phase <$> data).
Proof.
  revert map. induction data as [|x data IH]; intros map; csimpl.
  - by intros [= ->].
  - unfold first_seen. csimpl. case_bool_decide as Hin.
    + intros Hrun%IH. by rewrite push_to_keys in Hrun.
    + case_bool_decide as Hproto; [done|]. intros Hrun%IH.
      by rewrite fmap_app in Hrun.
Qed.

Lemma filter_phase_none (p : string) (seen : list group_data) :
  (∀ gd, gd ∈ seen → phase gd ≠ p) →
  List.filter (λ gd, String.eqb (phase gd) p) seen = [].
Proof.
  induction seen as [|y seen IH]; [done|]. intros H. csimpl.
  destruct (String.eqb_spec (phase y) p) as [Heq|_].
  - exfalso. by apply (H y (list_elem_of_here _ _)).
  - apply IH. intros gd Hgd. apply H. by right.
Qed.

Lemma getPhases_from_groups (data seen : list group_data)
    (map m : list (string * list group_data)) :
  getPhases_from map data = Some m →
  phases_of seen map → phases_of (seen ++ data)%list m.
Proof.
  revert map seen. induction data as [|x data IH]; intros map seen; csimpl.
  - intros [= ->]. by rewrite app_nil_r.
  - intros Hrun (Hnd & Hseen & Hval).
    replace (seen ++ x :: data)%list with ((seen ++ [x]) ++ data)%list
      by (by rewrite <- app_assoc).
    case_bool_decide as Hin.
    + apply (IH _ _ Hrun). split; [by rewrite push_to_keys|]. split.
      * intros gd [Hgd|Hgd%list_elem_of_singleton]%elem_of_app;
          rewrite push_to_keys; [by apply Hseen|by subst gd].
      * intros p gs Hp.
        destruct (push_to_elem _ _ _ _ _ Hnd Hp)
          as [[Hne Hold]|[-> (gs0 & Hold & ->)]];
          destruct (Hval _ _ Hold) as [Hgs Hnil]; rewrite List.filter_app;
          csimpl.
        -- destruct (String.eqb_spec (phase x) p); [congruence|].
           by rewrite app_nil_r.
        -- rewrite String.eqb_refl, <- Hgs. split; [done|].
           by destruct gs0.
    + case_bool_decide as Hproto; [done|].
      apply (IH _ _ Hrun). split; [|split].
      * rewrite fmap_app. csimpl. apply NoDup_app. split; [done|].
        split; [|apply NoDup_singleton].
        intros q Hq ->%list_elem_of_singleton. done.
      * intros gd [Hgd|Hgd%list_elem_of_singleton]%elem_of_app;
          rewrite fmap_app; apply elem_of_app;
          [left; by apply Hseen|right; subst gd; by left].
      * intros p gs [Hp|[= -> ->]%list_elem_of_singleton]%elem_of_app;
          rewrite List.filter_app; csimpl.
        -- destruct (Hval _ _ Hp) as [Hgs Hnil].
           destruct (String.eqb_spec (phase x) p) as [<-|_].
           ++ exfalso. apply Hin. apply list_elem_of_fmap.
              by exists (phase x, gs).
           ++ by rewrite app_nil_r.
        -- rewrite String.eqb_refl, filter_phase_none; [done|].
           intros gd Hgd Heq. apply Hin. rewrite <- Heq. by apply Hseen.
Qed.

(** X20. When getPhases returns, the map has one property per phase, created
    in the order the phases are first met in the data; every group's
    phase is among them; and the value of a phase is the list of the
    groups of that phase in data order, never empty. *)
Theorem getPhases_partition (E : data) (S : state)
    (m : list (string * list group_data)) :
  getPhases E S = Some m →
  m.*1 = first_seen [] (phase <$> getData E S)
  ∧ NoDup m.*1
  ∧ (∀ gd, gd ∈ getData E S → phase gd ∈ m.*1)
  ∧ ∀ p gs, (p, gs) ∈ m →
      gs = List.filter (λ gd, String.eqb (phase gd) p) (getData E S)
      ∧ gs ≠ [].
Proof.
  unfold getPhases. intros Hrun. split.
  - by apply getPhases_from_keys in Hrun.
  - apply (getPhases_from_groups _ [] _ _ Hrun).
    split; [apply NoDup_nil_2|].
    split; [by intros gd ?%elem_of_nil|by intros p gs ?%elem_of_nil].
Qed.

Lemma getPhases_partition_witness :
  getPhases search_data searching_tel
  = Some [("Fase A", [GroupData "A1" "Grupo 1" "Fase A - Grupo 1" "Fase A"
                        (Some "grancanaria") None None
                        [SRow 1 "Telde" 9 3 3 0 0 8 1 7;
                         SRow 2 "Arucas" 3 3 1 0 2 2 5 (-3)] [];
                      GroupData "A2" "Grupo 2" "Fase A - Grupo 2" "Fase A"
                        (Some "lanzarote") None None
                        [SRow 1 "Moya" 4 2 1 1 0 3 1 2;
                         SRow 2 "CD TELDE B" 1 2 0 1 1 1 3 (-2)] []]);
          ("Fase B", [GroupData "B1" "Grupo 1" "Fase B - Grupo 1" "Fase B"
                        (Some "grancanaria") None None
                        [SRow 1 "Firgas" 6 2 2 0 0 4 0 4] []])]
  ∧ first_seen [] (phase <$> getData search_data searching_tel)
    = ["Fase A"; "Fase B"].
Proof.
  assert (getPhases search_data searching_tel
          = Some [("Fase A", [GroupData "A1" "Grupo 1" "Fase A - Grupo 1" "Fase A"
                        (Some "grancanaria") None None
                        [SRow 1 "Telde" 9 3 3 0 0 8 1 7;
                         SRow 2 "Arucas" 3 3 1 0 2 2 5 (-3)] [];
                      GroupData "A2" "Grupo 2" "Fase A - Grupo 2" "Fase A"
                        (Some "lanzarote") None None
                        [SRow 1 "Moya" 4 2 1 1 0 3 1 2;
                         SRow 2 "CD TELDE B" 1 2 0 1 1 1 3 (-2)] []]);
          ("Fase B", [GroupData "B1" "Grupo 1" "Fase B - Grupo 1" "Fase B"
                        (Some "grancanaria") None None
                        [SRow 1 "Firgas" 6 2 2 0 0 4 0 4] []])]) as Hrun
    by (vm_compute; reflexivity).
  split; [exact Hrun|].
  destruct (getPhases_partition _ _ _ Hrun) as [Hkeys _].
  rewrite <- Hkeys. reflexivity.
Defined.

Lemma getPhases_from_None (data : list group_data)
    (map : list (string * list group_data)) :
  (∀ p, p ∈ map.*1 → p ∉ object_prototype_keys) →
  getPhases_from map data = None
  ↔ ∃ gd, gd ∈ data ∧ phase gd ∈ object_prototype_keys.
Proof.
  revert map. induction data as [|x data IH]; intros map Hmap; csimpl.
  - split; [done|]. by intros (gd & ?%elem_of_nil & _).
  - case_bool_decide as Hin.
    + rewrite IH by (by rewrite push_to_keys). split.
      * intros (gd & Hgd & Hp). exists gd. split; [by right|done].
      * intros (gd & [->|Hgd]%elem_of_cons & Hp);
          [by apply Hmap in Hin|by exists gd].
    + case_bool_decide as Hproto.
      * split; [|done]. intros _. exists x. split; [by left|done].
      * rewrite IH. split.
        -- intros (gd & Hgd & Hp). exists gd. split; [by right|done].
        -- intros (gd & [->|Hgd]%elem_of_cons & Hp); [done|by exists gd].
        -- intros p. rewrite fmap_app. csimpl.
           intros [Hp|Hp%list_elem_of_singleton]%elem_of_app;
             [by apply Hmap|by subst p].
Qed.

(** X21. getPhases throws, instead of returning a map, exactly when some
    group's phase is the name of a property every object inherits
    ("constructor", "toString", ...): the lookup finds the inherited
    value, no array is created, and the push fails. *)
Theorem getPhases_throws_iff (E : data) (S : state) :
  getPhases E S = None
  ↔ ∃ gd, gd ∈ getData E S ∧ phase gd ∈ object_prototype_keys.
Proof.
  unfold getPhases. apply getPhases_from_None. by intros p ?%elem_of_nil.
Qed.

End Phases.

Section SearchFacts.
Import Client Views.
Variable toLowerCase : string → string.

Lemma filter_sublist {A} (f : A → bool) (l : list A) :
  List.filter f l `sublist_of` l.
Proof.
  induction l as [|x l IH]; csimpl; [constructor|].
  destruct (f x); by constructor.
Qed.

Lemma filter_nil_existsb {A} (f : A → bool) (l : list A) :
  List.filter f l = [] ↔ existsb f l = false.
Proof.
  induction l as [|x l IH]; csimpl; [done|].
  destruct (f x); csimpl; [done|exact IH].
Qed.

Lemma search_count_zero (S : state) (groups : list group_data) :
  length (gd ← groups; List.filter (row_matches toLowerCase S) (standings gd))
    = 0%nat
  ↔ List.filter (λ gd, existsb (row_matches toLowerCase S) (standings gd))
      groups = [].
Proof.
  induction groups as [|gd groups IH]; [done|].
  rewrite bind_cons, length_app. csimpl.
  destruct (existsb _ (standings gd)) eqn:Hex.
  - split; [|done]. intros H.
    assert (List.filter (row_matches toLowerCase S) (standings gd) = []) as Hnil
      by (apply length_zero_iff_nil; lia).
    apply filter_nil_existsb in Hnil. congruence.
  - apply filter_nil_existsb in Hex. rewrite Hex. csimpl. exact IH.
Qed.

(** X22. With a search term typed, the standings tab shows the groups of the
    category that have a team whose lower-cased name contains the term,
    in their order, and the count next to the box is zero exactly when
    no group is shown. *)
Theorem filterGroups_count (E : data) (S : state) :
  nonempty (search S) = true →
  filterGroups toLowerCase S (getData E S) `sublist_of` getData E S
  ∧ (∀ gd, gd ∈ filterGroups toLowerCase S (getData E S)
       ↔ gd ∈ getData E S
         ∧ ∃ row, row ∈ standings gd ∧ row_matches toLowerCase S row = true)
  ∧ (searchCount toLowerCase E S = Some 0%nat
     ↔ filterGroups toLowerCase S (getData E S) = []).
Proof.
  intros Hs. unfold filterGroups, searchCount. rewrite Hs. csimpl.
  split; [apply filter_sublist|]. split.
  - intros gd. rewrite list_elem_of_In, filter_In, existsb_exists.
    rewrite <- list_elem_of_In.
    split; intros [H1 (row & H2 & H3)]; (split; [done|]); exists row;
      (split; [|done]); by apply list_elem_of_In.
  - rewrite <- search_count_zero. split; [by intros [= ->]|by intros ->].
Qed.

End SearchFacts.

Lemma filterGroups_count_witness :
  Client.nonempty (Client.search searching_tel) = true
  ∧ Client.id <$> Views.filterGroups ascii_lower searching_tel
                    (Client.getData search_data searching_tel)
    = ["A1"; "A2"]
  ∧ Views.searchCount ascii_lower search_data searching_tel ≠ Some 0%nat.
Proof.
  split; [reflexivity|]. split; [vm_compute; reflexivity|].
  intros H.
  apply (filterGroups_count ascii_lower search_data searching_tel) in H;
    [|reflexivity].
  vm_compute in H. discriminate H.
Defined.


(** ** Standings: from the scrape to the data file *)
Section StandingsRoundTrip.
Import Store.




End StandingsRoundTrip.

(** ** The worker: what ends up in the cache *)
Section CacheFacts.
Import Worker Lifecycle.


Lemma caches_match_put_ne (cs : CacheStorage) (nm u u' : string)
    (r : Response) :
  u' ≠ u →
  caches_match (caches_put cs nm u r) u' = caches_match cs u'.
Proof.
  intros Hne. induction cs as [|[n c] rest IH]; csimpl.
  - rewrite lookup_singleton_ne; [done|congruence].
  - destruct (String.eqb n nm); csimpl.
    + rewrite lookup_insert_ne; [done|congruence].
    + by rewrite IH.
Qed.




Lemma cache_first_frame (nm : string) (loc : location) (cs : CacheStorage)
    (req : Request) (net : fetch_result) :
  let out := cache_first nm loc cs req net in
  (∀ u', u' ≠ req_url req → caches_match out.2 u' = caches_match cs u')
  ∧ (out.2 ≠ cs →
     caches_match cs (req_url req) = None
     ∧ String.prefix (origin loc) (req_url req) = true
     ∧ ∃ resp, net = Fulfilled resp).
Proof.
  unfold cache_first.
  destruct (caches_match cs (req_url req)); csimpl; [done|].
  destruct net as [resp|]; csimpl; [|done].
  destruct (String.prefix (origin loc) (req_url req)); csimpl; [|done].
  split; [intros u' Hne; by apply caches_match_put_ne|].
  intros _. split; [done|]. split; [done|]. by exists resp.
Qed.

(** X24. Handling a request never changes what the caches answer for any
    other URL, in either worker; and the worker of [src/sw.js] changes
    the caches at all only when the request was not cached, is
    same-origin and the fetch was fulfilled. *)
Theorem fetch_cache_frame (loc : location) (cs : CacheStorage)
    (req : Request) (net : fetch_result) :
  (∀ u', u' ≠ req_url req →
     caches_match (sw_fetch loc cs req net).2 u' = caches_match cs u'
     ∧ caches_match (sw_fetch_data_aware loc cs req net).2 u'
       = caches_match cs u')
  ∧ ((sw_fetch loc cs req net).2 ≠ cs →
     caches_match cs (req_url req) = None
     ∧ String.prefix (origin loc) (req_url req) = true
     ∧ ∃ resp, net = Fulfilled resp).
Proof.
  split; [|apply cache_first_frame].
  intros u' Hne. split; [by apply cache_first_frame|].
  unfold sw_fetch_data_aware. destruct (isDataFile req).
  - unfold network_first. destruct net; csimpl; [|done].
    by apply caches_match_put_ne.
  - by apply cache_first_frame.
Qed.






End CacheFacts.

(** ** Seasons and categories *)
Section SeasonTable.
Import Store.

Lemma find_app_new {A} (p : A → bool) (l : list A) (x : A) :
  List.find p l = None → p x = true → List.find p (l ++ [x]) = Some x.
Proof.
  intros Hnone Hx. induction l as [|y l IH]; csimpl in *; [by rewrite Hx|].
  destruct (p y); [done|]. by apply IH.
Qed.

Lemma find_named {A} (p : A → bool) (l : list A) :
  (∃ x, x ∈ l ∧ p x = true) → List.find p l ≠ None.
Proof.
  intros (x & Hx & Hp) Hnone.
  apply list_elem_of_In in Hx.
  rewrite (find_none _ _ Hnone x Hx) in Hp. done.
Qed.

(** X26. The season and category upserts create and never update: a
    call leaves a row with the name and the id returned in the table,
    after the rows that were there, which stay as they were; a name
    that is stored changes nothing, so the years and the current flag
    of a stored season are never rewritten; and any later call with
    the name, whatever else it carries, returns the same id and
    changes nothing. *)
Theorem season_category_upserts (d : db) (nm : string) (sy ey : Z)
    (cur : bool) :
  (let r := get_or_create_season d nm sy ey cur in
   (∀ sy' ey' cur', get_or_create_season r.2 nm sy' ey' cur' = r)
   ∧ (∃ row, row ∈ seasons r.2 ∧ season_name row = nm
             ∧ season_id row = r.1)
   ∧ seasons d `prefix_of` seasons r.2
   ∧ (nm ∈ season_name <$> seasons d → r.2 = d))
  ∧ (let r := get_or_create_category d nm in
     get_or_create_category r.2 nm = r
     ∧ (∃ row, row ∈ categories r.2 ∧ category_name row = nm
               ∧ category_id row = r.1)
     ∧ categories d `prefix_of` categories r.2
     ∧ (nm ∈ category_name <$> categories d → r.2 = d)).
Proof.
  split.
  - unfold get_or_create_season.
    destruct (List.find _ (seasons d)) as [row|] eqn:Hfind; csimpl.
    + split; [intros; by rewrite Hfind|].
      apply find_some in Hfind as [Hin Heq].
      apply String.eqb_eq in Heq. apply list_elem_of_In in Hin.
      split; [by exists row|]. split; done.
    + split.
      { intros sy' ey' cur'.
        erewrite find_app_new; [done|exact Hfind|apply String.eqb_refl]. }
      split.
      { eexists. split; [apply elem_of_app; right; by left|done]. }
      split; [by eexists|].
      intros (row & -> & Hin)%list_elem_of_fmap. exfalso.
      eapply find_named; [|exact Hfind].
      exists row. split; [done|apply String.eqb_refl].
  - unfold get_or_create_category.
    destruct (List.find _ (categories d)) as [row|] eqn:Hfind; csimpl.
    + split; [by rewrite Hfind|].
      apply find_some in Hfind as [Hin Heq].
      apply String.eqb_eq in Heq. apply list_elem_of_In in Hin.
      split; [by exists row|]. split; done.
    + split.
      { erewrite find_app_new; [done|exact Hfind|apply String.eqb_refl]. }
      split.
      { eexists. split; [apply elem_of_app; right; by left|done]. }
      split; [by eexists|].
      intros (row & -> & Hin)%list_elem_of_fmap. exfalso.
      eapply find_named; [|exact Hfind].
      exists row. split; [done|apply String.eqb_refl].
Qed.

End SeasonTable.
